(** * mnf (move-nested-files): a shallow embedding of [src/mnf.c]

    The development follows the layout of the C file: small string
    utilities, the option record, the filters, the unique-name allocator,
    the job queue, the statistics, the copy/move primitives, the directory
    traversal, the worker and [main].

    C strings are modelled as [string], sizes and C integers as [Z]
    (wrap-around is written out where the C type is unsigned).  Everything
    that touches the operating system runs in the monad [M] defined below:
    the answers of the kernel are read from a script, every call is
    recorded in a trace, and [exit] is an outcome of its own. *)

From Stdlib Require Import ZArith Lia Bool Ascii String List.
From stdpp Require Import base tactics option list gmap strings.

Local Open Scope Z_scope.
#[local] Set Warnings "-clear-no-such-hyp".

(** ** C strings *)

Module CStr.

Definition strlen (s : string) : Z := Z.of_nat (String.length s).

(** Index of the last occurrence of [c], as [strrchr] finds it. *)
Fixpoint strrchr (s : string) (c : ascii) : option nat :=
  match s with
  | EmptyString => None
  | String a s' =>
      match strrchr s' c with
      | Some i => Some (S i)
      | None => if Ascii.eqb a c then Some O else None
      end
  end.

Fixpoint str_take (n : nat) (s : string) : string :=
  match n, s with
  | S n', String a s' => String a (str_take n' s')
  | _, _ => EmptyString
  end.

Fixpoint str_drop (n : nat) (s : string) : string :=
  match n, s with
  | S n', String a s' => str_drop n' s'
  | _, _ => s
  end.

(** [strncmp (a, b, strlen b) == 0]. *)
Fixpoint starts_with (b a : string) : bool :=
  match b, a with
  | EmptyString, _ => true
  | String cb b', String ca a' => Ascii.eqb cb ca && starts_with b' a'
  | String _ _, EmptyString => false
  end.

(** Does [c] occur in [s]? *)
Fixpoint mem (c : ascii) (s : string) : bool :=
  match s with
  | EmptyString => false
  | String a s' => Ascii.eqb a c || mem c s'
  end.

(** [snprintf (dst, sz, "%s", s)]: at most [sz - 1] characters are kept. *)
Definition snprintf_s (sz : Z) (s : string) : string :=
  str_take (Z.to_nat (sz - 1)) s.

Definition digit (d : Z) : ascii := ascii_of_N (48 + Z.to_N d).

(** The decimal digits of [n >= 0], least significant first onto [acc]. *)
Fixpoint digits (fuel : nat) (n : Z) (acc : string) : string :=
  match fuel with
  | O => acc
  | S fuel' =>
      let acc' := String (digit (n mod 10)) acc in
      if n / 10 =? 0 then acc' else digits fuel' (n / 10) acc'
  end.

(** [snprintf (dst, sz, "%d", n)]; an [int] has at most ten digits. *)
Definition decimal (n : Z) : string :=
  if n <? 0 then String "-" (digits 10 (- n) EmptyString)
  else digits 10 n EmptyString.

End CStr.

Import CStr.

Definition PATH_MAX : Z := 4096.
Definition EXIT_SUCCESS : Z := 0.
Definition EXIT_FAILURE : Z := 1.
Definition INT_MAX : Z := 2147483647.
Definition EXDEV : Z := 18.
Definition EINTR : Z := 4.

Definition basename_const (path : string) : string :=
  match strrchr path "/" with
  | Some i => str_drop (S i) path
  | None => path
  end.

(** ** Options *)

Inductive mode_tg := MODE_RENAME | MODE_SKIP | MODE_OVERWRITE.

Global Instance mode_tg_eq_dec : EqDecision mode_tg.
Proof. solve_decision. Defined.

(** [options_t]; every [char **] with its count is a [list string]. *)
Record options_t := {
  src : string; dst : string;
  threads : Z;
  mode : mode_tg;
  min_depth : Z;
  max_depth : Z;
  dry_run : bool;
  progress : bool;
  preserve_times : bool;
  include_symlinks : bool;
  prune_empty_dirs : bool;
  min_size : Z; has_min_size : bool;
  max_size : Z; has_max_size : bool;
  newer_than : Z; has_newer : bool;
  older_than : Z; has_older : bool;
  includes : list string;
  excludes : list string;
  allow_ext : list string;
  deny_ext : list string
}.

Definition n_includes (o : options_t) : Z := Z.of_nat (length (includes o)).
Definition n_excludes (o : options_t) : Z := Z.of_nat (length (excludes o)).
Definition n_allow_ext (o : options_t) : Z := Z.of_nat (length (allow_ext o)).
Definition n_deny_ext (o : options_t) : Z := Z.of_nat (length (deny_ext o)).

(** The fields of [struct stat] the program reads. *)
Inductive file_type := S_IFREG | S_IFDIR | S_IFLNK | S_IFOTHER.

Record stat_t := {
  st_type : file_type;
  st_perm : Z;
  st_size : Z;
  st_atime : Z;
  st_mtime : Z
}.

(** ** Filters *)

Definition ext_of (name : string) : option string :=
  match strrchr name "." with
  | None => None
  | Some O => None
  | Some (S i) => Some (str_drop (S (S i)) name)
  end.

Definition is_null {A} (p : option A) : bool :=
  match p with None => true | Some _ => false end.

Definition is_upper (c : ascii) : bool :=
  (65 <=? Z.of_N (N_of_ascii c)) && (Z.of_N (N_of_ascii c) <=? 90).

(** [(char)(c - 'A' + 'a')] for an upper-case letter, [c] otherwise. *)
Definition to_lower (c : ascii) : ascii :=
  if is_upper c then ascii_of_N (N_of_ascii c - 65 + 97) else c.

(** The inner loop of [list_contains_ci], on two strings of equal length. *)
Fixpoint same_ci (a needle : string) : bool :=
  match a, needle with
  | String ca a', String cb n' =>
      if Ascii.eqb (to_lower ca) (to_lower cb) then same_ci a' n' else false
  | _, _ => true
  end.

Fixpoint list_contains_ci_loop (l : list string) (needle : string) : bool :=
  match l with
  | [] => false
  | a :: l' =>
      if negb (strlen a =? strlen needle) then list_contains_ci_loop l' needle
      else if same_ci a needle then true
      else list_contains_ci_loop l' needle
  end.

Definition list_contains_ci (l : list string) (needle : option string) : bool :=
  match needle with
  | None => false
  | Some n => list_contains_ci_loop l n
  end.

Section Filters.

(** [fnmatch (pattern, string, FNM_PATHNAME | FNM_PERIOD | FNM_CASEFOLD)]
    is libc's; its result is [0] on a match. *)
Variable fnmatch : string -> string -> Z.

Fixpoint glob_loop (rel : string) (globs : list string) : bool :=
  match globs with
  | [] => false
  | g :: globs' => if fnmatch g rel =? 0 then true else glob_loop rel globs'
  end.

Definition match_any_glob (rel : string) (globs : list string) : bool :=
  match globs with
  | [] => true
  | _ => glob_loop rel globs
  end.

Definition match_any_exclude (rel : string) (globs : list string) : bool :=
  match globs with
  | [] => false
  | _ => glob_loop rel globs
  end.

Definition file_passes_filters
    (o : options_t) (rel : string) (st : stat_t) (name : string) : bool :=
  if (n_includes o >? 0) && negb (match_any_glob rel (includes o)) then false
  else if match_any_exclude rel (excludes o) then false
  else
    let ext := ext_of name in
    if (n_allow_ext o >? 0)
       && (is_null ext || negb (list_contains_ci (allow_ext o) ext)) then false
    else if negb (is_null ext) && (n_deny_ext o >? 0)
            && list_contains_ci (deny_ext o) ext then false
    else if has_min_size o && (st_size st <? min_size o) then false
    else if has_max_size o && (st_size st >? max_size o) then false
    else if has_newer o && (st_mtime st <? newer_than o) then false
    else if has_older o && (st_mtime st >? older_than o) then false
    else true.

End Filters.

(** ** The operating system

    A system call is answered by the next entry of a script; the call and
    its answer are appended to the trace.  [printf]-style output is
    recorded with its format and arguments. *)

Inductive amode := F_OK | W_OK.

Inductive syscall :=
| sys_access (path : string) (m : amode)
| sys_mkdir (path : string) (perm : Z)
| sys_realpath (path : string)
| sys_rename (old new : string)
| sys_unlink (path : string)
| sys_rmdir (path : string)
| sys_stat (path : string)
| sys_lstat (path : string)
| sys_opendir (path : string)
| sys_open_rdonly (path : string)
| sys_open_creat_trunc (path : string) (perm : Z)
| sys_fstat (fd : Z)
| sys_read (fd : Z) (count : Z)
| sys_write (fd : Z) (buf : list Byte.byte)
| sys_futimens (fd : Z) (atime mtime : Z)
| sys_fsync (fd : Z)
| sys_close (fd : Z)
| sys_readlink (path : string) (bufsz : Z)
| sys_symlink (target linkpath : string).

(** The answer to a call: the return value ([ret < 0] is failure; for a
    call returning a pointer, [ret < 0] stands for [NULL]), the [errno] a
    failing call leaves, and whatever the call writes to its out
    parameters. *)
Record sysres := {
  ret : Z;
  err : Z;
  r_bytes : list Byte.byte;
  r_str : string;
  r_stat : stat_t
}.

Definition no_stat : stat_t :=
  {| st_type := S_IFOTHER; st_perm := 0; st_size := 0; st_atime := 0; st_mtime := 0 |}.

Definition ok (r : Z) : sysres :=
  {| ret := r; err := 0; r_bytes := []; r_str := ""; r_stat := no_stat |}.
Definition fail (e : Z) : sysres :=
  {| ret := -1; err := e; r_bytes := []; r_str := ""; r_stat := no_stat |}.
Definition ok_str (s : string) : sysres :=
  {| ret := 0; err := 0; r_bytes := []; r_str := s; r_stat := no_stat |}.
Definition ok_stat (st : stat_t) : sysres :=
  {| ret := 0; err := 0; r_bytes := []; r_str := ""; r_stat := st |}.
Definition ok_read (b : list Byte.byte) : sysres :=
  {| ret := Z.of_nat (length b); err := 0; r_bytes := b; r_str := ""; r_stat := no_stat |}.

Inductive arg := a_str (s : string) | a_int (n : Z) | a_errno (e : Z).

(** ** Jobs, the queue and the statistics (the program's globals) *)

Record job_t := {
  src_path : string;
  rel_path : string;
  depth : Z;
  is_symlink : bool
}.

(** What a run leaves in the trace: system calls with their answers,
    output written directly, calls of [log_msg] (with whether the verbosity
    let them print), and the three operations on the job queue. *)
Inductive event :=
| ev_sys (c : syscall) (r : sysres)
| ev_stdout (fmt : string) (args : list arg)
| ev_stderr (fmt : string) (args : list arg)
| ev_log (level : Z) (printed : bool) (fmt : string) (args : list arg)
| ev_push (j : job_t)
| ev_pop (j : job_t)
| ev_done.

Definition loc := positive.

Record node_t := { nd_job : job_t; nd_next : option loc }.

Record queue_t := {
  q_heap : gmap loc node_t;
  q_head : option loc;
  q_tail : option loc;
  q_done : bool
}.

Definition q_init : queue_t :=
  {| q_heap := ∅; q_head := None; q_tail := None; q_done := false |}.

Record stats_t := {
  moved : Z;
  skipped : Z;
  failed : Z;
  bytes_copied : Z
}.

Definition stats_init : stats_t :=
  {| moved := 0; skipped := 0; failed := 0; bytes_copied := 0 |}.

(** [unsigned long] and [unsigned long long] are 64 bits wide (LP64). *)
Definition ULONG_WRAP : Z := 2 ^ 64.

Record world := {
  g_verbose : Z;
  errno : Z;
  script : list sysres;
  trace : list event;
  q : queue_t;
  stats : stats_t;
  SRC_CANON : string;
  DST_CANON : string
}.

Definition set_verbose (v : Z) (w : world) : world :=
  {| g_verbose := v; errno := errno w; script := script w; trace := trace w;
     q := q w; stats := stats w; SRC_CANON := SRC_CANON w; DST_CANON := DST_CANON w |}.
Definition set_q (x : queue_t) (w : world) : world :=
  {| g_verbose := g_verbose w; errno := errno w; script := script w; trace := trace w;
     q := x; stats := stats w; SRC_CANON := SRC_CANON w; DST_CANON := DST_CANON w |}.
Definition set_stats (x : stats_t) (w : world) : world :=
  {| g_verbose := g_verbose w; errno := errno w; script := script w; trace := trace w;
     q := q w; stats := x; SRC_CANON := SRC_CANON w; DST_CANON := DST_CANON w |}.
Definition set_src_canon (x : string) (w : world) : world :=
  {| g_verbose := g_verbose w; errno := errno w; script := script w; trace := trace w;
     q := q w; stats := stats w; SRC_CANON := x; DST_CANON := DST_CANON w |}.
Definition set_dst_canon (x : string) (w : world) : world :=
  {| g_verbose := g_verbose w; errno := errno w; script := script w; trace := trace w;
     q := q w; stats := stats w; SRC_CANON := SRC_CANON w; DST_CANON := x |}.
Definition emit (e : event) (w : world) : world :=
  {| g_verbose := g_verbose w; errno := errno w; script := script w;
     trace := trace w ++ [e];
     q := q w; stats := stats w; SRC_CANON := SRC_CANON w; DST_CANON := DST_CANON w |}.
(** The kernel answers [c] with [r]: the script moves on, the call is
    traced, a failure sets [errno]. *)
Definition answer (c : syscall) (r : sysres) (rest : list sysres) (w : world) : world :=
  {| g_verbose := g_verbose w;
     errno := if ret r <? 0 then err r else errno w;
     script := rest;
     trace := trace w ++ [ev_sys c r];
     q := q w; stats := stats w; SRC_CANON := SRC_CANON w; DST_CANON := DST_CANON w |}.

(** ** The monad *)

Inductive outcome (A : Type) :=
| Ret (a : A) (w : world)
| Exit (status : Z) (w : world)
| Stuck (w : world).
Arguments Ret {A}.
Arguments Exit {A}.
Arguments Stuck {A}.

Definition M (A : Type) : Type := world -> outcome A.

Global Instance M_ret : MRet M := fun A a w => Ret a w.
Global Instance M_bind : MBind M := fun A B f m w =>
  match m w with
  | Ret a w' => f a w'
  | Exit s w' => Exit s w'
  | Stuck w' => Stuck w'
  end.

Global Instance M_fmap : FMap M := fun A B f m w =>
  match m w with
  | Ret a w' => Ret (f a) w'
  | Exit s w' => Exit s w'
  | Stuck w' => Stuck w'
  end.

Definition get_world : M world := fun w => Ret w w.
Definition get_errno : M Z := fun w => Ret (errno w) w.
Definition modify (f : world -> world) : M unit := fun w => Ret tt (f w).
Definition exit {A} (status : Z) : M A := fun w => Exit status w.
(** No result: the call never returns (nothing left in the script, or a
    wait nobody ends), or C leaves the behaviour undefined. *)
Definition stuck {A} : M A := fun w => Stuck w.

Definition syscall_ (c : syscall) : M sysres := fun w =>
  match script w with
  | [] => Stuck w
  | r :: rest => Ret r (answer c r rest w)
  end.

(** A loop whose every iteration makes at least one system call cannot
    run longer than the script. *)
Definition script_fuel {A} (f : nat -> M A) : M A :=
  fun w => f (S (length (script w))) w.

(** ** Logging *)

Definition die {A} (fmt : string) (args : list arg) : M A :=
  modify (emit (ev_stderr fmt args));; exit EXIT_FAILURE.

Definition vlog_msg (level : Z) (fmt : string) (args : list arg) : M unit :=
  modify (fun w => emit (ev_log level (negb (level >? g_verbose w)) fmt args) w).

Definition log_msg := vlog_msg.

(** ** Small utils *)

Definition path_join (dstsz : Z) (a b : string) : M string :=
  let alen := strlen a in
  let blen := strlen b in
  let needed := alen + 1 + blen + 1 in
  if needed >? dstsz then die "Path too long: '%s' + '%s'" [a_str a; a_str b]
  else mret (a +:+ "/" +:+ b).

Definition str_copy_checked (dstsz : Z) (s : string) : M string :=
  let slen := strlen s + 1 in
  if slen >? dstsz then die "Path too long: '%s'" [a_str s]
  else mret s.

(** ** Unique naming *)

Definition split_name (name : string) (bsz extsz : Z) : string * string :=
  let dot := strrchr name "." in
  if starts_with "." name && (is_null dot || bool_decide (dot = Some O))
  then (snprintf_s bsz name, "")
  else
    match dot with
    | Some (S i) =>
        let blen := S i in
        (snprintf_s bsz (str_take blen name), snprintf_s extsz (str_drop blen name))
    | _ => (snprintf_s bsz name, "")
    end.

Fixpoint unique_path_loop (fuel : nat) (outsz : Z) (dest_dir base ext : string)
    (n : Z) (out : string) : M string :=
  match fuel with
  | O => stuck
  | S fuel' =>
      r ← syscall_ (sys_access out F_OK);
      if ret r =? 0 then
        let num := decimal n in
        let numlen := strlen num in
        if (numlen <? 0) || (numlen >=? 32)
        then die "Path suffix too long (unique_path)" []
        else
          let destlen := strlen dest_dir in
          let baselen := strlen base in
          let extlen := strlen ext in
          let needed := destlen + 1 + baselen + 1 + numlen + extlen + 1 in
          if needed >? outsz then die "Path too long (unique_path)" []
          else
            let out' := dest_dir +:+ "/" +:+ base +:+ "_" +:+ num +:+ ext in
            (* n++ on an int *)
            if n =? INT_MAX then stuck
            else unique_path_loop fuel' outsz dest_dir base ext (n + 1) out'
      else mret out
  end.

Definition unique_path (outsz : Z) (dest_dir name : string) : M string :=
  let '(base, ext) := split_name name PATH_MAX PATH_MAX in
  out ← path_join outsz dest_dir name;
  script_fuel (fun fuel => unique_path_loop fuel outsz dest_dir base ext 1 out).

(** ** Job queue

    The queue is the singly linked list of the source: nodes live in a heap
    and are reached through [q_head]; [q_tail] points at the last node.
    The mutex makes each of the three operations atomic, so each is one
    function on the queue. *)

Definition set_next (n : option loc) (nd : node_t) : node_t :=
  {| nd_job := nd_job nd; nd_next := n |}.

(** [push_job], with [n] the node [malloc] returned. *)
Definition push_node (n : loc) (j : job_t) (qu : queue_t) : queue_t :=
  let heap1 := <[n := {| nd_job := j; nd_next := None |}]> (q_heap qu) in
  match q_tail qu with
  | Some t =>
      {| q_heap := alter (set_next (Some n)) t heap1;
         q_head := q_head qu; q_tail := Some n; q_done := q_done qu |}
  | None =>
      {| q_heap := heap1;
         q_head := Some n; q_tail := Some n; q_done := q_done qu |}
  end.

Inductive pop_result :=
| popped (j : job_t)     (* [pop_job] returns true *)
| pop_end                (* [pop_job] returns false *)
| pop_wait               (* [pthread_cond_wait]: the caller sleeps *)
| pop_dangling.          (* [q.head] points at no node *)

Definition pop_node (qu : queue_t) : pop_result * queue_t :=
  match q_head qu with
  | Some h =>
      match q_heap qu !! h with
      | Some nd =>
          (popped (nd_job nd),
           {| q_heap := delete h (q_heap qu);
              q_head := nd_next nd;
              q_tail := if is_null (nd_next nd) then None else q_tail qu;
              q_done := q_done qu |})
      | None => (pop_dangling, qu)
      end
  | None => if q_done qu then (pop_end, qu) else (pop_wait, qu)
  end.

Definition finish_queue (qu : queue_t) : queue_t :=
  {| q_heap := q_heap qu; q_head := q_head qu; q_tail := q_tail qu; q_done := true |}.

(** [malloc] returns an address that is not in use. *)
Definition malloc (qu : queue_t) : loc := fresh (dom (q_heap qu)).

Definition push_job (j : job_t) : M unit :=
  modify (fun w => emit (ev_push j) (set_q (push_node (malloc (q w)) j (q w)) w)).

(** With nobody left to push or to signal, a waiting [pop_job] never
    returns. *)
Definition pop_job : M (option job_t) :=
  w ← get_world;
  match pop_node (q w) with
  | (popped j, q') => modify (fun w => emit (ev_pop j) (set_q q' w));; mret (Some j)
  | (pop_end, _) => mret None
  | (pop_wait, _) | (pop_dangling, _) => stuck
  end.

Definition finish_jobs : M unit :=
  modify (fun w => emit ev_done (set_q (finish_queue (q w)) w)).

(** ** Stats *)

Definition add_moved : M unit :=
  modify (fun w => let s := stats w in
    set_stats {| moved := (moved s + 1) mod ULONG_WRAP; skipped := skipped s;
                 failed := failed s; bytes_copied := bytes_copied s |} w).
Definition add_skipped : M unit :=
  modify (fun w => let s := stats w in
    set_stats {| moved := moved s; skipped := (skipped s + 1) mod ULONG_WRAP;
                 failed := failed s; bytes_copied := bytes_copied s |} w).
Definition add_failed : M unit :=
  modify (fun w => let s := stats w in
    set_stats {| moved := moved s; skipped := skipped s;
                 failed := (failed s + 1) mod ULONG_WRAP;
                 bytes_copied := bytes_copied s |} w).
Definition add_bytes (b : Z) : M unit :=
  modify (fun w => let s := stats w in
    set_stats {| moved := moved s; skipped := skipped s; failed := failed s;
                 bytes_copied := (bytes_copied s + b) mod ULONG_WRAP |} w).

(** ** Move/Copy *)

Definition BUFSZ : Z := 2 ^ 20.

Definition when (b : bool) (m : M unit) : M unit := if b then m else mret tt.

Definition close (fd : Z) : M unit := syscall_ (sys_close fd);; mret tt.

(** The inner [while (w < r)] of [copy_file_rw]; [false] when the function
    has returned [-1] from inside it. *)
Fixpoint write_loop (fuel : nat) (in_ out : Z) (buf : list Byte.byte) (r w : Z)
    : M bool :=
  match fuel with
  | O => stuck
  | S fuel' =>
      if w <? r then
        k ← syscall_ (sys_write out (drop (Z.to_nat w) buf));
        if ret k <? 0 then
          e ← get_errno;
          if e =? EINTR then write_loop fuel' in_ out buf r w
          else close in_;; close out;; mret false
        else write_loop fuel' in_ out buf r (w + ret k)
      else mret true
  end.

(** The outer [while ((r = read (...)) > 0)]; [Some r] is the value of [r]
    that ended the loop, [None] says that the function has returned [-1]
    from inside the loop. *)
Fixpoint read_loop (fuel : nat) (in_ out : Z) (size : Z) (progress : bool)
    (total : Z) : M (option Z) :=
  match fuel with
  | O => stuck
  | S fuel' =>
      rd ← syscall_ (sys_read in_ BUFSZ);
      let r := ret rd in
      if r >? 0 then
        written ← script_fuel (fun f => write_loop f in_ out (r_bytes rd) r 0);
        if written : bool then
          let total := (total + r) mod ULONG_WRAP in
          add_bytes r;;
          when (progress && (size >? 0))
            (modify (emit (ev_stdout "  copied %llu/%lld bytes (%.0f%%)\r"
                                     [a_int total; a_int size])));;
          read_loop fuel' in_ out size progress total
        else mret None
      else mret (Some r)
  end.

Definition copy_file_rw (src dst : string) (mode : Z)
    (preserve_times progress : bool) : M Z :=
  rin ← syscall_ (sys_open_rdonly src);
  let in_ := ret rin in
  if in_ <? 0 then mret (-1)
  else
    rout ← syscall_ (sys_open_creat_trunc dst (Z.land mode 511));
    let out := ret rout in
    if out <? 0 then close in_;; mret (-1)
    else
      rst ← syscall_ (sys_fstat in_);
      let st := r_stat rst in
      let size := if ret rst =? 0 then st_size st else 0 in
      lr ← script_fuel (fun f => read_loop f in_ out size progress 0);
      match lr with
      | None => mret (-1)
      | Some r =>
          when progress (modify (emit (ev_stdout "\n" [])));;
          if r <? 0 then close in_;; close out;; mret (-1)
          else
            when preserve_times
              (syscall_ (sys_futimens out (st_atime st) (st_mtime st));; mret tt);;
            syscall_ (sys_fsync out);;
            close in_;; close out;;
            mret 0
      end.

Definition move_symlink (src dst : string) (overwrite : bool) : M Z :=
  rl ← syscall_ (sys_readlink src (PATH_MAX - 1));
  if ret rl <? 0 then mret (-1)
  else
    let target := r_str rl in
    when overwrite (syscall_ (sys_unlink dst);; mret tt);;
    rs ← syscall_ (sys_symlink target dst);
    if negb (ret rs =? 0) then mret (-1)
    else
      ru ← syscall_ (sys_unlink src);
      if negb (ret ru =? 0) then mret (-1) else mret 0.

Definition move_file_with_modes (src dst : string)
    (overwrite preserve_times progress : bool) : M Z :=
  when overwrite (syscall_ (sys_unlink dst);; mret tt);;
  rr ← syscall_ (sys_rename src dst);
  if ret rr =? 0 then mret 0
  else
    e ← get_errno;
    if negb (e =? EXDEV) then mret (-1)
    else
      rs ← syscall_ (sys_stat src);
      if ret rs <? 0 then mret (-1)
      else
        rc ← copy_file_rw src dst (st_perm (r_stat rs)) preserve_times progress;
        if rc <? 0 then mret (-1)
        else
          ru ← syscall_ (sys_unlink src);
          if ret ru <? 0 then mret (-1) else mret 0.

(** ** Traversal *)

Definition is_under (path prefix : string) : bool :=
  let n := String.length prefix in
  if negb (starts_with prefix path) then false
  else
    match String.get n path with
    | None => true                       (* path[n] == '\0' *)
    | Some c => Ascii.eqb c "/"
    end.

(** What a directory walk sees of one entry: its name, the answers of
    [lstat] and, for a directory, of [realpath], [opendir] and [rmdir], and
    the entries [readdir] lists in it. *)
#[local] Set Warnings "-register-all".
Inductive dirent := mk_dirent {
  d_name : string;
  d_lstat : sysres;
  d_realpath : sysres;
  d_opendir : sysres;
  d_entries : list dirent;
  d_rmdir : sysres
}.

(** A call answered by the directory tree at hand instead of the script. *)
Definition observe (c : syscall) (r : sysres) : M unit :=
  modify (fun w => answer c r (script w) w).

Definition is_dot_or_dotdot (name : string) : bool :=
  String.eqb name "." || String.eqb name "..".

Definition count_entries (ents : list dirent) : Z :=
  Z.of_nat (length (filter (fun e => negb (is_dot_or_dotdot (d_name e))) ents)).

Definition path_is_empty_dir (dir : string) (od : sysres) (ents : list dirent)
    : M bool :=
  observe (sys_opendir dir) od;;
  if ret od <? 0 then mret false
  else mret (count_entries ents =? 0).

(** One round of the [while] of [prune_empty]: [None] when the entry was a
    directory and [rmdir] removed it, the entry as it is left otherwise. *)
Fixpoint prune_entry (dir : string) (e : dirent) {struct e} : M (option dirent) :=
  match e with
  | mk_dirent name lst rp od ents rm =>
      if is_dot_or_dotdot name then mret (Some e)
      else
        path ← path_join PATH_MAX dir name;
        observe (sys_lstat path) lst;;
        if negb (ret lst =? 0) then mret (Some e)
        else
          match st_type (r_stat lst) with
          | S_IFDIR =>
              observe (sys_realpath path) rp;;
              if ret rp <? 0 then mret (Some e)
              else
                dstc ← DST_CANON <$> get_world;
                if is_under (r_str rp) dstc then mret (Some e)
                else
                  (* prune_empty (path) *)
                  observe (sys_opendir path) od;;
                  ents' ←
                    (if ret od <? 0 then mret ents
                     else
                       (fix loop (l : list dirent) : M (list dirent) :=
                          match l with
                          | [] => mret []
                          | e' :: l' =>
                              k ← prune_entry path e';
                              rest ← loop l';
                              mret (match k with Some x => x :: rest | None => rest end)
                          end) ents);
                  empty ← path_is_empty_dir path od ents';
                  if empty : bool then
                    observe (sys_rmdir path) rm;;
                    if ret rm =? 0 then mret None
                    else mret (Some (mk_dirent name lst rp od ents' rm))
                  else mret (Some (mk_dirent name lst rp od ents' rm))
          | _ => mret (Some e)
          end
  end.

Fixpoint prune_loop (dir : string) (l : list dirent) : M (list dirent) :=
  match l with
  | [] => mret []
  | e :: l' =>
      k ← prune_entry dir e;
      rest ← prune_loop dir l';
      mret (match k with Some x => x :: rest | None => rest end)
  end.

Definition prune_empty (dir : string) (od : sysres) (ents : list dirent)
    : M (list dirent) :=
  observe (sys_opendir dir) od;;
  if ret od <? 0 then mret ents
  else prune_loop dir ents.

Definition error_fmt : string := "ERROR: cannot move '%s' (%s)".

Section Program.

Variable fnmatch : string -> string -> Z.
(** libc's [atoi], and the two parsers of human-readable sizes and dates
    ([strtod], [mktime], [time]), whose results the program only stores. *)
Variable atoi : string -> Z.
Variable parse_size : string -> option Z.
Variable parse_time_spec : string -> option Z.

Definition new_job (path rel : string) (d : Z) (link : bool) : job_t :=
  {| src_path := path; rel_path := rel; depth := d; is_symlink := link |}.

(** The part of the loop body shared by symlinks and regular files. *)
Definition queue_file (o : options_t) (path rel : string) (depth : Z)
    (st : stat_t) (name : string) (link : bool) : M unit :=
  if (max_depth o >=? 0) && (depth >? max_depth o) then mret tt
  else if depth >=? min_depth o then
    if negb (file_passes_filters fnmatch o rel st name) then mret tt
    else push_job (new_job path rel depth link)
  else mret tt.

(** One round of the [while] of [traverse_and_queue]. *)
Fixpoint traverse_entry (o : options_t) (dir : string) (depth : Z)
    (relbase : string) (e : dirent) {struct e} : M unit :=
  match e with
  | mk_dirent name lst rp od ents _ =>
      if is_dot_or_dotdot name then mret tt
      else
        path ← path_join PATH_MAX dir name;
        rel ← (if negb (String.eqb relbase EmptyString)
               then path_join PATH_MAX relbase name
               else str_copy_checked PATH_MAX name);
        observe (sys_lstat path) lst;;
        if ret lst <? 0 then
          e ← get_errno;
          log_msg 1 "lstat failed for '%s' (%s)" [a_str path; a_errno e]
        else
          let st := r_stat lst in
          match st_type st with
          | S_IFLNK =>
              if negb (include_symlinks o) then mret tt
              else queue_file o path rel depth st name true
          | S_IFDIR =>
              observe (sys_realpath path) rp;;
              if ret rp <? 0 then
                e ← get_errno;
                log_msg 1 "realpath failed for '%s' (%s)" [a_str path; a_errno e]
              else
                dstc ← DST_CANON <$> get_world;
                if is_under (r_str rp) dstc then mret tt
                else if (max_depth o >=? 0) && (depth >=? max_depth o) then mret tt
                else
                  (* traverse_and_queue (o, path, depth + 1, rel) *)
                  observe (sys_opendir path) od;;
                  if ret od <? 0 then
                    e ← get_errno;
                    log_msg 1 "Warning: cannot open '%s' (%s)" [a_str path; a_errno e]
                  else
                    (fix loop (l : list dirent) : M unit :=
                       match l with
                       | [] => mret tt
                       | e' :: l' =>
                           traverse_entry o path (depth + 1) rel e';; loop l'
                       end) ents
          | S_IFREG => queue_file o path rel depth st name false
          | S_IFOTHER => mret tt
          end
  end.

Fixpoint traverse_loop (o : options_t) (dir : string) (depth : Z)
    (relbase : string) (l : list dirent) : M unit :=
  match l with
  | [] => mret tt
  | e :: l' => traverse_entry o dir depth relbase e;; traverse_loop o dir depth relbase l'
  end.

Definition traverse_and_queue (o : options_t) (dir : string) (depth : Z)
    (relbase : string) (od : sysres) (ents : list dirent) : M unit :=
  observe (sys_opendir dir) od;;
  if ret od <? 0 then
    e ← get_errno;
    log_msg 1 "Warning: cannot open '%s' (%s)" [a_str dir; a_errno e]
  else traverse_loop o dir depth relbase ents.

(** ** Worker *)

(** The body of the [while (pop_job (&j))] of [worker_main]. *)
Definition worker_job (o : options_t) (j : job_t) : M unit :=
  let name := basename_const (rel_path j) in
  dstc ← DST_CANON <$> get_world;
  '(target, skip, overwrite) ←
    match mode o with
    | MODE_SKIP =>
        target ← path_join PATH_MAX dstc name;
        r ← syscall_ (sys_access target F_OK);
        mret (target, ret r =? 0, false)
    | MODE_OVERWRITE =>
        target ← path_join PATH_MAX dstc name;
        mret (target, false, true)
    | MODE_RENAME =>
        target ← unique_path PATH_MAX dstc name;
        mret (target, false, false)
    end;
  if skip : bool then
    log_msg 2 "Skip (exists): %s" [a_str name];;
    add_skipped
  else if dry_run o then
    log_msg 1 "WOULD MOVE: '%s' -> '%s'" [a_str (src_path j); a_str target];;
    add_skipped
  else
    rc ← (if is_symlink j then move_symlink (src_path j) target overwrite
          else move_file_with_modes (src_path j) target overwrite
                 (preserve_times o) (progress o));
    if rc =? 0 then
      log_msg 2 "Moved: '%s' -> '%s'" [a_str (src_path j); a_str target];;
      add_moved
    else
      e ← get_errno;
      log_msg 1 error_fmt [a_str (src_path j); a_errno e];;
      add_failed.

Fixpoint worker_loop (fuel : nat) (o : options_t) : M unit :=
  match fuel with
  | O => stuck
  | S fuel' =>
      j ← pop_job;
      match j with
      | Some j => worker_job o j;; worker_loop fuel' o
      | None => mret tt
      end
  end.

(** Every round takes a node off the queue. *)
Definition worker_main (o : options_t) : M unit :=
  fun w => worker_loop (S (size (q_heap (q w)))) o w.

(** ** Option parsing *)

(** Field updates of [options_t]. *)
Definition set_src (x : string) (o : options_t) : options_t :=
  {| src := x; dst := dst o; threads := threads o; mode := mode o;
     min_depth := min_depth o; max_depth := max_depth o; dry_run := dry_run o;
     progress := progress o; preserve_times := preserve_times o;
     include_symlinks := include_symlinks o; prune_empty_dirs := prune_empty_dirs o;
     min_size := min_size o; has_min_size := has_min_size o; max_size := max_size o;
     has_max_size := has_max_size o; newer_than := newer_than o;
     has_newer := has_newer o; older_than := older_than o; has_older := has_older o;
     includes := includes o; excludes := excludes o; allow_ext := allow_ext o;
     deny_ext := deny_ext o |}.
Definition set_dst (x : string) (o : options_t) : options_t :=
  {| src := src o; dst := x; threads := threads o; mode := mode o;
     min_depth := min_depth o; max_depth := max_depth o; dry_run := dry_run o;
     progress := progress o; preserve_times := preserve_times o;
     include_symlinks := include_symlinks o; prune_empty_dirs := prune_empty_dirs o;
     min_size := min_size o; has_min_size := has_min_size o; max_size := max_size o;
     has_max_size := has_max_size o; newer_than := newer_than o;
     has_newer := has_newer o; older_than := older_than o; has_older := has_older o;
     includes := includes o; excludes := excludes o; allow_ext := allow_ext o;
     deny_ext := deny_ext o |}.
Definition set_threads (x : Z) (o : options_t) : options_t :=
  {| src := src o; dst := dst o; threads := x; mode := mode o;
     min_depth := min_depth o; max_depth := max_depth o; dry_run := dry_run o;
     progress := progress o; preserve_times := preserve_times o;
     include_symlinks := include_symlinks o; prune_empty_dirs := prune_empty_dirs o;
     min_size := min_size o; has_min_size := has_min_size o; max_size := max_size o;
     has_max_size := has_max_size o; newer_than := newer_than o;
     has_newer := has_newer o; older_than := older_than o; has_older := has_older o;
     includes := includes o; excludes := excludes o; allow_ext := allow_ext o;
     deny_ext := deny_ext o |}.
Definition set_mode (x : mode_tg) (o : options_t) : options_t :=
  {| src := src o; dst := dst o; threads := threads o; mode := x;
     min_depth := min_depth o; max_depth := max_depth o; dry_run := dry_run o;
     progress := progress o; preserve_times := preserve_times o;
     include_symlinks := include_symlinks o; prune_empty_dirs := prune_empty_dirs o;
     min_size := min_size o; has_min_size := has_min_size o; max_size := max_size o;
     has_max_size := has_max_size o; newer_than := newer_than o;
     has_newer := has_newer o; older_than := older_than o; has_older := has_older o;
     includes := includes o; excludes := excludes o; allow_ext := allow_ext o;
     deny_ext := deny_ext o |}.
Definition set_min_depth (x : Z) (o : options_t) : options_t :=
  {| src := src o; dst := dst o; threads := threads o; mode := mode o;
     min_depth := x; max_depth := max_depth o; dry_run := dry_run o;
     progress := progress o; preserve_times := preserve_times o;
     include_symlinks := include_symlinks o; prune_empty_dirs := prune_empty_dirs o;
     min_size := min_size o; has_min_size := has_min_size o; max_size := max_size o;
     has_max_size := has_max_size o; newer_than := newer_than o;
     has_newer := has_newer o; older_than := older_than o; has_older := has_older o;
     includes := includes o; excludes := excludes o; allow_ext := allow_ext o;
     deny_ext := deny_ext o |}.
Definition set_max_depth (x : Z) (o : options_t) : options_t :=
  {| src := src o; dst := dst o; threads := threads o; mode := mode o;
     min_depth := min_depth o; max_depth := x; dry_run := dry_run o;
     progress := progress o; preserve_times := preserve_times o;
     include_symlinks := include_symlinks o; prune_empty_dirs := prune_empty_dirs o;
     min_size := min_size o; has_min_size := has_min_size o; max_size := max_size o;
     has_max_size := has_max_size o; newer_than := newer_than o;
     has_newer := has_newer o; older_than := older_than o; has_older := has_older o;
     includes := includes o; excludes := excludes o; allow_ext := allow_ext o;
     deny_ext := deny_ext o |}.
Definition set_dry_run (x : bool) (o : options_t) : options_t :=
  {| src := src o; dst := dst o; threads := threads o; mode := mode o;
     min_depth := min_depth o; max_depth := max_depth o; dry_run := x;
     progress := progress o; preserve_times := preserve_times o;
     include_symlinks := include_symlinks o; prune_empty_dirs := prune_empty_dirs o;
     min_size := min_size o; has_min_size := has_min_size o; max_size := max_size o;
     has_max_size := has_max_size o; newer_than := newer_than o;
     has_newer := has_newer o; older_than := older_than o; has_older := has_older o;
     includes := includes o; excludes := excludes o; allow_ext := allow_ext o;
     deny_ext := deny_ext o |}.
Definition set_progress (x : bool) (o : options_t) : options_t :=
  {| src := src o; dst := dst o; threads := threads o; mode := mode o;
     min_depth := min_depth o; max_depth := max_depth o; dry_run := dry_run o;
     progress := x; preserve_times := preserve_times o;
     include_symlinks := include_symlinks o; prune_empty_dirs := prune_empty_dirs o;
     min_size := min_size o; has_min_size := has_min_size o; max_size := max_size o;
     has_max_size := has_max_size o; newer_than := newer_than o;
     has_newer := has_newer o; older_than := older_than o; has_older := has_older o;
     includes := includes o; excludes := excludes o; allow_ext := allow_ext o;
     deny_ext := deny_ext o |}.
Definition set_preserve_times (x : bool) (o : options_t) : options_t :=
  {| src := src o; dst := dst o; threads := threads o; mode := mode o;
     min_depth := min_depth o; max_depth := max_depth o; dry_run := dry_run o;
     progress := progress o; preserve_times := x;
     include_symlinks := include_symlinks o; prune_empty_dirs := prune_empty_dirs o;
     min_size := min_size o; has_min_size := has_min_size o; max_size := max_size o;
     has_max_size := has_max_size o; newer_than := newer_than o;
     has_newer := has_newer o; older_than := older_than o; has_older := has_older o;
     includes := includes o; excludes := excludes o; allow_ext := allow_ext o;
     deny_ext := deny_ext o |}.
Definition set_include_symlinks (x : bool) (o : options_t) : options_t :=
  {| src := src o; dst := dst o; threads := threads o; mode := mode o;
     min_depth := min_depth o; max_depth := max_depth o; dry_run := dry_run o;
     progress := progress o; preserve_times := preserve_times o;
     include_symlinks := x; prune_empty_dirs := prune_empty_dirs o;
     min_size := min_size o; has_min_size := has_min_size o; max_size := max_size o;
     has_max_size := has_max_size o; newer_than := newer_than o;
     has_newer := has_newer o; older_than := older_than o; has_older := has_older o;
     includes := includes o; excludes := excludes o; allow_ext := allow_ext o;
     deny_ext := deny_ext o |}.
Definition set_prune_empty_dirs (x : bool) (o : options_t) : options_t :=
  {| src := src o; dst := dst o; threads := threads o; mode := mode o;
     min_depth := min_depth o; max_depth := max_depth o; dry_run := dry_run o;
     progress := progress o; preserve_times := preserve_times o;
     include_symlinks := include_symlinks o; prune_empty_dirs := x;
     min_size := min_size o; has_min_size := has_min_size o; max_size := max_size o;
     has_max_size := has_max_size o; newer_than := newer_than o;
     has_newer := has_newer o; older_than := older_than o; has_older := has_older o;
     includes := includes o; excludes := excludes o; allow_ext := allow_ext o;
     deny_ext := deny_ext o |}.
Definition set_includes (x : list string) (o : options_t) : options_t :=
  {| src := src o; dst := dst o; threads := threads o; mode := mode o;
     min_depth := min_depth o; max_depth := max_depth o; dry_run := dry_run o;
     progress := progress o; preserve_times := preserve_times o;
     include_symlinks := include_symlinks o; prune_empty_dirs := prune_empty_dirs o;
     min_size := min_size o; has_min_size := has_min_size o; max_size := max_size o;
     has_max_size := has_max_size o; newer_than := newer_than o;
     has_newer := has_newer o; older_than := older_than o; has_older := has_older o;
     includes := x; excludes := excludes o; allow_ext := allow_ext o;
     deny_ext := deny_ext o |}.
Definition set_excludes (x : list string) (o : options_t) : options_t :=
  {| src := src o; dst := dst o; threads := threads o; mode := mode o;
     min_depth := min_depth o; max_depth := max_depth o; dry_run := dry_run o;
     progress := progress o; preserve_times := preserve_times o;
     include_symlinks := include_symlinks o; prune_empty_dirs := prune_empty_dirs o;
     min_size := min_size o; has_min_size := has_min_size o; max_size := max_size o;
     has_max_size := has_max_size o; newer_than := newer_than o;
     has_newer := has_newer o; older_than := older_than o; has_older := has_older o;
     includes := includes o; excludes := x; allow_ext := allow_ext o;
     deny_ext := deny_ext o |}.
Definition set_allow_ext (x : list string) (o : options_t) : options_t :=
  {| src := src o; dst := dst o; threads := threads o; mode := mode o;
     min_depth := min_depth o; max_depth := max_depth o; dry_run := dry_run o;
     progress := progress o; preserve_times := preserve_times o;
     include_symlinks := include_symlinks o; prune_empty_dirs := prune_empty_dirs o;
     min_size := min_size o; has_min_size := has_min_size o; max_size := max_size o;
     has_max_size := has_max_size o; newer_than := newer_than o;
     has_newer := has_newer o; older_than := older_than o; has_older := has_older o;
     includes := includes o; excludes := excludes o; allow_ext := x;
     deny_ext := deny_ext o |}.
Definition set_deny_ext (x : list string) (o : options_t) : options_t :=
  {| src := src o; dst := dst o; threads := threads o; mode := mode o;
     min_depth := min_depth o; max_depth := max_depth o; dry_run := dry_run o;
     progress := progress o; preserve_times := preserve_times o;
     include_symlinks := include_symlinks o; prune_empty_dirs := prune_empty_dirs o;
     min_size := min_size o; has_min_size := has_min_size o; max_size := max_size o;
     has_max_size := has_max_size o; newer_than := newer_than o;
     has_newer := has_newer o; older_than := older_than o; has_older := has_older o;
     includes := includes o; excludes := excludes o; allow_ext := allow_ext o;
     deny_ext := x |}.
Definition set_min_size (x : Z) (o : options_t) : options_t :=
  {| src := src o; dst := dst o; threads := threads o; mode := mode o;
     min_depth := min_depth o; max_depth := max_depth o; dry_run := dry_run o;
     progress := progress o; preserve_times := preserve_times o;
     include_symlinks := include_symlinks o; prune_empty_dirs := prune_empty_dirs o;
     min_size := x; has_min_size := true; max_size := max_size o;
     has_max_size := has_max_size o; newer_than := newer_than o;
     has_newer := has_newer o; older_than := older_than o; has_older := has_older o;
     includes := includes o; excludes := excludes o; allow_ext := allow_ext o;
     deny_ext := deny_ext o |}.
Definition set_max_size (x : Z) (o : options_t) : options_t :=
  {| src := src o; dst := dst o; threads := threads o; mode := mode o;
     min_depth := min_depth o; max_depth := max_depth o; dry_run := dry_run o;
     progress := progress o; preserve_times := preserve_times o;
     include_symlinks := include_symlinks o; prune_empty_dirs := prune_empty_dirs o;
     min_size := min_size o; has_min_size := has_min_size o; max_size := x;
     has_max_size := true; newer_than := newer_than o; has_newer := has_newer o;
     older_than := older_than o; has_older := has_older o; includes := includes o;
     excludes := excludes o; allow_ext := allow_ext o; deny_ext := deny_ext o |}.
Definition set_newer_than (x : Z) (o : options_t) : options_t :=
  {| src := src o; dst := dst o; threads := threads o; mode := mode o;
     min_depth := min_depth o; max_depth := max_depth o; dry_run := dry_run o;
     progress := progress o; preserve_times := preserve_times o;
     include_symlinks := include_symlinks o; prune_empty_dirs := prune_empty_dirs o;
     min_size := min_size o; has_min_size := has_min_size o; max_size := max_size o;
     has_max_size := has_max_size o; newer_than := x; has_newer := true;
     older_than := older_than o; has_older := has_older o; includes := includes o;
     excludes := excludes o; allow_ext := allow_ext o; deny_ext := deny_ext o |}.
Definition set_older_than (x : Z) (o : options_t) : options_t :=
  {| src := src o; dst := dst o; threads := threads o; mode := mode o;
     min_depth := min_depth o; max_depth := max_depth o; dry_run := dry_run o;
     progress := progress o; preserve_times := preserve_times o;
     include_symlinks := include_symlinks o; prune_empty_dirs := prune_empty_dirs o;
     min_size := min_size o; has_min_size := has_min_size o; max_size := max_size o;
     has_max_size := has_max_size o; newer_than := newer_than o;
     has_newer := has_newer o; older_than := x; has_older := true;
     includes := includes o; excludes := excludes o; allow_ext := allow_ext o;
     deny_ext := deny_ext o |}.

(** [memset (o, 0, sizeof *o)] followed by the four defaults. *)
Definition options_default : options_t :=
  {| src := EmptyString; dst := EmptyString; threads := 1; mode := MODE_RENAME;
     min_depth := 1; max_depth := -1;
     dry_run := false; progress := false; preserve_times := true;
     include_symlinks := false; prune_empty_dirs := false;
     min_size := 0; has_min_size := false; max_size := 0; has_max_size := false;
     newer_than := 0; has_newer := false; older_than := 0; has_older := false;
     includes := []; excludes := []; allow_ext := []; deny_ext := [] |}.

(** [strtok_r (s, ",", ...)]: the maximal runs of characters other than a
    comma. *)
Fixpoint tokens (cur : string) (s : string) : list string :=
  match s with
  | EmptyString => if String.eqb cur EmptyString then [] else [String.rev cur]
  | String c s' =>
      if Ascii.eqb c ","
      then (if String.eqb cur EmptyString then [] else [String.rev cur]) ++
           tokens EmptyString s'
      else tokens (String c cur) s'
  end.

Fixpoint skip_blank (s : string) : string :=
  match s with
  | String c s' =>
      if Ascii.eqb c " " || Ascii.eqb c "009" then skip_blank s' else s
  | EmptyString => s
  end.

Fixpoint skip_blank_nl (s : string) : string :=
  match s with
  | String c s' =>
      if Ascii.eqb c " " || Ascii.eqb c "009" || Ascii.eqb c "010"
      then skip_blank_nl s' else s
  | EmptyString => s
  end.

Definition trim (tok : string) : string :=
  String.rev (skip_blank_nl (String.rev (skip_blank tok))).

Definition split_csv (csv : string) : list string :=
  filter (fun t => negb (String.eqb t EmptyString)) (trim <$> tokens EmptyString csv).

Definition add_patterns (arr : list string) (csv : string) : list string :=
  arr ++ split_csv csv.
Definition add_exts := add_patterns.

Definition usage_short : string := "Usage: %s SOURCE_DIR DEST_DIR [options]\n".
Definition help_text : string := "move-nested-files (mnf) %s\n...".
Definition version_text : string := "mnf %s\n".
Definition MNF_VERSION : string := "1.0.0".

Definition print_usage_short (prog : string) : M unit :=
  modify (emit (ev_stderr usage_short [a_str prog]));;
  modify (emit (ev_stderr "Try '%s --help' for a full description.\n" [a_str prog])).
Definition print_help (prog : string) : M unit :=
  modify (emit (ev_stdout help_text [a_str MNF_VERSION; a_str prog])).
Definition print_version : M unit :=
  modify (emit (ev_stdout version_text [a_str MNF_VERSION])).

(** What [getopt_long] hands to the program: the option codes with their
    arguments, in order, and the operands left in [argv] from [optind]. *)
Record cmdline := {
  prog : string;
  getopt_seq : list (Z * string);
  operands : list string
}.

(** One round of the [switch]. *)
Definition parse_option (prog : string) (c : Z) (optarg : string)
    (o : options_t) : M options_t :=
  if c =? 104 (* 'h' *) then print_help prog;; exit 0
  else if c =? 86 (* 'V' *) then print_version;; exit 0
  else if c =? 113 (* 'q' *) then modify (set_verbose 0);; mret o
  else if c =? 118 (* 'v' *) then
    modify (fun w => set_verbose (g_verbose w + 1) w);; mret o
  else if c =? 110 (* 'n' *) then mret (set_dry_run true o)
  else if c =? 116 (* 't' *) then
    let t := atoi optarg in mret (set_threads (if t <? 1 then 1 else t) o)
  else if c =? 1000 then
    if String.eqb optarg "rename" then mret (set_mode MODE_RENAME o)
    else if String.eqb optarg "skip" then mret (set_mode MODE_SKIP o)
    else if String.eqb optarg "overwrite" then mret (set_mode MODE_OVERWRITE o)
    else die "Invalid --mode: %s" [a_str optarg]
  else if c =? 1001 then mret (set_progress true o)
  else if c =? 1002 then mret (set_preserve_times false o)
  else if c =? 1003 then mret (set_include_symlinks true o)
  else if c =? 1004 then mret (set_prune_empty_dirs true o)
  else if c =? 1005 then
    let d := atoi optarg in mret (set_min_depth (if d <? 0 then 0 else d) o)
  else if c =? 1006 then mret (set_max_depth (atoi optarg) o)
  else if c =? 1007 then mret (set_includes (add_patterns (includes o) optarg) o)
  else if c =? 1008 then mret (set_excludes (add_patterns (excludes o) optarg) o)
  else if c =? 1009 then mret (set_allow_ext (add_exts (allow_ext o) optarg) o)
  else if c =? 1010 then mret (set_deny_ext (add_exts (deny_ext o) optarg) o)
  else if c =? 1011 then
    match parse_size optarg with
    | Some v => mret (set_min_size v o)
    | None => die "Invalid --min-size: %s" [a_str optarg]
    end
  else if c =? 1012 then
    match parse_size optarg with
    | Some v => mret (set_max_size v o)
    | None => die "Invalid --max-size: %s" [a_str optarg]
    end
  else if c =? 1013 then
    match parse_time_spec optarg with
    | Some v => mret (set_newer_than v o)
    | None => die "Invalid --newer-than: %s" [a_str optarg]
    end
  else if c =? 1014 then
    match parse_time_spec optarg with
    | Some v => mret (set_older_than v o)
    | None => die "Invalid --older-than: %s" [a_str optarg]
    end
  else print_usage_short prog;; exit 2.

Fixpoint parse_loop (prog : string) (l : list (Z * string)) (o : options_t)
    : M options_t :=
  match l with
  | [] => mret o
  | (c, optarg) :: l' => o' ← parse_option prog c optarg o; parse_loop prog l' o'
  end.

Definition parse_options (cl : cmdline) : M options_t :=
  o ← parse_loop (prog cl) (getopt_seq cl) options_default;
  match operands cl with
  | [s; d] => mret (set_dst d (set_src s o))
  | _ => print_usage_short (prog cl);; exit 2
  end.

(** ** main *)

(** A directory as a walk finds it. *)
Record dirview := { dv_opendir : sysres; dv_entries : list dirent }.

Fixpoint repeat_M (n : nat) (m : M unit) : M unit :=
  match n with
  | O => mret tt
  | S n' => m;; repeat_M n' m
  end.

(** [main] up to the start of the threads: the options and the two
    canonical paths. *)
Definition setup (cl : cmdline) : M options_t :=
  opt ← parse_options cl;
  r ← syscall_ (sys_realpath (src opt));
  (if ret r <? 0 then die "Source not found: %s" [a_str (src opt)]
   else modify (set_src_canon (r_str r)));;
  r ← syscall_ (sys_access (dst opt) F_OK);
  (if negb (ret r =? 0) then
     r ← syscall_ (sys_mkdir (dst opt) 509);
     if negb (ret r =? 0) then die "Cannot create destination: %s" [a_str (dst opt)]
     else mret tt
   else mret tt);;
  r ← syscall_ (sys_realpath (dst opt));
  (if ret r <? 0 then die "Cannot resolve destination path: %s" [a_str (dst opt)]
   else modify (set_dst_canon (r_str r)));;
  w ← get_world;
  r ← syscall_ (sys_access (DST_CANON w) W_OK);
  (if negb (ret r =? 0) && negb (dry_run opt)
   then die "No write permission in destination: %s" [a_str (DST_CANON w)]
   else mret tt);;
  log_msg 1 "Source: %s" [a_str (SRC_CANON w)];;
  log_msg 1 "Dest  : %s" [a_str (DST_CANON w)];;
  when (is_under (DST_CANON w) (SRC_CANON w))
    (log_msg 1 "Note: destination lies within source; that subtree will be excluded." []);;
  mret opt.

(** The threads are run one after the other: the traversal first, then
    every worker until its [pop_job] returns false.  [seen] is the source
    tree as the traversal finds it, [left] as the pruner finds it. *)
Definition main (cl : cmdline) (seen left : dirview) : M Z :=
  opt ← setup cl;
  w ← get_world;
  let nth := if threads opt >? 0 then threads opt else 1 in
  traverse_and_queue opt (SRC_CANON w) 0 EmptyString (dv_opendir seen) (dv_entries seen);;
  finish_jobs;;
  repeat_M (Z.to_nat nth) (worker_main opt);;
  (if prune_empty_dirs opt && negb (dry_run opt)
   then prune_empty (SRC_CANON w) (dv_opendir left) (dv_entries left);; mret tt
   else mret tt);;
  s ← stats <$> get_world;
  log_msg 1 "\nDone. Moved: %lu, Skipped: %lu, Failed: %lu, Bytes copied: %llu"
    [a_int (moved s); a_int (skipped s); a_int (failed s); a_int (bytes_copied s)];;
  mret (if failed s >? 0 then EXIT_FAILURE else EXIT_SUCCESS).

End Program.

(** The status the process ends with, whether [main] returns it or [exit]
    is called. *)
Definition exit_status {A} (o : outcome A) (f : A -> Z) : option Z :=
  match o with
  | Ret a _ => Some (f a)
  | Exit s _ => Some s
  | Stuck _ => None
  end.

Definition final_world {A} (o : outcome A) : world :=
  match o with
  | Ret _ w | Exit _ w | Stuck w => w
  end.

Definition world_init (sc : list sysres) : world :=
  {| g_verbose := 1; errno := 0; script := sc; trace := [];
     q := q_init; stats := stats_init;
     SRC_CANON := EmptyString; DST_CANON := EmptyString |}.

(** * The vocabulary of the specification *)



(** The split of a name into stem and extension, in the words of the
    specification: a name that begins with a dot and has no further dot has
    no extension; otherwise the last dot and everything after it is the
    extension (and a name without any dot has none). *)
Inductive spec_split (name : string) : string -> string -> Prop :=
| split_dotfile rest :
    name = String "." rest -> mem "." rest = false ->
    spec_split name name EmptyString
| split_last_dot stem e :
    name = stem +:+ String "." e -> mem "." e = false -> stem <> EmptyString ->
    spec_split name stem (String "." e)
| split_no_dot :
    mem "." name = false ->
    spec_split name name EmptyString.




(** The queue as a list: the nodes reached from [head], each with the job
    it carries. *)
Inductive chain (heap : gmap loc node_t) : option loc -> list (loc * job_t) -> Prop :=
| chain_nil : chain heap None []
| chain_cons a j nxt rest :
    heap !! a = Some {| nd_job := j; nd_next := nxt |} ->
    chain heap nxt rest ->
    chain heap (Some a) ((a, j) :: rest).

Definition queue_inv (qu : queue_t) (cells : list (loc * job_t)) : Prop :=
  chain (q_heap qu) (q_head qu) cells
  /\ NoDup cells.*1
  /\ q_tail qu = last cells.*1.

(** What [pop_job] does in a state whose list is [cells]. *)
Definition pop_view (done_ : bool) (cells : list (loc * job_t)) : pop_result :=
  match cells with
  | (_, j) :: _ => popped j
  | [] => if done_ then pop_end else pop_wait
  end.

(** The operations the threads perform on the queue, in the order in which
    they take the mutex; a push names the node [malloc] returned. *)
Inductive qop := op_push (n : loc) (j : job_t) | op_pop | op_finish.

Fixpoint run_ops (ops : list qop) (qu : queue_t) : list pop_result * queue_t :=
  match ops with
  | [] => ([], qu)
  | op_push n j :: ops' => run_ops ops' (push_node n j qu)
  | op_pop :: ops' =>
      let '(r, qu') := pop_node qu in
      let '(rs, qu'') := run_ops ops' qu' in
      (r :: rs, qu'')
  | op_finish :: ops' => run_ops ops' (finish_queue qu)
  end.

(** [malloc] never returns a node that is still in the heap. *)
Fixpoint fresh_ops (ops : list qop) (qu : queue_t) : Prop :=
  match ops with
  | [] => True
  | op_push n j :: ops' => q_heap qu !! n = None /\ fresh_ops ops' (push_node n j qu)
  | op_pop :: ops' => fresh_ops ops' (pop_node qu).2
  | op_finish :: ops' => fresh_ops ops' (finish_queue qu)
  end.

Definition pushed_jobs (ops : list qop) : list job_t :=
  omap (fun op => match op with op_push _ j => Some j | _ => None end) ops.

Definition popped_jobs (rs : list pop_result) : list job_t :=
  omap (fun r => match r with popped j => Some j | _ => None end) rs.

Definition finished (ops : list qop) : bool :=
  existsb (fun op => match op with op_finish => true | _ => false end) ops.

Definition is_push (e : event) : bool :=
  match e with ev_push _ => true | _ => false end.

(** ** Runs as sequences of primitive steps

    Every change the program makes to the world is one of the following
    steps; [performs U m] says that whatever [m] does, it does it by steps
    in [U], the last of them [u_exit] when [m] ends the process.  Facts
    about whole runs are then proved once, for the steps. *)
Inductive upd :=
| u_answer (c : syscall) (r : sysres)
| u_observe (c : syscall) (r : sysres)
| u_emit (e : event)
| u_log (level : Z) (fmt : string) (args : list arg)
| u_error (args : list arg)       (* the error line of a job and [add_failed] *)
| u_push (j : job_t)
| u_pop
| u_done
| u_moved
| u_skipped
| u_bytes (b : Z)
| u_verbose (v : Z)
| u_src_canon (p : string)
| u_dst_canon (p : string)
| u_exit (status : Z).

Definition bump (f : stats_t -> stats_t) (w : world) : world := set_stats (f (stats w)) w.

Definition bump_failed (s : stats_t) : stats_t :=
  {| moved := moved s; skipped := skipped s;
     failed := (failed s + 1) mod ULONG_WRAP; bytes_copied := bytes_copied s |}.

Definition apply_upd (u : upd) (w : world) : world :=
  match u with
  | u_answer c r => answer c r (tail (script w)) w
  | u_observe c r => answer c r (script w) w
  | u_emit e => emit e w
  | u_log level fmt args => emit (ev_log level (negb (level >? g_verbose w)) fmt args) w
  | u_error args =>
      bump bump_failed (emit (ev_log 1 (negb (1 >? g_verbose w)) error_fmt args) w)
  | u_push j => emit (ev_push j) (set_q (push_node (malloc (q w)) j (q w)) w)
  | u_pop =>
      match pop_node (q w) with
      | (popped j, q') => emit (ev_pop j) (set_q q' w)
      | _ => w
      end
  | u_done => emit ev_done (set_q (finish_queue (q w)) w)
  | u_moved =>
      bump (fun s => {| moved := (moved s + 1) mod ULONG_WRAP; skipped := skipped s;
                        failed := failed s; bytes_copied := bytes_copied s |}) w
  | u_skipped =>
      bump (fun s => {| moved := moved s; skipped := (skipped s + 1) mod ULONG_WRAP;
                        failed := failed s; bytes_copied := bytes_copied s |}) w
  | u_bytes b =>
      bump (fun s => {| moved := moved s; skipped := skipped s; failed := failed s;
                        bytes_copied := (bytes_copied s + b) mod ULONG_WRAP |}) w
  | u_verbose v => set_verbose v w
  | u_src_canon p => set_src_canon p w
  | u_dst_canon p => set_dst_canon p w
  | u_exit _ => w
  end.

Definition apply_all (us : list upd) (w : world) : world :=
  foldl (fun w u => apply_upd u w) w us.

Definition performs {A} (U : upd -> Prop) (m : M A) : Prop :=
  forall w, exists us,
    final_world (m w) = apply_all us w /\ Forall U us
    /\ (forall s w', m w = Exit s w' -> last us = Some (u_exit s)).

(** The event a step leaves in the trace, if any. *)
Definition upd_event (u : upd) (w : world) : option event :=
  match u with
  | u_answer c r | u_observe c r => Some (ev_sys c r)
  | u_emit e => Some e
  | u_log level fmt args => Some (ev_log level (negb (level >? g_verbose w)) fmt args)
  | u_error args => Some (ev_log 1 (negb (1 >? g_verbose w)) error_fmt args)
  | u_push j => Some (ev_push j)
  | u_pop => match pop_node (q w) with (popped j, _) => Some (ev_pop j) | _ => None end
  | u_done => Some ev_done
  | _ => None
  end.

(** The steps of the parts of the program. *)
Definition U_unique (u : upd) : Prop :=
  Is_true match u with
          | u_answer (sys_access _ F_OK) _ => true
          | u_emit (ev_stderr _ _) => true
          | u_exit s => s =? EXIT_FAILURE
          | _ => false
          end.

Definition U_reloc (u : upd) : Prop :=
  Is_true match u with
          | u_answer _ _ => true
          | u_emit (ev_stdout _ _) => true
          | u_bytes _ => true
          | _ => false
          end.

Definition U_worker (u : upd) : Prop :=
  Is_true match u with
          | u_answer _ _ => true
          | u_emit (ev_stdout _ _) | u_emit (ev_stderr _ _) => true
          | u_log _ fmt _ => negb (String.eqb fmt error_fmt)
          | u_error _ => true
          | u_pop | u_moved | u_skipped | u_bytes _ => true
          | u_exit s => s =? EXIT_FAILURE
          | _ => false
          end.

(** A job under [--dry-run]. *)
Definition U_dry (u : upd) : Prop :=
  Is_true match u with
          | u_answer (sys_access _ F_OK) _ => true
          | u_emit (ev_stderr _ _) => true
          | u_log _ fmt _ => negb (String.eqb fmt error_fmt)
          | u_skipped => true
          | u_exit s => s =? EXIT_FAILURE
          | _ => false
          end.

Definition is_probe (c : syscall) : bool :=
  match c with
  | sys_lstat _ | sys_realpath _ | sys_opendir _ => true
  | _ => false
  end.

(** The traversal of a directory found at depth [d]. *)
Definition U_traverse (o : options_t) (d : Z) (u : upd) : Prop :=
  Is_true match u with
          | u_observe c _ => is_probe c
          | u_emit (ev_stderr _ _) => true
          | u_log _ fmt _ => negb (String.eqb fmt error_fmt)
          | u_push j =>
              (min_depth o <=? depth j) && (d <=? depth j)
              && ((max_depth o <? 0) || (depth j <=? max_depth o))
          | u_exit s => s =? EXIT_FAILURE
          | _ => false
          end.

Definition U_prune (u : upd) : Prop :=
  Is_true match u with
          | u_observe c _ =>
              is_probe c || match c with sys_rmdir _ => true | _ => false end
          | u_emit (ev_stderr _ _) => true
          | u_exit s => s =? EXIT_FAILURE
          | _ => false
          end.

Definition U_setup (u : upd) : Prop :=
  Is_true match u with
          | u_answer (sys_realpath _) _ | u_answer (sys_access _ _) _
          | u_answer (sys_mkdir _ _) _ => true
          | u_emit (ev_stdout _ _) | u_emit (ev_stderr _ _) => true
          | u_log _ fmt _ => negb (String.eqb fmt error_fmt)
          | u_verbose _ | u_src_canon _ | u_dst_canon _ => true
          | u_exit s => (s =? 0) || (s =? 2) || (s =? EXIT_FAILURE)
          | _ => false
          end.

(** [w'] continues the trace of [w] by events in [P]. *)
Definition tr_rel (P : event -> Prop) (w w' : world) : Prop :=
  exists evs, trace w' = trace w ++ evs /\ Forall P evs.


(** Entering a directory, removing one, queueing a file. *)
Definition is_descent (e : event) : bool :=
  match e with
  | ev_sys (sys_opendir _) _ | ev_sys (sys_rmdir _) _ | ev_push _ => true
  | _ => false
  end.

Definition U_skip (u : upd) : Prop :=
  Is_true match u with
          | u_observe (sys_lstat _) _ | u_observe (sys_realpath _) _ => true
          | u_emit (ev_stderr _ _) => true
          | u_exit s => s =? EXIT_FAILURE
          | _ => false
          end.

(** Directory entries for the examples: a readable regular file, and a
    directory with its canonical path and its entries. *)
Definition reg_file (name : string) (size : Z) : dirent :=
  mk_dirent name
    (ok_stat {| st_type := S_IFREG; st_perm := 420; st_size := size;
                st_atime := 0; st_mtime := 0 |})
    (fail 0) (fail 0) [] (fail 0).

Definition sub_dir (name canon : string) (ents : list dirent) : dirent :=
  mk_dirent name
    (ok_stat {| st_type := S_IFDIR; st_perm := 493; st_size := 0;
                st_atime := 0; st_mtime := 0 |})
    (ok_str canon) (ok 0) ents (ok 0).

(** A stand-in for [fnmatch] in the examples: a pattern matches itself. *)
Definition fnmatch_literal (pattern s : string) : Z :=
  if String.eqb pattern s then 0 else 1.

(** The steps of [main] before and after the queue is closed. *)
Definition U_before (u : upd) : Prop := U_setup u \/ exists o d, U_traverse o d u.
Definition U_after (u : upd) : Prop := U_worker u \/ U_prune u.

(** A run in two phases: steps in [U1], then, if the run gets that far,
    the closing of the queue followed by steps in [U2]. *)
Definition two_phase (U1 U2 : upd -> Prop) (us : list upd) : Prop :=
  exists us1 us2,
    us = us1 ++ us2 /\ Forall U1 us1
    /\ (us2 = [] \/ exists us3, us2 = u_done :: us3 /\ Forall U2 us3).

Definition performs2 {A} (U1 U2 : upd -> Prop) (m : M A) : Prop :=
  forall w, exists us,
    final_world (m w) = apply_all us w /\ two_phase U1 U2 us
    /\ (forall s w', m w = Exit s w' -> last us = Some (u_exit s)).

Definition is_done (e : event) : bool :=
  match e with ev_done => true | _ => false end.






(** The source tree of the examples: [b/f1.txt] and [f2.txt] under [/a]. *)
Definition tree_ab : dirview :=
  {| dv_opendir := ok 0;
     dv_entries := [sub_dir "b" "/a/b" [reg_file "f1.txt" 100]; reg_file "f2.txt" 50] |}.

Definition atoi_none (s : string) : Z := 0.
Definition parse_none (s : string) : option Z := None.

(** [mnf a d] and [mnf a d --dry-run]. *)
Definition cmd_plain : cmdline :=
  {| prog := "mnf"; getopt_seq := []; operands := ["a"; "d"] |}.
Definition cmd_dry : cmdline :=
  {| prog := "mnf"; getopt_seq := [(110, EmptyString)]; operands := ["a"; "d"] |}.

Definition ENOENT : Z := 2.

(** The calls that change the file system. *)
Definition is_mutation (e : event) : bool :=
  match e with
  | ev_sys (sys_mkdir _ _) _ | ev_sys (sys_rename _ _) _ | ev_sys (sys_unlink _) _
  | ev_sys (sys_rmdir _) _ | ev_sys (sys_open_creat_trunc _ _) _
  | ev_sys (sys_write _ _) _ | ev_sys (sys_futimens _ _ _) _
  | ev_sys (sys_symlink _ _) _ => true
  | _ => false
  end.

(** ** The copy, as the trace shows it *)

(** The bytes the [write] calls of a trace wrote. *)
Fixpoint written (evs : list event) : list Byte.byte :=
  match evs with
  | ev_sys (sys_write _ buf) r :: evs' => take (Z.to_nat (ret r)) buf ++ written evs'
  | _ :: evs' => written evs'
  | [] => []
  end.

(** The bytes the [read] calls of a trace delivered. *)
Fixpoint delivered (evs : list event) : list Byte.byte :=
  match evs with
  | ev_sys (sys_read _ _) r :: evs' =>
      (if ret r >? 0 then r_bytes r else []) ++ delivered evs'
  | _ :: evs' => delivered evs'
  | [] => []
  end.

(** The result of the last [read] of a trace. *)
Fixpoint last_read (acc : option Z) (evs : list event) : option Z :=
  match evs with
  | ev_sys (sys_read _ _) r :: evs' => last_read (Some (ret r)) evs'
  | _ :: evs' => last_read acc evs'
  | [] => acc
  end.

(** The bytes of the chunks written in full: a chunk of [r] bytes is open
    from the [read] that delivered it until the [write] calls after it
    have written [r] bytes; [cur] is the open chunk with the bytes written
    so far. *)
Fixpoint counted (cur : option (Z * Z)) (evs : list event) : Z :=
  match evs with
  | [] => 0
  | ev_sys (sys_read _ _) r :: evs' =>
      if ret r >? 0 then counted (Some (ret r, 0)) evs' else counted None evs'
  | ev_sys (sys_write _ _) k :: evs' =>
      match cur with
      | Some (r, w) =>
          if ret k <? 0 then counted cur evs'
          else if w + ret k <? r then counted (Some (r, w + ret k)) evs'
          else r + counted None evs'
      | None => counted None evs'
      end
  | _ :: evs' => counted cur evs'
  end.

(** A [read] never delivers more bytes than it says. *)
Definition wf_answer (r : sysres) : Prop :=
  Z.of_nat (length (r_bytes r)) <= Z.max 0 (ret r).

Definition is_removal (e : event) : bool :=
  match e with
  | ev_sys (sys_unlink _) _ | ev_sys (sys_rename _ _) _ | ev_sys (sys_rmdir _) _ => true
  | _ => false
  end.

Definition is_rw (e : event) : bool :=
  match e with
  | ev_sys (sys_read _ _) _ | ev_sys (sys_write _ _) _ => true
  | _ => false
  end.

(** The events of a copy loop that ran to the end of the input: reads of
    [in_] that did not fail, writes to [out] that succeeded or were
    interrupted and retried, and progress reports. *)
Definition stream_ok (in_ out : Z) (e : event) : Prop :=
  match e with
  | ev_sys (sys_read fd _) r => fd = in_ /\ 0 <= ret r
  | ev_sys (sys_write fd _) r => fd = out /\ (ret r < 0 -> err r = EINTR)
  | ev_stdout _ _ => True
  | _ => False
  end.

(** The world after a chunk of [r] bytes has been counted and reported. *)
Definition chunk_done (r size total : Z) (pg : bool) (w : world) : world :=
  let w' := apply_upd (u_bytes r) w in
  if pg && (size >? 0)
  then emit (ev_stdout "  copied %llu/%lld bytes (%.0f%%)\r" [a_int total; a_int size]) w'
  else w'.

(** A copy of [src] to [dst] that ran to its end: both files opened, every
    byte read up to the end of the input written, the times set when asked
    for, the destination flushed and both descriptors closed.  The results
    of [futimens], [fsync] and [close] are not constrained. *)
Definition copied (src dst : string) (pt : bool) (body : list event) : Prop :=
  exists rin rout mode rst loop stamps rsync rc1 rc2,
    body = ev_sys (sys_open_rdonly src) rin
           :: ev_sys (sys_open_creat_trunc dst mode) rout
           :: ev_sys (sys_fstat (ret rin)) rst
           :: loop ++ stamps
              ++ [ev_sys (sys_fsync (ret rout)) rsync;
                  ev_sys (sys_close (ret rin)) rc1;
                  ev_sys (sys_close (ret rout)) rc2]
    /\ 0 <= ret rin /\ 0 <= ret rout
    /\ (if pt
        then exists rf,
            stamps = [ev_sys (sys_futimens (ret rout) (st_atime (r_stat rst))
                                (st_mtime (r_stat rst))) rf]
        else stamps = [])
    /\ Forall (stream_ok (ret rin) (ret rout)) loop
    /\ written loop = delivered loop
    /\ last_read None loop = Some 0.

(** The steps of the copy. *)
Definition U_copy (u : upd) : Prop :=
  Is_true match u with
          | u_answer c _ =>
              match c with
              | sys_open_rdonly _ | sys_open_creat_trunc _ _ | sys_fstat _
              | sys_read _ _ | sys_write _ _ | sys_futimens _ _ _ | sys_fsync _
              | sys_close _ => true
              | _ => false
              end
          | u_emit (ev_stdout _ _) => true
          | u_bytes _ => true
          | _ => false
          end.

Definition ENOSPC : Z := 28.
Definition EIO : Z := 5.

Definition four_bytes : list Byte.byte := [Byte.x61; Byte.x62; Byte.x63; Byte.x64].

Definition plain_file : stat_t :=
  {| st_type := S_IFREG; st_perm := 420; st_size := 4; st_atime := 0; st_mtime := 0 |}.

(** Both files open as descriptors 3 and 4; the first [read] delivers four
    bytes, the first [write] takes two of them and the second fails because
    the disk is full. *)
Definition script_disk_full : list sysres :=
  [ok 3; ok 4; ok_stat plain_file; ok_read four_bytes; ok 2; fail ENOSPC; ok 0; ok 0].

(** Two chunks of four bytes are read and written, then [read] fails. *)
Definition script_second_chunk_fails : list sysres :=
  [ok 3; ok 4; ok_stat plain_file; ok_read four_bytes; ok 4; ok_read four_bytes; ok 4;
   fail EIO; ok 0; ok 0].

(** A failure of the copy: a file could not be opened, a [read] or the
    [fsync] failed, or a [write] failed and was not just interrupted. *)
Definition copy_failure (e : event) : bool :=
  match e with
  | ev_sys (sys_open_rdonly _) r | ev_sys (sys_open_creat_trunc _ _) r
  | ev_sys (sys_read _ _) r | ev_sys (sys_fsync _) r => ret r <? 0
  | ev_sys (sys_write _ _) r => (ret r <? 0) && negb (err r =? EINTR)
  | _ => false
  end.

(** [rename] fails across devices; the four bytes of the source are copied
    and the source is removed. *)
Definition script_cross_device : list sysres :=
  [fail EXDEV; ok_stat plain_file;
   ok 3; ok 4; ok_stat plain_file; ok_read four_bytes; ok 4; ok 0; ok 0; ok 0; ok 0;
   ok 0].

(** As [script_cross_device], but the [fsync] of the destination fails. *)
Definition script_flush_fails : list sysres :=
  [fail EXDEV; ok_stat plain_file;
   ok 3; ok 4; ok_stat plain_file; ok_read four_bytes; ok 4; ok 0; fail EIO; ok 0; ok 0;
   ok 0].

(** What [copy_file_rw] does once the loop has ended with the result [r] of
    the last [read]. *)
Definition copy_finish (in_ out : Z) (st : stat_t) (pt pg : bool) (r : Z) : M Z :=
  when pg (modify (emit (ev_stdout "\n" [])));;
  if r <? 0 then close in_;; close out;; mret (-1)
  else
    when pt (syscall_ (sys_futimens out (st_atime st) (st_mtime st));; mret tt);;
    syscall_ (sys_fsync out);;
    close in_;; close out;;
    mret 0.

(** The steps of a dry run once the two roots are set up: the directory
    is walked, targets are probed with [access], jobs go through the
    queue and are counted as skipped. *)
Definition U_dryrun (u : upd) : Prop :=
  Is_true match u with
          | u_answer (sys_access _ F_OK) _ => true
          | u_observe c _ => is_probe c
          | u_emit (ev_stderr _ _) => true
          | u_log _ fmt _ => negb (String.eqb fmt error_fmt)
          | u_push _ | u_pop | u_done | u_skipped => true
          | u_exit s => s =? EXIT_FAILURE
          | _ => false
          end.

(** The steps of the pruner started on [dir]: it looks at [dir] and at
    what lies below it, and the one change it makes is [rmdir] of a
    directory below [dir]. *)
Definition U_prune_in (dir : string) (u : upd) : Prop :=
  Is_true match u with
          | u_observe (sys_opendir p) _ => starts_with dir p
          | u_observe (sys_lstat p) _ | u_observe (sys_realpath p) _
          | u_observe (sys_rmdir p) _ => starts_with (dir +:+ "/") p
          | u_emit (ev_stderr _ _) => true
          | u_exit s => s =? EXIT_FAILURE
          | _ => false
          end.

(** What the pruner started on [dir] leaves in the trace. *)
Definition prune_event (dir : string) (e : event) : Prop :=
  match e with
  | ev_sys (sys_rmdir p) _ => exists rest, p = dir +:+ "/" +:+ rest
  | ev_sys (sys_opendir _) _ | ev_sys (sys_lstat _) _ | ev_sys (sys_realpath _) _ => True
  | ev_stderr _ _ => True
  | _ => False
  end.






(** The steps of a copy of [src] to [dst] with the permission bits of
    [mode]: the two files are opened, the rest goes through descriptors. *)
Definition U_copy_paths (src dst : string) (mode : Z) (u : upd) : Prop :=
  match u with
  | u_answer (sys_open_rdonly p) _ => p = src
  | u_answer (sys_open_creat_trunc p m) _ => p = dst /\ m = Z.land mode 511
  | u_answer (sys_fstat _) _ | u_answer (sys_read _ _) _ | u_answer (sys_write _ _) _
  | u_answer (sys_futimens _ _ _) _ | u_answer (sys_fsync _) _
  | u_answer (sys_close _) _ => True
  | u_emit (ev_stdout _ _) => True
  | u_bytes _ => True
  | _ => False
  end.

(** What a copy of [src] to [dst] leaves in the trace. *)
Definition copy_event (src dst : string) (mode : Z) (e : event) : Prop :=
  match e with
  | ev_sys (sys_open_rdonly p) _ => p = src
  | ev_sys (sys_open_creat_trunc p m) _ => p = dst /\ m = Z.land mode 511
  | ev_sys (sys_fstat _) _ | ev_sys (sys_read _ _) _ | ev_sys (sys_write _ _) _
  | ev_sys (sys_futimens _ _ _) _ | ev_sys (sys_fsync _) _ | ev_sys (sys_close _) _ => True
  | ev_stdout _ _ => True
  | _ => False
  end.


Definition is_pop (e : event) : bool :=
  match e with ev_pop _ => true | _ => false end.

Definition n_pop (tr : list event) : Z :=
  Z.of_nat (length (filter (fun e => is_pop e = true) tr)).
Definition tally (w : world) : Z :=
  moved (stats w) + skipped (stats w) + failed (stats w).


(** Nothing is counted and nothing is taken off the queue. *)
Definition idle (w w' : world) : Prop :=
  stats w' = stats w /\ n_pop (trace w') = n_pop (trace w).



(** The steps of a worker, with the system calls it makes spelled out: it
    never creates or removes a directory and never walks one. *)
Definition U_calls (u : upd) : Prop :=
  Is_true match u with
          | u_answer c _ =>
              match c with
              | sys_mkdir _ _ | sys_rmdir _ | sys_realpath _ | sys_lstat _
              | sys_opendir _ => false
              | _ => true
              end
          | u_emit (ev_stdout _ _) | u_emit (ev_stderr _ _) => true
          | u_log _ fmt _ => negb (String.eqb fmt error_fmt)
          | u_error _ => true
          | u_pop | u_moved | u_skipped | u_bytes _ => true
          | u_exit s => s =? EXIT_FAILURE
          | _ => false
          end.

Definition is_rmdir (e : event) : bool :=
  match e with ev_sys (sys_rmdir _) _ => true | _ => false end.

(** * Properties *)

(** ** Strings *)

Section StringFacts.

Lemma app_cons a s t : String a s +:+ t = String a (s +:+ t).
Proof. reflexivity. Qed.

Lemma app_nil_l_str t : EmptyString +:+ t = t.
Proof. reflexivity. Qed.

Lemma strlen_nonneg s : 0 <= strlen s.
Proof. unfold strlen. lia. Qed.

Lemma strlen_cons a s : strlen (String a s) = strlen s + 1.
Proof. unfold strlen. cbn [String.length]. lia. Qed.

Lemma strlen_app s t : strlen (s +:+ t) = strlen s + strlen t.
Proof.
  induction s as [|a s IH]; [reflexivity|].
  rewrite app_cons, !strlen_cons, IH. lia.
Qed.

Lemma app_nil_r_str s : s +:+ EmptyString = s.
Proof. induction s as [|a s IH]; [reflexivity|]. by rewrite app_cons, IH. Qed.

Lemma app_assoc_str s t u : (s +:+ t) +:+ u = s +:+ t +:+ u.
Proof.
  induction s as [|a s IH]; [reflexivity|]. by rewrite !app_cons, IH.
Qed.

Lemma str_take_drop n s : str_take n s +:+ str_drop n s = s.
Proof.
  revert s. induction n as [|n IH]; intros [|a s]; try reflexivity.
  cbn [str_take str_drop]. rewrite app_cons. f_equal. apply IH.
Qed.

Lemma str_take_all n s : (String.length s <= n)%nat -> str_take n s = s.
Proof.
  revert s. induction n as [|n IH]; intros [|a s] H; cbn in *; try reflexivity; try lia.
  f_equal. apply IH. lia.
Qed.

Lemma str_take_app s t : str_take (String.length s) (s +:+ t) = s.
Proof.
  induction s as [|a s IH]; [by destruct t|].
  rewrite app_cons. cbn. f_equal. apply IH.
Qed.

Lemma str_drop_app s t : str_drop (String.length s) (s +:+ t) = t.
Proof.
  induction s as [|a s IH]; [by destruct t|]. rewrite app_cons. cbn. apply IH.
Qed.

Lemma snprintf_s_fits sz s : strlen s < sz -> snprintf_s sz s = s.
Proof. unfold snprintf_s, strlen. intros H. apply str_take_all. lia. Qed.

Lemma mem_app c s t : mem c (s +:+ t) = mem c s || mem c t.
Proof.
  induction s as [|a s IH]; [reflexivity|].
  rewrite app_cons. cbn. rewrite IH. by rewrite orb_assoc.
Qed.

(** [strrchr] finds nothing exactly when the character does not occur. *)
Lemma strrchr_None s c : strrchr s c = None <-> mem c s = false.
Proof.
  induction s as [|a s IH]; cbn; [done|].
  destruct (strrchr s c) as [i|].
  - split; [done|]. intros H. apply orb_false_elim in H as [_ H].
    apply IH in H. done.
  - destruct IH as [IH _]. rewrite (IH eq_refl), orb_false_r.
    destruct (Ascii.eqb a c); done.
Qed.

(** The last occurrence of [c] splits the string around it. *)
Lemma strrchr_app s t c :
  mem c t = false -> strrchr (s +:+ String c t) c = Some (String.length s).
Proof.
  intros Ht. induction s as [|a s IH].
  - rewrite app_nil_l_str. cbn. apply strrchr_None in Ht. rewrite Ht.
    by rewrite Ascii.eqb_refl.
  - rewrite app_cons. cbn. by rewrite IH.
Qed.

Lemma strrchr_Some s c i :
  strrchr s c = Some i ->
  s = str_take i s +:+ String c (str_drop (S i) s) /\ mem c (str_drop (S i) s) = false
  /\ String.length (str_take i s) = i.
Proof.
  revert i. induction s as [|a s IH]; intros i; cbn [strrchr]; [done|].
  destruct (strrchr s c) as [k|] eqn:E.
  - intros [= <-]. destruct (IH k eq_refl) as (H1 & H2 & H3).
    cbn [str_take str_drop String.length]. rewrite app_cons.
    split_and!; [by f_equal | done | by rewrite H3].
  - destruct (Ascii.eqb_spec a c) as [->|]; [|done].
    intros [= <-]. apply strrchr_None in E.
    cbn [str_take String.length]. rewrite app_nil_l_str.
    split_and!; [by destruct s | by destruct s | done].
Qed.

Lemma starts_with_spec p s : starts_with p s = true <-> exists r, s = p +:+ r.
Proof.
  revert s. induction p as [|a p IH]; intros s; cbn [starts_with].
  - split; [eauto|done].
  - destruct s as [|b s]; [split; [done | by intros [r Hr]]|].
    rewrite andb_true_iff, IH. split.
    + intros [->%Ascii.eqb_eq [r ->]]. by exists r.
    + intros [r Hr]. rewrite app_cons in Hr. injection Hr as -> ->.
      split; [apply Ascii.eqb_refl | eauto].
Qed.

Lemma get_app_length p r : String.get (String.length p) (p +:+ r) = String.get 0 r.
Proof. induction p as [|a p IH]; [by destruct r|]. apply IH. Qed.

Lemma digits_length fuel n acc :
  strlen (digits fuel n acc) <= Z.of_nat fuel + strlen acc.
Proof.
  revert n acc. induction fuel as [|f IH]; intros n acc; cbn [digits]; [lia|].
  destruct (n / 10 =? 0).
  - rewrite strlen_cons. lia.
  - specialize (IH (n / 10) (String (digit (n mod 10)) acc)).
    rewrite strlen_cons in IH. lia.
Qed.

Lemma decimal_length n : strlen (decimal n) <= 11.
Proof.
  unfold decimal. destruct (n <? 0).
  - rewrite strlen_cons. pose proof (digits_length 10 (- n) EmptyString) as H.
    change (strlen EmptyString) with 0 in H. lia.
  - pose proof (digits_length 10 n EmptyString) as H.
    change (strlen EmptyString) with 0 in H. lia.
Qed.


End StringFacts.

(** ** Filters *)

Section FilterFacts.








Variable fnmatch : string -> string -> Z.




End FilterFacts.





(** ** The monad *)

Lemma bind_Ret {A B} (m : M A) (f : A -> M B) w a w' :
  m w = Ret a w' -> (m ≫= f) w = f a w'.
Proof. unfold mbind, M_bind. by intros ->. Qed.

Lemma syscall_cons c r rest w :
  script w = r :: rest -> syscall_ c w = Ret r (answer c r rest w).
Proof. unfold syscall_. by intros ->. Qed.

(** ** Unique naming *)

Lemma split_name_spec name stem ext :
  spec_split name stem ext -> strlen name < PATH_MAX ->
  split_name name PATH_MAX PATH_MAX = (stem, ext).
Proof.
  intros Hs Hlen. unfold split_name.
  destruct Hs as [rest -> Hrest | stem e -> He Hstem | Hno].
  - cbn [starts_with strrchr]. apply strrchr_None in Hrest. rewrite Hrest.
    cbn. by rewrite snprintf_s_fits.
  - rewrite (strrchr_app stem e "." He).
    destruct stem as [|a stem]; [done|].
    cbn [String.length is_null orb]. rewrite bool_decide_eq_false_2 by done.
    rewrite andb_false_r.
    change (S (String.length stem)) with (String.length (String a stem)).
    rewrite str_take_app, str_drop_app.
    rewrite strlen_app in Hlen. pose proof (strlen_nonneg (String a stem)).
    pose proof (strlen_nonneg (String "." e)).
    rewrite !snprintf_s_fits by lia. done.
  - pose proof Hno as Hno'. apply strrchr_None in Hno'. rewrite Hno'.
    destruct name as [|a name]; [done|].
    cbn [starts_with]. cbn [mem] in Hno. apply orb_false_elim in Hno as [Ha _].
    rewrite Ascii.eqb_sym, Ha. cbn [andb]. by rewrite snprintf_s_fits.
Qed.

(** Every name has a split. *)
Lemma spec_split_total name : exists stem ext, spec_split name stem ext.
Proof.
  destruct (strrchr name ".") as [i|] eqn:E.
  - destruct (strrchr_Some _ _ _ E) as (H1 & H2 & H3).
    destruct i as [|i].
    + exists name, EmptyString. cbn [str_take] in H1. rewrite app_nil_l_str in H1.
      eapply split_dotfile; [exact H1|done].
    + exists (str_take (S i) name), (String "." (str_drop (S (S i)) name)).
      apply split_last_dot; [done|done|].
      intros Hz. rewrite Hz in H3. done.
  - exists name, EmptyString. apply split_no_dot. by apply strrchr_None.
Qed.





Section UniquePath.

Variables (outsz : Z) (dest name stem ext : string).
Hypothesis Hsplit : spec_split name stem ext.
Hypothesis Hroom : strlen dest + strlen name + 13 <= outsz.



End UniquePath.

Lemma path_join_fits dstsz a b w :
  strlen a + 1 + strlen b + 1 <= dstsz ->
  path_join dstsz a b w = Ret (a +:+ "/" +:+ b) w.
Proof.
  intros H. unfold path_join. cbv zeta.
  destruct (Z.gtb_spec (strlen a + 1 + strlen b + 1) dstsz); [lia|done].
Qed.



(** ** Job queue *)

Section QueueFacts.

Implicit Types (qu : queue_t) (cells : list (loc * job_t)).

Lemma queue_inv_init : queue_inv q_init [].
Proof. split_and!; [constructor | constructor | done]. Qed.

Lemma chain_dom heap p cells :
  chain heap p cells -> forall a, a ∈ cells.*1 -> is_Some (heap !! a).
Proof.
  induction 1 as [|a j nxt rest Ha _ IH]; intros b Hb; cbn in Hb.
  - by apply elem_of_nil in Hb.
  - apply elem_of_cons in Hb as [->|Hb]; [eauto | by apply IH].
Qed.

(** Writing outside the chain does not disturb it. *)
Lemma chain_insert_fresh heap p cells n nd :
  chain heap p cells -> n ∉ cells.*1 -> chain (<[n:=nd]> heap) p cells.
Proof.
  induction 1 as [|a j nxt rest Ha _ IH]; intros Hn; [constructor|].
  cbn in Hn. apply not_elem_of_cons in Hn as [Hna Hn].
  econstructor; [by rewrite lookup_insert_ne | by apply IH].
Qed.

Lemma chain_delete_fresh heap p cells n :
  chain heap p cells -> n ∉ cells.*1 -> chain (delete n heap) p cells.
Proof.
  induction 1 as [|a j nxt rest Ha _ IH]; intros Hn; [constructor|].
  cbn in Hn. apply not_elem_of_cons in Hn as [Hna Hn].
  econstructor; [by rewrite lookup_delete_ne | by apply IH].
Qed.

(** Linking a new last node behind the old one. *)
Lemma chain_snoc heap p cells t n j :
  chain heap p cells -> NoDup cells.*1 -> last cells.*1 = Some t ->
  heap !! n = Some {| nd_job := j; nd_next := None |} -> n ∉ cells.*1 ->
  chain (alter (set_next (Some n)) t heap) p (cells ++ [(n, j)]).
Proof.
  induction 1 as [|a ja nxt rest Ha Hrest IH]; intros Hnd Hlast Hn Hfresh; [done|].
  cbn in Hnd, Hfresh, Hlast. apply NoDup_cons in Hnd as [Ha_rest Hnd].
  apply not_elem_of_cons in Hfresh as [Hna Hfresh].
  destruct rest as [|[b jb] rest].
  - inversion Hrest; subst. cbn in Hlast. injection Hlast as <-.
    cbn [app]. econstructor.
    + rewrite lookup_alter_eq, Ha. reflexivity.
    + econstructor; [|constructor]. by rewrite lookup_alter_ne.
  - cbn [app]. assert (t <> a) as Hta.
    { intros ->. apply Ha_rest. cbn in Hlast |- *.
      apply last_Some_elem_of in Hlast. done. }
    econstructor.
    + rewrite lookup_alter_ne by done. exact Ha.
    + apply IH; done.
Qed.

Lemma push_node_inv qu cells n j :
  queue_inv qu cells -> q_heap qu !! n = None ->
  queue_inv (push_node n j qu) (cells ++ [(n, j)]).
Proof.
  intros (Hc & Hnd & Ht) Hn.
  assert (n ∉ cells.*1) as Hfresh.
  { intros Hin. destruct (chain_dom _ _ _ Hc n Hin) as [? ?]. congruence. }
  unfold push_node, queue_inv. rewrite fmap_app.
  change ([(n, j)].*1) with [n]. rewrite last_snoc.
  destruct (q_tail qu) as [t|] eqn:Etail; cbn [q_heap q_head q_tail].
  - split_and!; [| |done].
    + eapply chain_snoc; [by apply chain_insert_fresh | done | by rewrite <- Ht | |done].
      by rewrite lookup_insert_eq.
    + apply NoDup_app. split_and!; [done| |apply NoDup_singleton].
      intros x Hx ->%list_elem_of_singleton. done.
  - destruct cells as [|c cells].
    + inversion Hc as [Hh|]; subst. cbn [app fmap list_fmap]. split_and!; [| |done].
      * econstructor; [by rewrite lookup_insert_eq | constructor].
      * apply NoDup_singleton.
    + exfalso. symmetry in Ht. apply last_None in Ht. done.
Qed.

Lemma pop_node_inv qu a j cells :
  queue_inv qu ((a, j) :: cells) ->
  exists qu', pop_node qu = (popped j, qu') /\ queue_inv qu' cells
              /\ q_done qu' = q_done qu.
Proof.
  intros (Hc & Hnd & Ht). inversion Hc as [|? ? nxt ? Ha Hrest Hh]; subst.
  unfold pop_node. rewrite <- Hh, Ha. cbn [nd_job nd_next].
  eexists. split; [reflexivity|]. cbn in Hnd. apply NoDup_cons in Hnd as [Ha_rest Hnd].
  split; [|done]. unfold queue_inv. cbn [q_heap q_head q_tail].
  split_and!; [by apply chain_delete_fresh | done |].
  destruct cells as [|[b jb] cells].
  - inversion Hrest; subst. done.
  - inversion Hrest; subst. cbn [is_null]. rewrite Ht. done.
Qed.

Lemma pop_node_empty qu :
  queue_inv qu [] ->
  pop_node qu = (if q_done qu then pop_end else pop_wait, qu).
Proof.
  intros (Hc & _ & _). inversion Hc as [Hh|]. unfold pop_node. rewrite <- Hh.
  by destruct (q_done qu).
Qed.

Lemma finish_queue_inv qu cells : queue_inv qu cells -> queue_inv (finish_queue qu) cells.
Proof. done. Qed.

Lemma pop_node_view qu cells :
  queue_inv qu cells -> (pop_node qu).1 = pop_view (q_done qu) cells.
Proof.
  intros Hinv. destruct cells as [|[a j] cells].
  - by rewrite pop_node_empty.
  - destruct (pop_node_inv _ _ _ _ Hinv) as (qu' & -> & _). done.
Qed.

Lemma run_ops_spec ops :
  forall qu cells,
    queue_inv qu cells -> fresh_ops ops qu ->
    exists cells',
      queue_inv (run_ops ops qu).2 cells'
      /\ cells.*2 ++ pushed_jobs ops = popped_jobs (run_ops ops qu).1 ++ cells'.*2
      /\ (pop_dangling ∉ fst (run_ops ops qu))
      /\ q_done (run_ops ops qu).2 = (q_done qu || finished ops).
Proof.
  induction ops as [|[n j| |] ops IH]; intros qu cells Hinv Hfresh; cbn [run_ops].
  - exists cells. split_and!; [done | by rewrite app_nil_r | apply not_elem_of_nil |].
    cbn. by rewrite orb_false_r.
  - destruct Hfresh as [Hn Hfresh].
    destruct (IH _ _ (push_node_inv _ _ _ j Hinv Hn) Hfresh) as (cells' & H1 & H2 & H3 & H4).
    exists cells'. split_and!; [done| |done|].
    + rewrite <- H2, fmap_app. cbn. by rewrite <- app_assoc.
    + rewrite H4. unfold push_node. by destruct (q_tail qu).
  - cbn [fresh_ops] in Hfresh. destruct cells as [|[a j] cells].
    + rewrite (pop_node_empty _ Hinv) in Hfresh |- *. cbn [snd] in Hfresh.
      destruct (IH _ _ Hinv Hfresh) as (cells' & H1 & H2 & H3 & H4).
      destruct (run_ops ops qu) as [rs qu'] eqn:E. cbn [fst snd] in *.
      exists cells'. split_and!; [done| | |done].
      * destruct (q_done qu); cbn in *; exact H2.
      * apply not_elem_of_cons. split; [by destruct (q_done qu)|done].
    + destruct (pop_node_inv _ _ _ _ Hinv) as (qu1 & E1 & Hinv1 & Hd1).
      rewrite E1 in Hfresh |- *. cbn [snd] in Hfresh.
      destruct (IH _ _ Hinv1 Hfresh) as (cells' & H1 & H2 & H3 & H4).
      destruct (run_ops ops qu1) as [rs qu'] eqn:E. cbn [fst snd] in *.
      exists cells'. split_and!; [done| | |].
      * cbn. f_equal. exact H2.
      * apply not_elem_of_cons. split; [done|done].
      * by rewrite H4, Hd1.
  - cbn [fresh_ops] in Hfresh.
    destruct (IH _ _ (finish_queue_inv _ _ Hinv) Hfresh) as (cells' & H1 & H2 & H3 & H4).
    exists cells'. split_and!; [done|done|done|].
    rewrite H4. cbn. by rewrite orb_true_r.
Qed.

End QueueFacts.

Lemma dirent_ind' (P : dirent -> Prop) :
  (forall name lst rp od ents rm,
      Forall P ents -> P (mk_dirent name lst rp od ents rm)) ->
  forall e, P e.
Proof.
  intros H. fix IH 1. intros [name lst rp od ents rm]. apply H.
  induction ents as [|e ents IHe]; constructor; [apply IH | exact IHe].
Qed.

(** ** Steps *)

Lemma apply_all_app us1 us2 w :
  apply_all (us1 ++ us2) w = apply_all us2 (apply_all us1 w).
Proof. apply foldl_app. Qed.

(** A primitive that returns or blocks, by the steps [us]. *)
Ltac prim us :=
  let w := fresh "w" in
  intros w; exists us;
  split_and!; [ reflexivity || (cbn; try reflexivity)
              | repeat first [assumption | constructor]
              | cbn; intros; discriminate ].

Section Performs.

Context {A B : Type}.
Implicit Types (U : upd -> Prop).

Lemma performs_ret U (a : A) : performs U (mret a).
Proof. prim (@nil upd). Qed.

Lemma performs_stuck U : performs U (stuck : M A).
Proof. prim (@nil upd). Qed.

Lemma performs_exit U s : U (u_exit s) -> performs U (exit s : M A).
Proof.
  intros H w. exists [u_exit s]. split_and!; [done|by constructor|].
  by intros s' w' [= -> _].
Qed.

Lemma performs_bind U (m : M A) (f : A -> M B) :
  performs U m -> (forall a, performs U (f a)) -> performs U (m ≫= f).
Proof.
  intros Hm Hf w. destruct (Hm w) as (us1 & E1 & H1 & X1).
  unfold mbind, M_bind. destruct (m w) as [a w1|s w1|w1]; cbn [final_world] in *.
  - destruct (Hf a w1) as (us2 & E2 & H2 & X2). exists (us1 ++ us2).
    rewrite apply_all_app, <- E1, E2. split_and!; [done|by apply Forall_app|].
    intros s w' Hx. specialize (X2 s w' Hx). rewrite last_app, X2. done.
  - exists us1. split_and!; [done|done|]. intros s' w' Hx. injection Hx as <- <-.
    by apply (X1 s w1).
  - exists us1. split_and!; [done|done|done].
Qed.

Lemma performs_fmap U (g : A -> B) (m : M A) :
  performs U m -> performs U (g <$> m).
Proof.
  intros Hm w. destruct (Hm w) as (us & E & H & X). exists us.
  unfold fmap, M_fmap. destruct (m w) as [a w1|s w1|w1]; cbn [final_world] in *;
    split_and!; try done.
  intros s' w' Hx. injection Hx as <- <-. by apply (X s w1).
Qed.

Lemma performs_weaken U V (m : M A) :
  (forall u, U u -> V u) -> performs U m -> performs V m.
Proof.
  intros HUV Hm w. destruct (Hm w) as (us & E & H & X). exists us.
  split_and!; [done| |done]. eapply Forall_impl; eauto.
Qed.

End Performs.

Lemma performs_syscall U c :
  (forall r, U (u_answer c r)) -> performs U (syscall_ c).
Proof.
  intros H w. unfold syscall_. destruct (script w) as [|r rest] eqn:E.
  - exists []. by split_and!.
  - exists [u_answer c r]. cbn. rewrite E. split_and!; [done|by constructor|done].
Qed.

Lemma performs_observe U c r : U (u_observe c r) -> performs U (observe c r).
Proof. intros H. prim [u_observe c r]. Qed.

Lemma performs_emit U e : U (u_emit e) -> performs U (modify (emit e)).
Proof. intros H. prim [u_emit e]. Qed.

Lemma performs_log U level fmt args :
  U (u_log level fmt args) -> performs U (log_msg level fmt args).
Proof. intros H. prim [u_log level fmt args]. Qed.

Lemma performs_die {A} U fmt args :
  U (u_emit (ev_stderr fmt args)) -> U (u_exit EXIT_FAILURE) ->
  performs U (die fmt args : M A).
Proof.
  intros H1 H2 w. exists [u_emit (ev_stderr fmt args); u_exit EXIT_FAILURE].
  split_and!; [done|by repeat constructor|]. by intros s w' [= <- _].
Qed.

Lemma performs_push_job U j : U (u_push j) -> performs U (push_job j).
Proof. intros H. prim [u_push j]. Qed.

Lemma performs_finish_jobs U : U u_done -> performs U finish_jobs.
Proof. intros H. prim [u_done]. Qed.

Lemma performs_pop_job U : U u_pop -> performs U pop_job.
Proof.
  intros H w. unfold pop_job. unfold mbind, M_bind, get_world.
  destruct (pop_node (q w)) as [[j| | |] q'] eqn:E; cbn.
  - exists [u_pop]. cbn. rewrite E. split_and!; [done|by constructor|done].
  - exists []. by split_and!.
  - exists []. by split_and!.
  - exists []. by split_and!.
Qed.

Lemma performs_add_moved U : U u_moved -> performs U add_moved.
Proof. intros H. prim [u_moved]. Qed.
Lemma performs_add_skipped U : U u_skipped -> performs U add_skipped.
Proof. intros H. prim [u_skipped]. Qed.
Lemma performs_add_bytes U b : U (u_bytes b) -> performs U (add_bytes b).
Proof. intros H. prim [u_bytes b]. Qed.
Lemma performs_set_verbose U v : U (u_verbose v) -> performs U (modify (set_verbose v)).
Proof. intros H. prim [u_verbose v]. Qed.
Lemma performs_set_src_canon U p : U (u_src_canon p) -> performs U (modify (set_src_canon p)).
Proof. intros H. prim [u_src_canon p]. Qed.
Lemma performs_set_dst_canon U p : U (u_dst_canon p) -> performs U (modify (set_dst_canon p)).
Proof. intros H. prim [u_dst_canon p]. Qed.

Lemma performs_get_world U : performs U get_world.
Proof. prim (@nil upd). Qed.
Lemma performs_get_errno U : performs U get_errno.
Proof. prim (@nil upd). Qed.

(** The error line of a failed job and the count of the failure are one
    step. *)
Lemma performs_error U args :
  U (u_error args) -> performs U (log_msg 1 error_fmt args;; add_failed).
Proof. intros H. prim [u_error args]. Qed.

Lemma performs_script_fuel {A} U (f : nat -> M A) :
  (forall n, performs U (f n)) -> performs U (script_fuel f).
Proof. intros H w. apply H. Qed.

(** A fact that every step in [U] preserves holds between the two ends of
    a run by steps in [U]. *)
Lemma apply_all_rel U (R : world -> world -> Prop) `{!PreOrder R} us :
  Forall U us ->
  (forall u w, U u -> R w (apply_upd u w)) ->
  forall w, R w (apply_all us w).
Proof.
  intros Hus HR. induction Hus as [|u us Hu _ IH]; intros w; cbn; [reflexivity|].
  etrans; [by apply HR | apply IH].
Qed.

Lemma performs_rel {A} U (R : world -> world -> Prop) `{!PreOrder R} (m : M A) :
  performs U m ->
  (forall u w, U u -> R w (apply_upd u w)) ->
  forall w, R w (final_world (m w)).
Proof.
  intros Hm HR w. destruct (Hm w) as (us & -> & Hus & _).
  by eapply apply_all_rel.
Qed.

Lemma performs_exit_status {A} U (m : M A) w s w' :
  performs U m -> m w = Exit s w' -> U (u_exit s).
Proof.
  intros Hm Hx. destruct (Hm w) as (us & _ & Hus & X).
  specialize (X s w' Hx). apply last_Some_elem_of in X.
  by eapply Forall_forall in Hus.
Qed.

Global Instance tr_rel_preorder P : PreOrder (tr_rel P).
Proof.
  split.
  - intros w. exists []. by rewrite app_nil_r.
  - intros w1 w2 w3 (e1 & E1 & H1) (e2 & E2 & H2). exists (e1 ++ e2).
    rewrite E2, E1, app_assoc. split; [done|]. by apply Forall_app.
Qed.

Lemma apply_upd_trace u w :
  trace (apply_upd u w) = trace w ++ option_list (upd_event u w).
Proof.
  destruct u; cbn; try done; try by rewrite app_nil_r.
  destruct (pop_node (q w)) as [[] ?]; cbn; by rewrite ?app_nil_r.
Qed.

Lemma tr_rel_upd U (P : event -> Prop) :
  (forall u w e, U u -> upd_event u w = Some e -> P e) ->
  forall u w, U u -> tr_rel P w (apply_upd u w).
Proof.
  intros H u w Hu. exists (option_list (upd_event u w)).
  split; [apply apply_upd_trace|].
  destruct (upd_event u w) as [e|] eqn:E; cbn; [|constructor].
  repeat constructor. by eapply H.
Qed.

Lemma performs_trace {A} U (P : event -> Prop) (m : M A) :
  performs U m ->
  (forall u w e, U u -> upd_event u w = Some e -> P e) ->
  forall w, tr_rel P w (final_world (m w)).
Proof.
  intros Hm H. apply (performs_rel U (tr_rel P) m Hm). by apply tr_rel_upd.
Qed.

Lemma performs_keeps {A B} U (f : world -> B) (m : M A) :
  performs U m ->
  (forall u w, U u -> f (apply_upd u w) = f w) ->
  forall w, f (final_world (m w)) = f w.
Proof.
  intros Hm H w.
  assert (PreOrder (fun w w' : world => f w' = f w)) as HR.
  { split; [done|]. intros ??? E1 E2. by rewrite E2. }
  by apply (performs_rel U (fun w w' => f w' = f w) m Hm).
Qed.

(** Decomposing a run by steps: binds, branches and the primitives. *)
Ltac performs_step :=
  lazymatch goal with
  | |- performs _ (mbind (fun _ => add_failed) (log_msg 1 error_fmt _)) =>
      apply performs_error
  | |- performs _ (mbind _ _) => apply performs_bind; [|intros]
  | |- performs _ (mret _) => apply performs_ret
  | |- performs _ (fmap _ _) => apply performs_fmap
  | |- performs _ (exit _) => apply performs_exit
  | |- performs _ stuck => apply performs_stuck
  | |- performs _ get_world => apply performs_get_world
  | |- performs _ get_errno => apply performs_get_errno
  | |- performs _ (syscall_ _) => apply performs_syscall; intros
  | |- performs _ (observe _ _) => apply performs_observe
  | |- performs _ (die _ _) => apply performs_die
  | |- performs _ (log_msg _ _ _) => apply performs_log
  | |- performs _ (vlog_msg _ _ _) => apply performs_log
  | |- performs _ (modify (emit _)) => apply performs_emit
  | |- performs _ (modify (set_verbose _)) => apply performs_set_verbose
  | |- performs _ (modify (set_src_canon _)) => apply performs_set_src_canon
  | |- performs _ (modify (set_dst_canon _)) => apply performs_set_dst_canon
  | |- performs _ (push_job _) => apply performs_push_job
  | |- performs _ pop_job => apply performs_pop_job
  | |- performs _ finish_jobs => apply performs_finish_jobs
  | |- performs _ add_moved => apply performs_add_moved
  | |- performs _ add_skipped => apply performs_add_skipped
  | |- performs _ (add_bytes _) => apply performs_add_bytes
  | |- performs _ (script_fuel _) => apply performs_script_fuel; intros
  | |- performs _ (close _) => unfold close
  | |- performs _ (when _ _) => unfold when
  | |- performs _ (path_join _ _ _) => unfold path_join; cbv zeta
  | |- performs _ (str_copy_checked _ _) => unfold str_copy_checked; cbv zeta
  | |- performs _ (if ?b then _ else _) => destruct b eqn:?
  | |- performs _ (match ?x with _ => _ end) => destruct x eqn:?
  | |- performs _ (let '(_, _) := ?x in _) => destruct x
  end.

Ltac performs_go := repeat performs_step.

Lemma performs_unique_path_loop fuel outsz dest base ext n out :
  performs U_unique (unique_path_loop fuel outsz dest base ext n out).
Proof.
  revert n out. induction fuel as [|fuel IH]; intros n out; cbn [unique_path_loop].
  - apply performs_stuck.
  - cbv zeta. performs_go; try done; apply IH.
Qed.

Lemma performs_unique_path outsz dest name :
  performs U_unique (unique_path outsz dest name).
Proof.
  unfold unique_path. performs_go; try done.
  apply performs_unique_path_loop.
Qed.

Lemma performs_write_loop fuel in_ out buf r w :
  performs U_reloc (write_loop fuel in_ out buf r w).
Proof.
  revert w. induction fuel as [|fuel IH]; intros w; cbn [write_loop].
  - apply performs_stuck.
  - performs_go; try done; apply IH.
Qed.

Lemma performs_read_loop fuel in_ out size pg total :
  performs U_reloc (read_loop fuel in_ out size pg total).
Proof.
  revert total. induction fuel as [|fuel IH]; intros total; cbn [read_loop].
  - apply performs_stuck.
  - cbv zeta. performs_go; try done; try apply IH. apply performs_write_loop.
Qed.

Lemma performs_copy_file_rw src dst mode pt pg :
  performs U_reloc (copy_file_rw src dst mode pt pg).
Proof.
  unfold copy_file_rw. cbv zeta. performs_go; try done. apply performs_read_loop.
Qed.

Lemma performs_move_symlink src dst ow : performs U_reloc (move_symlink src dst ow).
Proof. unfold move_symlink. cbv zeta. performs_go; done. Qed.

Lemma performs_move_file_with_modes src dst ow pt pg :
  performs U_reloc (move_file_with_modes src dst ow pt pg).
Proof.
  unfold move_file_with_modes. performs_go; try done. apply performs_copy_file_rw.
Qed.

Lemma U_unique_worker u : U_unique u -> U_worker u.
Proof. destruct u as [[] ?|? ?|[]| | | | | | | | | | | |]; done. Qed.

Lemma U_reloc_worker u : U_reloc u -> U_worker u.
Proof. by destruct u as [? ?|? ?|[]| | | | | | | | | | | |]. Qed.

Lemma U_unique_dry u : U_unique u -> U_dry u.
Proof. destruct u as [[] ?|? ?|[]| | | | | | | | | | | |]; done. Qed.

Section ProgramFacts.

Variable fnmatch : string -> string -> Z.
Variable atoi : string -> Z.
Variable parse_size : string -> option Z.
Variable parse_time_spec : string -> option Z.

Lemma performs_worker_job o j : performs U_worker (worker_job o j).
Proof.
  unfold worker_job. cbv zeta.
  apply performs_bind; [performs_go|intros dstc].
  apply performs_bind.
  - destruct (mode o); performs_go; try done.
    eapply performs_weaken; [apply U_unique_worker | apply performs_unique_path].
  - intros [[target skip] ow]. performs_go; try done.
    + eapply performs_weaken; [apply U_reloc_worker | apply performs_move_symlink].
    + eapply performs_weaken; [apply U_reloc_worker | apply performs_move_file_with_modes].
Qed.

(** Under [--dry-run] a job only probes the destination and logs. *)
Lemma performs_worker_job_dry o j :
  dry_run o = true -> performs U_dry (worker_job o j).
Proof.
  intros Hdry. unfold worker_job. cbv zeta. rewrite Hdry.
  apply performs_bind; [performs_go|intros dstc].
  apply performs_bind.
  - destruct (mode o); performs_go; try done.
    eapply performs_weaken; [apply U_unique_dry | apply performs_unique_path].
  - intros [[target skip] ow]. performs_go; done.
Qed.

Lemma performs_worker_loop fuel o : performs U_worker (worker_loop fuel o).
Proof.
  induction fuel as [|fuel IH]; cbn [worker_loop].
  - apply performs_stuck.
  - performs_go; try done; try apply IH. apply performs_worker_job.
Qed.

Lemma performs_worker_main o : performs U_worker (worker_main o).
Proof. intros w. apply performs_worker_loop. Qed.

Lemma U_traverse_deeper o d u : U_traverse o (d + 1) u -> U_traverse o d u.
Proof.
  destruct u as [? ?|? ?|[]| | | | | | | | | | | |]; try done.
  unfold U_traverse. rewrite !Is_true_true, !andb_true_iff, !Z.leb_le. lia.
Qed.

Lemma performs_queue_file o path rel d st name link :
  performs (U_traverse o d) (queue_file fnmatch o path rel d st name link).
Proof.
  unfold queue_file. performs_go.
  unfold U_traverse, new_job. cbn [depth].
  apply Is_true_true. rewrite !andb_true_iff, orb_true_iff, !Z.leb_le, Z.ltb_lt.
  match goal with H : _ && _ = false |- _ => apply andb_false_iff in H as [H|H] end;
    repeat match goal with
           | H : (_ >=? _) = true |- _ => apply Z.geb_le in H
           | H : (_ >=? _) = false |- _ => rewrite Z.geb_leb in H; apply Z.leb_gt in H
           | H : (_ >? _) = false |- _ => rewrite Z.gtb_ltb in H; apply Z.ltb_ge in H
           end; lia.
Qed.


Lemma performs_traverse_entry e :
  forall o dir d rel, performs (U_traverse o d) (traverse_entry fnmatch o dir d rel e).
Proof.
  induction e as [name lst rp od ents rm IH] using dirent_ind'.
  intros o dir d rel. cbn [traverse_entry].
  performs_go; try done; try apply performs_queue_file.
  apply (performs_weaken (U_traverse o (d + 1))); [apply U_traverse_deeper|].
  clear -IH. induction IH as [|e' l' He' _ IHl]; [apply performs_ret|].
  apply performs_bind; [apply He' | intros _; apply IHl].
Qed.

Lemma performs_traverse_loop o dir d rel l :
  performs (U_traverse o d) (traverse_loop fnmatch o dir d rel l).
Proof.
  induction l as [|e l IH]; cbn [traverse_loop]; [apply performs_ret|].
  apply performs_bind; [apply performs_traverse_entry | intros _; apply IH].
Qed.

Lemma performs_traverse_and_queue o dir d rel od ents :
  performs (U_traverse o d) (traverse_and_queue fnmatch o dir d rel od ents).
Proof.
  unfold traverse_and_queue. performs_go; try done. apply performs_traverse_loop.
Qed.

Lemma performs_prune_entry e : forall dir, performs U_prune (prune_entry dir e).
Proof.
  induction e as [name lst rp od ents rm IH] using dirent_ind'.
  intros dir. cbn [prune_entry]. unfold path_is_empty_dir.
  performs_go; try done.
  clear -IH. induction IH as [|e' l' He' _ IHl]; [apply performs_ret|].
  apply performs_bind; [apply He' | intros k].
  apply performs_bind; [apply IHl | intros rest; apply performs_ret].
Qed.

Lemma performs_prune_empty dir od ents : performs U_prune (prune_empty dir od ents).
Proof.
  unfold prune_empty. performs_go; try done.
  induction ents as [|e l IH]; cbn [prune_loop]; [apply performs_ret|].
  apply performs_bind; [apply performs_prune_entry | intros k].
  apply performs_bind; [apply IH | intros rest; apply performs_ret].
Qed.

Lemma performs_parse_option prog c optarg o :
  performs U_setup (parse_option atoi parse_size parse_time_spec prog c optarg o).
Proof.
  unfold parse_option, print_help, print_version, print_usage_short.
  performs_go; try done.
  intros w. exists [u_verbose (g_verbose w + 1)]. split_and!; [done|by constructor|done].
Qed.

Lemma performs_parse_options cl :
  performs U_setup (parse_options atoi parse_size parse_time_spec cl).
Proof.
  unfold parse_options. apply performs_bind.
  - generalize options_default. induction (getopt_seq cl) as [|[c a] l IH]; intros o;
      cbn [parse_loop]; [apply performs_ret|].
    apply performs_bind; [apply performs_parse_option | intros o'; apply IH].
  - intros o. unfold print_usage_short. performs_go; done.
Qed.

Lemma performs_setup cl :
  performs U_setup (setup atoi parse_size parse_time_spec cl).
Proof.
  unfold setup. apply performs_bind; [apply performs_parse_options|intros opt].
  performs_go; done.
Qed.

Lemma performs_repeat_M U n (m : M unit) :
  performs U m -> performs U (repeat_M n m).
Proof. intros H. induction n as [|n IH]; cbn [repeat_M]; performs_go; done. Qed.

End ProgramFacts.

(** ** The minimum depth *)




(** ** The destination subtree *)

(** [is_under] is equality or a prefix followed by a separator. *)
Lemma is_under_spec path prefix :
  is_under path prefix = true <->
  path = prefix \/ exists rest, path = prefix +:+ "/" +:+ rest.
Proof.
  unfold is_under. destruct (starts_with prefix path) eqn:E; cbn [negb].
  - apply starts_with_spec in E as [r ->]. rewrite get_app_length.
    destruct r as [|c r]; cbn [String.get].
    + split; [intros _; left; by rewrite app_nil_r_str | done].
    + split.
      * intros ->%Ascii.eqb_eq. right. by exists r.
      * intros [H|[rest H]].
        -- exfalso. apply (f_equal strlen) in H. rewrite strlen_app, strlen_cons in H.
           pose proof (strlen_nonneg r). lia.
        -- apply String.app_inj in H. injection H as -> _. apply Ascii.eqb_refl.
  - split; [done|]. intros [->|[rest ->]].
    + assert (starts_with prefix prefix = true) as E'
        by (apply starts_with_spec; exists EmptyString; by rewrite app_nil_r_str).
      congruence.
    + assert (starts_with prefix (prefix +:+ "/" +:+ rest) = true) as E'
        by (apply starts_with_spec; eauto). congruence.
Qed.

Lemma U_skip_no_descent u w e :
  U_skip u -> upd_event u w = Some e -> is_descent e = false.
Proof.
  intros Hu He. destruct u as [| [] ?|[]| | | | | | | | | | | |]; try done;
    cbn in He; by injection He as <-.
Qed.

Section DestinationFacts.

Variable fnmatch : string -> string -> Z.
Variables (name : string) (lst rp od : sysres) (ents : list dirent) (rm : sysres).

Let e := mk_dirent name lst rp od ents rm.

Hypothesis Hdir : st_type (r_stat lst) = S_IFDIR.
Hypothesis Hlst : ret lst = 0.
Hypothesis Hrp : 0 <= ret rp.

Lemma traverse_entry_skips o dir d rel w :
  is_under (r_str rp) (DST_CANON w) = true ->
  exists us,
    final_world (traverse_entry fnmatch o dir d rel e w) = apply_all us w
    /\ Forall U_skip us.
Proof.
  intros Hu. unfold e. cbn [traverse_entry].
  destruct (is_dot_or_dotdot name); [by exists []|].
  unfold path_join, str_copy_checked. cbv zeta.
  assert (forall A fmt args (f : A -> M unit),
             exists us, final_world ((die fmt args ≫= f) w) = apply_all us w
                        /\ Forall U_skip us) as Hdie.
  { intros A fmt args f. exists [u_emit (ev_stderr fmt args); u_exit EXIT_FAILURE].
    split; [reflexivity|]. by repeat constructor. }
  assert (forall (path rel' : string),
             exists us,
               final_world
                 ((observe (sys_lstat path) lst;;
                   if ret lst <? 0 then
                     e ← get_errno;
                     log_msg 1 "lstat failed for '%s' (%s)" [a_str path; a_errno e]
                   else
                     match st_type (r_stat lst) with
                     | S_IFLNK =>
                         if negb (include_symlinks o) then mret tt
                         else queue_file fnmatch o path rel' d (r_stat lst) name true
                     | S_IFDIR =>
                         observe (sys_realpath path) rp;;
                         if ret rp <? 0 then
                           e ← get_errno;
                           log_msg 1 "realpath failed for '%s' (%s)"
                             [a_str path; a_errno e]
                         else
                           dstc ← DST_CANON <$> get_world;
                           if is_under (r_str rp) dstc then mret tt
                           else if (max_depth o >=? 0) && (d >=? max_depth o) then mret tt
                           else
                             observe (sys_opendir path) od;;
                             if ret od <? 0 then
                               e ← get_errno;
                               log_msg 1 "Warning: cannot open '%s' (%s)"
                                 [a_str path; a_errno e]
                             else
                               (fix loop (l : list dirent) : M unit :=
                                  match l with
                                  | [] => mret tt
                                  | e' :: l' =>
                                      traverse_entry fnmatch o path (d + 1) rel' e';;
                                      loop l'
                                  end) ents
                     | S_IFREG => queue_file fnmatch o path rel' d (r_stat lst) name false
                     | S_IFOTHER => mret tt
                     end) w) = apply_all us w /\ Forall U_skip us) as Hbody.
  { intros path rel'.
    unfold mbind, M_bind, mret, M_ret, observe, modify, fmap, M_fmap, get_world.
    rewrite Hlst, Hdir. cbn [Z.ltb Z.compare].
    destruct (Z.ltb_spec (ret rp) 0) as [?|_]; [lia|].
    cbn [DST_CANON answer]. rewrite Hu.
    exists [u_observe (sys_lstat path) lst; u_observe (sys_realpath path) rp].
    split; [reflexivity|]. by repeat constructor. }
  destruct (strlen dir + 1 + strlen name + 1 >? PATH_MAX); [apply Hdie|].
  destruct (negb (rel =? EmptyString)%string).
  - destruct (strlen rel + 1 + strlen name + 1 >? PATH_MAX); [apply Hdie|]. apply Hbody.
  - destruct (strlen name + 1 >? PATH_MAX); [apply Hdie|]. apply Hbody.
Qed.

Lemma prune_entry_skips dir w :
  is_under (r_str rp) (DST_CANON w) = true ->
  (exists us,
      final_world (prune_entry dir e w) = apply_all us w /\ Forall U_skip us)
  /\ (forall k w', prune_entry dir e w = Ret k w' -> k = Some e).
Proof.
  intros Hu. unfold e. cbn [prune_entry].
  destruct (is_dot_or_dotdot name).
  { split; [by exists []|]. by intros k w' [= <- _]. }
  unfold path_join. cbv zeta.
  destruct (strlen dir + 1 + strlen name + 1 >? PATH_MAX).
  { split; [|done].
    eexists [u_emit (ev_stderr _ _); u_exit EXIT_FAILURE].
    split; [reflexivity|]. by repeat constructor. }
  unfold mbind, M_bind, mret, M_ret, observe, modify, fmap, M_fmap, get_world.
  rewrite Hlst, Hdir. cbn [Z.eqb negb].
  destruct (Z.ltb_spec (ret rp) 0) as [?|_]; [lia|].
  cbn [DST_CANON answer]. rewrite Hu. split; [|by intros k w' [= <- _]].
  eexists [u_observe (sys_lstat _) lst; u_observe (sys_realpath _) rp].
  split; [reflexivity|]. by repeat constructor.
Qed.

End DestinationFacts.

(** C2.  A directory whose canonical path is the destination root, or has
    it as a prefix followed by a separator, is skipped entirely, by the
    walker and by the pruner alike: neither opens it, nothing is queued
    from it, and the pruner neither removes it nor changes it. *)
Theorem dest_subtree_skipped
    (fnmatch : string -> string -> Z) (o : options_t) (dir : string) (d : Z)
    (rel : string) (name : string) (lst rp od : sysres) (ents : list dirent)
    (rm : sysres) (w : world) :
  let e := mk_dirent name lst rp od ents rm in
  st_type (r_stat lst) = S_IFDIR -> ret lst = 0 -> 0 <= ret rp ->
  (r_str rp = DST_CANON w \/ exists rest, r_str rp = DST_CANON w +:+ "/" +:+ rest) ->
  tr_rel (fun ev => is_descent ev = false)
         w (final_world (traverse_entry fnmatch o dir d rel e w))
  /\ q (final_world (traverse_entry fnmatch o dir d rel e w)) = q w
  /\ tr_rel (fun ev => is_descent ev = false) w (final_world (prune_entry dir e w))
  /\ (forall k w', prune_entry dir e w = Ret k w' -> k = Some e).
Proof.
  intros e Hdir Hlst Hrp Hu. subst e. apply is_under_spec in Hu.
  destruct (traverse_entry_skips fnmatch name lst rp od ents rm Hdir Hlst Hrp o dir d rel w Hu)
    as (us1 & -> & H1).
  destruct (prune_entry_skips name lst rp od ents rm Hdir Hlst Hrp dir w Hu)
    as ((us2 & E2 & H2) & Hk).
  rewrite E2.
  assert (forall us, Forall U_skip us ->
            tr_rel (fun ev => is_descent ev = false) w (apply_all us w)) as Htr.
  { intros us Hus. eapply apply_all_rel; [apply _ | exact Hus |].
    apply tr_rel_upd. apply U_skip_no_descent. }
  split_and!; [by apply Htr | | by apply Htr | exact Hk].
  assert (PreOrder (fun w w' : world => q w' = q w)) as HR.
  { split; [done|]. intros ??? E1 E3. by rewrite E3. }
  apply (apply_all_rel U_skip (fun w w' => q w' = q w) us1 H1).
  intros u w0 Hu0. by destruct u as [| [] ?|[]| | | | | | | | | | | |].
Qed.

Lemma dest_subtree_skipped_witness :
  let e := sub_dir "flat" "/a/flat" [reg_file "x.txt" 1] in
  let w := set_dst_canon "/a/flat" (world_init []) in
  tr_rel (fun ev => is_descent ev = false)
         w (final_world (traverse_entry fnmatch_literal options_default "/a" 0
                           EmptyString e w))
  /\ (forall k w', prune_entry "/a" e w = Ret k w' -> k = Some e).
Proof.
  intros e w.
  destruct (dest_subtree_skipped fnmatch_literal options_default "/a" 0 EmptyString
              "flat" (d_lstat e) (d_realpath e) (d_opendir e) (d_entries e) (d_rmdir e) w)
    as (H1 & _ & _ & H4).
  - reflexivity.
  - reflexivity.
  - vm_compute. discriminate.
  - left. reflexivity.
  - split; [exact H1 | exact H4].
Defined.

(** ** The run as a whole *)

Lemma performs2_bind {A B} U1 U2 (m : M A) (f : A -> M B) :
  performs U1 m -> (forall a, performs2 U1 U2 (f a)) -> performs2 U1 U2 (m ≫= f).
Proof.
  intros Hm Hf w. destruct (Hm w) as (us1 & E1 & H1 & X1).
  unfold mbind, M_bind. destruct (m w) as [a w1|s w1|w1]; cbn [final_world] in *.
  - destruct (Hf a w1) as (us & E & (usa & usb & -> & Ha & Hb) & X).
    exists (us1 ++ usa ++ usb). rewrite apply_all_app, <- E1, E. split_and!; [done| |].
    + exists (us1 ++ usa), usb. rewrite app_assoc. split_and!; [done|by apply Forall_app|done].
    + intros s w' Hx. specialize (X s w' Hx). rewrite last_app, X. done.
  - exists us1. split_and!; [done| |].
    + exists us1, []. rewrite app_nil_r. split_and!; [done|done|by left].
    + intros s' w' Hx. injection Hx as <- <-. by apply (X1 s w1).
  - exists us1. split_and!; [done| |done].
    exists us1, []. rewrite app_nil_r. split_and!; [done|done|by left].
Qed.

Lemma performs2_finish {B} U1 U2 (f : unit -> M B) :
  (forall a, performs U2 (f a)) -> performs2 U1 U2 (finish_jobs ≫= f).
Proof.
  intros Hf w. unfold mbind, M_bind, finish_jobs, modify.
  destruct (Hf tt (apply_upd u_done w)) as (us & E & H & X).
  exists (u_done :: us). change (apply_all (u_done :: us) w)
    with (apply_all us (apply_upd u_done w)).
  split_and!; [exact E| |].
  - exists [], (u_done :: us). split_and!; [done|constructor|right; eauto].
  - intros s w' Hx. specialize (X s w' Hx). destruct us; [done|exact X].
Qed.

Section MainFacts.

Variable fnmatch : string -> string -> Z.
Variable atoi : string -> Z.
Variable parse_size : string -> option Z.
Variable parse_time_spec : string -> option Z.

Lemma performs2_main cl seen left :
  performs2 U_before U_after
    (main fnmatch atoi parse_size parse_time_spec cl seen left).
Proof.
  unfold main.
  apply performs2_bind.
  { eapply performs_weaken; [|apply performs_setup]. by left. }
  intros opt. apply performs2_bind; [apply performs_get_world|]. intros w. cbv zeta.
  apply performs2_bind.
  { eapply performs_weaken; [|apply performs_traverse_and_queue]. right. eauto. }
  intros _. apply performs2_finish. intros _.
  apply performs_bind.
  { apply performs_repeat_M. eapply performs_weaken; [|apply performs_worker_main].
    by left. }
  intros _. apply performs_bind.
  { destruct (_ && _); [|apply performs_ret].
    apply performs_bind; [|intros; apply performs_ret].
    eapply performs_weaken; [|apply performs_prune_empty]. by right. }
  intros _. performs_go; by left.
Qed.

End MainFacts.


Lemma U_before_not_done u w e :
  U_before u -> upd_event u w = Some e -> is_done e = false.
Proof.
  intros [Hu|(o & d & Hu)] He;
    destruct u as [[] ?| [] ?|[]| | | | | | | | | | | |]; try done;
    cbn in He; by injection He as <-.
Qed.

Lemma U_after_not_push u w e :
  U_after u -> upd_event u w = Some e -> is_push e = false /\ is_done e = false.
Proof.
  intros [Hu|Hu] He;
    destruct u as [[] ?| [] ?|[]| | | | | | | | | | | |]; try done;
    cbn in He; try (by injection He as <-).
  all: destruct (pop_node (q w)) as [[] ?]; try done; by injection He as <-.
Qed.

(** C5.  The queue hands the jobs out in the order in which they were
    pushed, none lost and none twice: after any sequence of pushes, pops
    and the done signal, the jobs pushed are the jobs popped followed by
    the jobs still queued, and the next pop returns the oldest queued job,
    or, on an empty queue, end-of-stream once done is set and a wait
    before.  In a run of the program nothing is pushed after the done
    signal: the trace of [main] has no push behind it. *)
Theorem job_queue_fifo :
  (forall ops : list qop,
      fresh_ops ops q_init ->
      exists cells,
        queue_inv (run_ops ops q_init).2 cells
        /\ pushed_jobs ops = popped_jobs (run_ops ops q_init).1 ++ cells.*2
        /\ (pop_dangling ∉ fst (run_ops ops q_init))
        /\ q_done (run_ops ops q_init).2 = finished ops
        /\ (pop_node (run_ops ops q_init).2).1 = pop_view (finished ops) cells)
  /\ (forall fnmatch atoi parse_size parse_time_spec cl seen left w,
        exists evs1 evs2,
          trace (final_world (main fnmatch atoi parse_size parse_time_spec cl seen left w))
          = trace w ++ evs1 ++ evs2
          /\ Forall (fun e => is_done e = false) evs1
          /\ (evs2 = [] \/
              exists evs3, evs2 = ev_done :: evs3
                           /\ Forall (fun e => is_push e = false /\ is_done e = false) evs3)).
Proof.
  split.
  - intros ops Hfresh.
    destruct (run_ops_spec ops q_init [] queue_inv_init Hfresh) as (cells & H1 & H2 & H3 & H4).
    exists cells. cbn in H2, H4. split_and!; try done.
    rewrite <- H4. by apply pop_node_view.
  - intros fnmatch atoi parse_size parse_time_spec cl seen left w.
    destruct (performs2_main fnmatch atoi parse_size parse_time_spec cl seen left w)
      as (us & -> & (us1 & us2 & -> & H1 & H2) & _).
    rewrite apply_all_app.
    destruct (apply_all_rel U_before (tr_rel (fun e => is_done e = false)) us1 H1
                (tr_rel_upd _ _ U_before_not_done) w) as (evs1 & E1 & F1).
    destruct H2 as [->|(us3 & -> & H3)].
    + exists evs1, []. cbn. rewrite app_nil_r. split_and!; [done|done|by left].
    + change (apply_all (u_done :: us3) (apply_all us1 w))
        with (apply_all us3 (apply_upd u_done (apply_all us1 w))).
      destruct (apply_all_rel U_after
                  (tr_rel (fun e => is_push e = false /\ is_done e = false)) us3 H3
                  (tr_rel_upd _ _ U_after_not_push)
                  (apply_upd u_done (apply_all us1 w))) as (evs3 & E3 & F3).
      exists evs1, (ev_done :: evs3). rewrite E3. cbn [apply_upd emit trace set_q].
      rewrite E1, <- !app_assoc. split_and!; [done|done|right; eauto].
Qed.

Lemma job_queue_fifo_witness :
  let j1 := {| src_path := "/a/x/p.txt"; rel_path := "x/p.txt"; depth := 1;
               is_symlink := false |} in
  let j2 := {| src_path := "/a/y/p.txt"; rel_path := "y/p.txt"; depth := 1;
               is_symlink := false |} in
  let ops := [op_push 1%positive j1; op_push 2%positive j2; op_pop; op_finish;
              op_pop; op_pop] in
  fresh_ops ops q_init
  /\ fst (run_ops ops q_init) = [popped j1; popped j2; pop_end]
  /\ exists cells : list (loc * job_t), [j1; j2] = [j1; j2] ++ cells.*2.
Proof.
  intros j1 j2 ops.
  assert (fresh_ops ops q_init) as Hfresh by (vm_compute; tauto).
  split; [exact Hfresh|]. split; [reflexivity|].
  destruct (proj1 job_queue_fifo ops Hfresh) as (cells & _ & H & _).
  exists cells. exact H.
Defined.

(** ** Exit status *)

Lemma bind_Ret_inv {A B} (m : M A) (f : A -> M B) w b w' :
  (m ≫= f) w = Ret b w' -> exists a w1, m w = Ret a w1 /\ f a w1 = Ret b w'.
Proof. unfold mbind, M_bind. destruct (m w) as [a w1| |]; [eauto|done|done]. Qed.










(** ** Dry run *)


(** ** The copy loops *)


(** ** Move/Copy *)

Lemma counted_neutral cur evs more :
  Forall (fun e => is_rw e = false) evs ->
  counted cur (evs ++ more) = counted cur more.
Proof.
  induction 1 as [|e evs He _ IH]; [done|].
  cbn [app]. destruct e as [[] ?| | | | | |]; try done; apply IH.
Qed.

Lemma written_app a b : written (a ++ b) = written a ++ written b.
Proof.
  induction a as [|e a IH]; [done|].
  cbn [app]. destruct e as [[] ?| | | | | |]; cbn [written]; try done.
  by rewrite IH, app_assoc.
Qed.

Lemma delivered_app a b : delivered (a ++ b) = delivered a ++ delivered b.
Proof.
  induction a as [|e a IH]; [done|].
  cbn [app]. destruct e as [[] ?| | | | | |]; cbn [delivered]; try done.
  by rewrite IH, app_assoc.
Qed.

Lemma last_read_app acc a b : last_read acc (a ++ b) = last_read (last_read acc a) b.
Proof.
  revert acc. induction a as [|e a IH]; intros acc; [done|].
  cbn [app]. destruct e as [[] ?| | | | | |]; cbn [last_read]; apply IH.
Qed.

Lemma neutral_rw evs :
  Forall (fun e => is_rw e = false) evs ->
  written evs = [] /\ delivered evs = [] /\ forall acc, last_read acc evs = acc.
Proof.
  induction 1 as [|e evs He _ (IH1 & IH2 & IH3)]; [done|].
  destruct e as [[] ?| | | | | |]; try done.
Qed.

(** The two [close] calls before a [return]. *)
Lemma closes_spec {A} in_ out (x : A) w :
  let o := (close in_;; close out;; mret x) w in
  exists evs,
    trace (final_world o) = trace w ++ evs /\ stats (final_world o) = stats w
    /\ Forall (fun e => is_rw e = false) evs
    /\ (o = Ret x (final_world o) \/ o = Stuck (final_world o)).
Proof.
  unfold close, mbind, M_bind, mret, M_ret, syscall_.
  destruct (script w) as [|r1 rest] eqn:E1; cbn.
  { exists []. rewrite app_nil_r. split_and!; [done|done|constructor|by right]. }
  destruct rest as [|r2 rest]; cbn.
  { exists [ev_sys (sys_close in_) r1]. split_and!; [done|done|by repeat constructor|by right]. }
  exists [ev_sys (sys_close in_) r1; ev_sys (sys_close out) r2].
  rewrite <- app_assoc. split_and!; [done|done|by repeat constructor|by left].
Qed.

Lemma write_loop_done fuel in_ out buf r ww w :
  r <= ww -> write_loop (S fuel) in_ out buf r ww w = Ret true w.
Proof. intros H. cbn [write_loop]. destruct (Z.ltb_spec ww r); [lia|done]. Qed.

Lemma write_loop_stuck fuel in_ out buf r ww w :
  script w = [] -> ww < r -> write_loop (S fuel) in_ out buf r ww w = Stuck w.
Proof.
  intros Hs H. cbn [write_loop]. destruct (Z.ltb_spec ww r); [|lia].
  unfold mbind, M_bind, syscall_. by rewrite Hs.
Qed.

Lemma write_loop_step fuel in_ out buf r ww w k rest :
  script w = k :: rest -> ww < r ->
  write_loop (S fuel) in_ out buf r ww w
  = let w1 := answer (sys_write out (drop (Z.to_nat ww) buf)) k rest w in
    if ret k <? 0 then
      if err k =? EINTR then write_loop fuel in_ out buf r ww w1
      else (close in_;; close out;; mret false) w1
    else write_loop fuel in_ out buf r (ww + ret k) w1.
Proof.
  intros Hs H. cbn [write_loop]. destruct (Z.ltb_spec ww r); [|lia].
  rewrite (bind_Ret _ _ _ _ _ (syscall_cons _ _ _ _ Hs)). cbv zeta.
  destruct (ret k <? 0) eqn:E; [|done].
  unfold get_errno, mbind at 1, M_bind at 1. cbn [errno answer]. rewrite E.
  by destruct (err k =? EINTR).
Qed.

Lemma write_loop_spec fuel :
  forall in_ out buf r ww w,
    (length (script w) < fuel)%nat -> ww < r ->
    exists evs,
      trace (final_world (write_loop fuel in_ out buf r ww w)) = trace w ++ evs
      /\ stats (final_world (write_loop fuel in_ out buf r ww w)) = stats w
      /\ delivered evs = [] /\ (forall acc, last_read acc evs = acc)
      /\ match write_loop fuel in_ out buf r ww w with
         | Ret true _ =>
             (forall more, counted (Some (r, ww)) (evs ++ more) = r + counted None more)
             /\ (Z.of_nat (length buf) <= r -> 0 <= ww ->
                 written evs = drop (Z.to_nat ww) buf)
             /\ Forall (stream_ok in_ out) evs
         | Ret false _ | Stuck _ => counted (Some (r, ww)) evs = 0
         | Exit _ _ => False
         end.
Proof.
  induction fuel as [|fuel IH]; intros in_ out buf r ww w Hfuel Hww; [lia|].
  destruct (script w) as [|k rest] eqn:Es.
  { rewrite (write_loop_stuck _ _ _ _ _ _ _ Es Hww). cbn.
    exists []. rewrite app_nil_r. by split_and!. }
  rewrite (write_loop_step _ _ _ _ _ _ _ _ _ Es Hww). cbv zeta.
  set (c := sys_write out (drop (Z.to_nat ww) buf)).
  set (w1 := answer c k rest w).
  assert (length (script w1) < fuel)%nat as Hfuel1.
  { cbn in Hfuel |- *. lia. }
  assert (forall evs, trace w1 ++ evs = trace w ++ ev_sys c k :: evs) as Htr.
  { intros evs. cbn. by rewrite <- app_assoc. }
  destruct (Z.ltb_spec (ret k) 0) as [Hneg|Hpos].
  - (* the write failed *)
    assert (forall cur evs, counted cur (ev_sys c k :: evs) = counted cur evs) as Hck.
    { intros [[]|] evs; cbn [counted]; unfold c; [|done].
      destruct (Z.ltb_spec (ret k) 0); [done|lia]. }
    destruct (Z.eqb_spec (err k) EINTR) as [Hintr|Hother].
    + destruct (IH in_ out buf r ww w1 Hfuel1 Hww) as (evs & Et & Est & Hd & Hl & Ho).
      exists (ev_sys c k :: evs).
      split_and!; [by rewrite Et, Htr | by rewrite Est | exact Hd | exact Hl |].
      destruct (write_loop fuel in_ out buf r ww w1) as [[] ?| |]; try done;
        [|by rewrite Hck..].
      destruct Ho as (Hc & Hw & Hok). split_and!.
      * intros more. cbn [app]. rewrite Hck. apply Hc.
      * intros Hb H0. cbn [written]. unfold c. rewrite (Hw Hb H0).
        replace (Z.to_nat (ret k)) with 0%nat by lia. by rewrite take_0.
      * constructor; [by split|done].
    + destruct (closes_spec in_ out false w1) as (evs & Et & Est & Hn & Ho).
      cbv zeta in *. exists (ev_sys c k :: evs).
      destruct (neutral_rw evs Hn) as (Hw & Hd & Hl).
      split_and!; [by rewrite Et, Htr | by rewrite Est | exact Hd | exact Hl |].
      assert (counted (Some (r, ww)) (ev_sys c k :: evs) = 0) as Hc.
      { rewrite Hck. rewrite <- (app_nil_r evs). by rewrite counted_neutral. }
      destruct Ho as [-> | ->]; exact Hc.
  - (* [ret k] bytes were written *)
    destruct (Z.ltb_spec (ww + ret k) r) as [Hmore|Hdone].
    + assert (forall evs, counted (Some (r, ww)) (ev_sys c k :: evs)
                          = counted (Some (r, ww + ret k)) evs) as Hck.
      { intros evs. cbn [counted]. unfold c.
        destruct (Z.ltb_spec (ret k) 0); [lia|].
        destruct (Z.ltb_spec (ww + ret k) r); [done|lia]. }
      destruct (IH in_ out buf r (ww + ret k) w1 Hfuel1 Hmore)
        as (evs & Et & Est & Hd & Hl & Ho).
      exists (ev_sys c k :: evs).
      split_and!; [by rewrite Et, Htr | by rewrite Est | exact Hd | exact Hl |].
      destruct (write_loop fuel in_ out buf r (ww + ret k) w1) as [[] ?| |]; try done;
        [|by rewrite Hck..].
      destruct Ho as (Hc & Hw & Hok). split_and!.
      * intros more. cbn [app]. rewrite Hck. apply Hc.
      * intros Hb H0. cbn [written]. unfold c. rewrite (Hw Hb ltac:(lia)).
        rewrite Z2Nat.inj_add by lia. rewrite <- drop_drop.
        apply take_drop.
      * constructor; [split; [done|lia]|done].
    + (* the chunk is complete *)
      destruct fuel as [|fuel]; [lia|].
      rewrite (write_loop_done _ _ _ _ _ _ _ Hdone).
      exists [ev_sys c k]. cbn [final_world]. split_and!; try done.
      * intros more. cbn [app counted]. unfold c.
        destruct (Z.ltb_spec (ret k) 0); [lia|].
        destruct (Z.ltb_spec (ww + ret k) r); [lia|done].
      * intros Hb H0. cbn [written]. unfold c. rewrite app_nil_r.
        apply take_ge. rewrite length_drop. lia.
      * constructor; [split; [done|lia]|done].
Qed.

Lemma performs_script_suffix {A} U (m : M A) w :
  performs U m -> exists used, script w = used ++ script (final_world (m w)).
Proof.
  intros Hm.
  assert (PreOrder (fun w w' : world => exists used, script w = used ++ script w')) as HR.
  { split.
    - intros x. by exists [].
    - intros x y z [u1 E1] [u2 E2]. exists (u1 ++ u2). by rewrite E1, E2, app_assoc. }
  apply (performs_rel U (fun w w' : world => exists used, script w = used ++ script w')
           m Hm).
  intros u w0 _. destruct u; try (by exists []).
  - cbn. destruct (script w0) as [|x l]; [by exists []|by exists [x]].
  - cbn. destruct (pop_node (q w0)) as [[] ?]; by exists [].
Qed.

Lemma read_loop_stuck fuel in_ out size pg total w :
  script w = [] -> read_loop (S fuel) in_ out size pg total w = Stuck w.
Proof. intros Hs. cbn [read_loop]. unfold mbind, M_bind, syscall_. by rewrite Hs. Qed.

Lemma read_loop_end fuel in_ out size pg total w rd rest :
  script w = rd :: rest -> ret rd <= 0 ->
  read_loop (S fuel) in_ out size pg total w
  = Ret (Some (ret rd)) (answer (sys_read in_ BUFSZ) rd rest w).
Proof.
  intros Hs H. cbn [read_loop].
  rewrite (bind_Ret _ _ _ _ _ (syscall_cons _ _ _ _ Hs)). cbv zeta.
  destruct (Z.gtb_spec (ret rd) 0); [lia|done].
Qed.

Lemma read_loop_step fuel in_ out size pg total w rd rest :
  script w = rd :: rest -> 0 < ret rd ->
  read_loop (S fuel) in_ out size pg total w
  = let w1 := answer (sys_read in_ BUFSZ) rd rest w in
    match write_loop (S (length (script w1))) in_ out (r_bytes rd) (ret rd) 0 w1 with
    | Ret true w2 =>
        let total' := (total + ret rd) mod ULONG_WRAP in
        read_loop fuel in_ out size pg total' (chunk_done (ret rd) size total' pg w2)
    | Ret false w2 => Ret None w2
    | Exit s w2 => Exit s w2
    | Stuck w2 => Stuck w2
    end.
Proof.
  intros Hs H. cbn [read_loop].
  rewrite (bind_Ret _ _ _ _ _ (syscall_cons _ _ _ _ Hs)). cbv zeta.
  destruct (Z.gtb_spec (ret rd) 0); [|lia].
  unfold mbind at 1, M_bind at 1, script_fuel.
  destruct (write_loop _ in_ out (r_bytes rd) (ret rd) 0 _) as [[] w2| |]; try done.
  unfold chunk_done, when, add_bytes, modify, mbind, M_bind, bump.
  by destruct (pg && (size >? 0)).
Qed.

Lemma chunk_done_facts r size total pg w :
  exists evs,
    trace (chunk_done r size total pg w) = trace w ++ evs
    /\ Forall (fun e => is_rw e = false) evs
    /\ (forall in_ out, Forall (stream_ok in_ out) evs)
    /\ script (chunk_done r size total pg w) = script w
    /\ bytes_copied (stats (chunk_done r size total pg w))
       = (bytes_copied (stats w) + r) mod ULONG_WRAP
    /\ moved (stats (chunk_done r size total pg w)) = moved (stats w)
    /\ skipped (stats (chunk_done r size total pg w)) = skipped (stats w)
    /\ failed (stats (chunk_done r size total pg w)) = failed (stats w).
Proof.
  unfold chunk_done. cbv zeta. destruct (pg && (size >? 0)).
  - eexists [_]. split_and!; try reflexivity; by repeat constructor.
  - exists []. cbn. rewrite app_nil_r. split_and!; try reflexivity; by constructor.
Qed.

Lemma read_loop_spec fuel :
  forall in_ out size pg total w,
    (length (script w) < fuel)%nat ->
    exists evs,
      trace (final_world (read_loop fuel in_ out size pg total w)) = trace w ++ evs
      /\ (0 <= bytes_copied (stats w) < ULONG_WRAP ->
          bytes_copied (stats (final_world (read_loop fuel in_ out size pg total w)))
          = (bytes_copied (stats w) + counted None evs) mod ULONG_WRAP)
      /\ moved (stats (final_world (read_loop fuel in_ out size pg total w)))
         = moved (stats w)
      /\ skipped (stats (final_world (read_loop fuel in_ out size pg total w)))
         = skipped (stats w)
      /\ failed (stats (final_world (read_loop fuel in_ out size pg total w)))
         = failed (stats w)
      /\ match read_loop fuel in_ out size pg total w with
         | Ret (Some r) _ =>
             r <= 0
             /\ (forall more,
                    counted None (evs ++ more) = counted None evs + counted None more)
             /\ (Forall wf_answer (script w) -> written evs = delivered evs)
             /\ (forall acc, last_read acc evs = Some r)
             /\ (0 <= r -> Forall (stream_ok in_ out) evs)
         | Ret None _ | Stuck _ => True
         | Exit _ _ => False
         end.
Proof.
  induction fuel as [|fuel IH]; intros in_ out size pg total w Hfuel; [lia|].
  destruct (script w) as [|rd rest] eqn:Es.
  { rewrite (read_loop_stuck _ _ _ _ _ _ _ Es). cbn.
    exists []. rewrite app_nil_r. split_and!; try done.
    intros Hb. by rewrite Z.add_0_r, Z.mod_small. }
  set (c := sys_read in_ BUFSZ).
  destruct (Z.leb_spec (ret rd) 0) as [Hend|Hpos].
  { rewrite (read_loop_end _ _ _ _ _ _ _ _ _ Es Hend). cbn [final_world].
    exists [ev_sys c rd]. cbn [trace stats answer counted].
    destruct (Z.gtb_spec (ret rd) 0) as [?|_]; [lia|]. cbn [counted].
    split_and!; try done.
    - intros Hb. by rewrite Z.add_0_r, Z.mod_small.
    - intros more. cbn [app counted]. destruct (Z.gtb_spec (ret rd) 0); [lia|done].
    - cbn. destruct (Z.gtb_spec (ret rd) 0); [lia|done].
    - intros H0. by repeat constructor. }
  rewrite (read_loop_step _ _ _ _ _ _ _ _ _ Es Hpos). cbv zeta. fold c.
  set (w1 := answer c rd rest w).
  destruct (write_loop_spec (S (length (script w1))) in_ out (r_bytes rd) (ret rd) 0 w1
              ltac:(lia) Hpos) as (evw & Etw & Estw & Hdw & Hlw & How).
  destruct (performs_script_suffix U_reloc
              (write_loop (S (length (script w1))) in_ out (r_bytes rd) (ret rd) 0) w1
              (performs_write_loop _ _ _ _ _ _)) as (used & Hused).
  assert (script w1 = rest) as Es1 by done.
  assert (stats w1 = stats w) as Est1 by done.
  assert (forall evs, trace w1 ++ evs = trace w ++ ev_sys c rd :: evs) as Htr.
  { intros evs. cbn. by rewrite <- app_assoc. }
  assert (forall evs, counted None (ev_sys c rd :: evs) = counted (Some (ret rd, 0)) evs)
    as Hck.
  { intros evs. cbn [counted]. unfold c. destruct (Z.gtb_spec (ret rd) 0); [done|lia]. }
  destruct (write_loop (S (length (script w1))) in_ out (r_bytes rd) (ret rd) 0 w1)
    as [[] w2|s w2|w2]; cbn [final_world] in *; try done.
  - (* the chunk was written in full *)
    destruct How as (Hcw & Hww & Hokw).
    set (total' := (total + ret rd) mod ULONG_WRAP).
    destruct (chunk_done_facts (ret rd) size total' pg w2)
      as (evp & Etp & Hnp & Hop & Hsp & Hbp & Hmp & Hkp & Hfp).
    set (w3 := chunk_done (ret rd) size total' pg w2) in *.
    assert (length (script w3) < fuel)%nat as Hfuel3.
    { rewrite Hsp. rewrite Es1 in Hused. apply (f_equal length) in Hused.
      rewrite length_app in Hused. cbn [length] in Hfuel. lia. }
    assert (0 <= bytes_copied (stats w3) < ULONG_WRAP) as Hb3.
    { rewrite Hbp. by apply Z.mod_pos_bound. }
    destruct (IH in_ out size pg total' w3 Hfuel3)
      as (evr & Etr & Hbr & Hmr & Hkr & Hfr & Hor).
    destruct (neutral_rw evp Hnp) as (Hwp & Hdp & Hlp).
    exists (ev_sys c rd :: evw ++ evp ++ evr).
    assert (counted None (ev_sys c rd :: evw ++ evp ++ evr) = ret rd + counted None evr)
      as Hcount.
    { by rewrite Hck, Hcw, counted_neutral. }
    split_and!.
    + rewrite Etr, Etp, Etw, <- Htr. by rewrite <- !app_assoc.
    + intros _. rewrite (Hbr Hb3), Hbp, Estw, Hcount, Est1.
      rewrite Zplus_mod_idemp_l. f_equal. lia.
    + by rewrite Hmr, Hmp, Estw, Est1.
    + by rewrite Hkr, Hkp, Estw, Est1.
    + by rewrite Hfr, Hfp, Estw, Est1.
    + destruct (read_loop fuel in_ out size pg total' w3) as [[r'|] w4| |]; try done.
      destruct Hor as (Hr' & Hadd & Hwd & Hlr & Hokr). split_and!.
      * done.
      * intros more. rewrite Hcount.
        change ((ev_sys c rd :: evw ++ evp ++ evr) ++ more)
          with (ev_sys c rd :: (evw ++ evp ++ evr) ++ more).
        rewrite Hck, <- !app_assoc, Hcw, counted_neutral by done. rewrite Hadd. lia.
      * intros Hwf. apply Forall_cons in Hwf as [Hrd Hwf].
        assert (Forall wf_answer (script w3)) as Hwf3.
        { rewrite Hsp. rewrite Es1 in Hused. rewrite Hused in Hwf.
          by apply Forall_app in Hwf as [_ ?]. }
        cbn [written delivered]. unfold c at 1 2.
        destruct (Z.gtb_spec (ret rd) 0); [|lia].
        rewrite !written_app, !delivered_app, Hwp, Hdp, Hdw, (Hwd Hwf3).
        rewrite Hww; [done| |done]. unfold wf_answer in Hrd. lia.
      * intros acc. cbn [last_read]. unfold c at 1.
        by rewrite !last_read_app, Hlw, Hlp, Hlr.
      * intros H0. constructor; [split; [done|lia]|].
        rewrite !Forall_app. split_and!; [done|done|by apply Hokr].
  - (* a write failed *)
    exists (ev_sys c rd :: evw).
    split_and!;
      [by rewrite Etw, Htr | | by rewrite Estw, Est1 | by rewrite Estw, Est1
      | by rewrite Estw, Est1 | done].
    intros Hb. by rewrite Hck, How, Z.add_0_r, Estw, Est1, Z.mod_small.
  - exists (ev_sys c rd :: evw).
    split_and!;
      [by rewrite Etw, Htr | | by rewrite Estw, Est1 | by rewrite Estw, Est1
      | by rewrite Estw, Est1 | done].
    intros Hb. by rewrite Hck, How, Z.add_0_r, Estw, Est1, Z.mod_small.
Qed.

(** ** The copy *)

Lemma performs_write_loop_copy fuel in_ out buf r w :
  performs U_copy (write_loop fuel in_ out buf r w).
Proof.
  revert w. induction fuel as [|fuel IH]; intros w; cbn [write_loop].
  - apply performs_stuck.
  - performs_go; try done; apply IH.
Qed.

Lemma performs_read_loop_copy fuel in_ out size pg total :
  performs U_copy (read_loop fuel in_ out size pg total).
Proof.
  revert total. induction fuel as [|fuel IH]; intros total; cbn [read_loop].
  - apply performs_stuck.
  - cbv zeta. performs_go; try done; try apply IH. apply performs_write_loop_copy.
Qed.

Lemma performs_copy_file_rw_copy src dst mode pt pg :
  performs U_copy (copy_file_rw src dst mode pt pg).
Proof.
  unfold copy_file_rw. cbv zeta. performs_go; try done. apply performs_read_loop_copy.
Qed.

Ltac leaf :=
  first [ exists []; rewrite app_nil_r; split_and!; [reflexivity|reflexivity|constructor|]
        | eexists; split_and!;
          [cbn; rewrite <- ?app_assoc; reflexivity | reflexivity
          | cbn [app]; by repeat constructor |] ].

Lemma copy_finish_spec in_ out st pt pg r w :
  exists evs,
    trace (final_world (copy_finish in_ out st pt pg r w)) = trace w ++ evs
    /\ stats (final_world (copy_finish in_ out st pt pg r w)) = stats w
    /\ Forall (fun e => is_rw e = false) evs
    /\ match copy_finish in_ out st pt pg r w with
       | Ret rc _ =>
           rc = -1
           \/ rc = 0 /\ 0 <= r
              /\ exists nl stamps rsync rc1 rc2,
                  evs = nl ++ stamps
                        ++ [ev_sys (sys_fsync out) rsync; ev_sys (sys_close in_) rc1;
                            ev_sys (sys_close out) rc2]
                  /\ Forall (stream_ok in_ out) nl
                  /\ (if pt
                      then exists rf,
                          stamps = [ev_sys (sys_futimens out (st_atime st) (st_mtime st)) rf]
                      else stamps = [])
       | Stuck _ => True
       | Exit _ _ => False
       end.
Proof.
  unfold copy_finish, when, close, mbind, M_bind, mret, M_ret, syscall_, modify.
  destruct pg, pt, (Z.ltb_spec r 0); cbn [script emit].
  all: repeat match goal with
         | |- context [match script ?w with _ => _ end] =>
             destruct (script w) as [|? ?]; cbn [script answer]
         | |- context [match ?l with [] => Stuck _ | _ => _ end] =>
             destruct l as [|? ?]; cbn [script answer]
         end.
  all: try (leaf; first [done | by left]).
  all: leaf; right; split_and!; [done|done|].
  - exists [ev_stdout "\n" []]. eexists [_]. do 3 eexists.
    split_and!; [reflexivity|by repeat constructor|by eexists].
  - exists [ev_stdout "\n" []], []. do 3 eexists.
    split_and!; [reflexivity|by repeat constructor|done].
  - exists []. eexists [_]. do 3 eexists.
    split_and!; [reflexivity|constructor|by eexists].
  - exists [], []. do 3 eexists.
    split_and!; [reflexivity|constructor|done].
Qed.

Lemma bind_eq {A B} (m : M A) (f : A -> M B) w :
  (m ≫= f) w
  = match m w with
    | Ret a w' => f a w'
    | Exit s w' => Exit s w'
    | Stuck w' => Stuck w'
    end.
Proof. reflexivity. Qed.

Lemma copy_file_rw_eq src dst mode pt pg :
  copy_file_rw src dst mode pt pg
  = (rin ← syscall_ (sys_open_rdonly src);
     if ret rin <? 0 then mret (-1)
     else
       rout ← syscall_ (sys_open_creat_trunc dst (Z.land mode 511));
       if ret rout <? 0 then close (ret rin);; mret (-1)
       else
         rst ← syscall_ (sys_fstat (ret rin));
         lr ← script_fuel (fun f =>
                 read_loop f (ret rin) (ret rout)
                   (if ret rst =? 0 then st_size (r_stat rst) else 0) pg 0);
         match lr with
         | None => mret (-1)
         | Some r => copy_finish (ret rin) (ret rout) (r_stat rst) pt pg r
         end).
Proof. reflexivity. Qed.

Lemma copy_file_rw_spec src dst mode pt pg w :
  exists evs,
    trace (final_world (copy_file_rw src dst mode pt pg w)) = trace w ++ evs
    /\ (0 <= bytes_copied (stats w) < ULONG_WRAP ->
        bytes_copied (stats (final_world (copy_file_rw src dst mode pt pg w)))
        = (bytes_copied (stats w) + counted None evs) mod ULONG_WRAP)
    /\ match copy_file_rw src dst mode pt pg w with
       | Ret rc _ =>
           rc = -1 \/ rc = 0 /\ (Forall wf_answer (script w) -> copied src dst pt evs)
       | Stuck _ => True
       | Exit _ _ => False
       end.
Proof.
  rewrite copy_file_rw_eq.
  assert (0 <= bytes_copied (stats w) < ULONG_WRAP ->
          bytes_copied (stats w) = (bytes_copied (stats w) + 0) mod ULONG_WRAP) as Hb0.
  { intros Hb. by rewrite Z.add_0_r, Z.mod_small. }
  (* open(src) *)
  destruct (script w) as [|rin s1] eqn:E1.
  { unfold mbind, M_bind, syscall_. rewrite E1. exists []. by rewrite app_nil_r. }
  rewrite (bind_Ret _ _ _ _ _ (syscall_cons _ _ _ _ E1)). cbv zeta.
  set (e1 := ev_sys (sys_open_rdonly src) rin).
  destruct (Z.ltb_spec (ret rin) 0) as [|Hin].
  { exists [e1]. split_and!; [done|done|by left]. }
  (* open(dst) *)
  set (w1 := answer (sys_open_rdonly src) rin s1 w).
  destruct s1 as [|rout s2].
  { unfold mbind, M_bind, syscall_. cbn [script w1 answer].
    exists [e1]. by split_and!. }
  rewrite (bind_Ret _ _ w1 _ _ (syscall_cons _ rout s2 w1 eq_refl)).
  set (e2 := ev_sys (sys_open_creat_trunc dst (Z.land mode 511)) rout).
  set (w2 := answer (sys_open_creat_trunc dst (Z.land mode 511)) rout s2 w1).
  assert (trace w2 = trace w ++ [e1; e2]) as Et2.
  { cbn. by rewrite <- app_assoc. }
  cbv zeta.
  destruct (Z.ltb_spec (ret rout) 0) as [|Hout].
  { unfold close, mbind, M_bind, mret, M_ret, syscall_. cbn [script w2 answer].
    destruct s2 as [|rc s3]; cbn [final_world].
    - exists [e1; e2]. by split_and!.
    - exists [e1; e2; ev_sys (sys_close (ret rin)) rc].
      split_and!; [|done|by left]. cbn. by rewrite <- !app_assoc. }
  (* fstat *)
  destruct s2 as [|rst s3].
  { unfold mbind, M_bind, syscall_. cbn [script w2 answer].
    exists [e1; e2]. by split_and!. }
  rewrite (bind_Ret _ _ w2 _ _ (syscall_cons _ rst s3 w2 eq_refl)).
  set (e3 := ev_sys (sys_fstat (ret rin)) rst).
  set (w3 := answer (sys_fstat (ret rin)) rst s3 w2).
  assert (trace w3 = trace w ++ [e1; e2; e3]) as Et3.
  { cbn. by rewrite <- !app_assoc. }
  assert (forall evs, counted None (e1 :: e2 :: e3 :: evs) = counted None evs) as Hck
    by done.
  cbv zeta.
  set (size := if ret rst =? 0 then st_size (r_stat rst) else 0).
  rewrite bind_eq. unfold script_fuel.
  destruct (read_loop_spec (S (length (script w3))) (ret rin) (ret rout) size pg 0 w3
              ltac:(lia)) as (evl & Etl & Hbl & _ & _ & _ & Hol).
  destruct (read_loop (S (length (script w3))) (ret rin) (ret rout) size pg 0 w3)
    as [[r|] w4|s w4|w4]; cbn [final_world] in *; try done.
  - (* the loop ended with [r] *)
    destruct Hol as (Hr & Hadd & Hwd & Hlr & Hok).
    destruct (copy_finish_spec (ret rin) (ret rout) (r_stat rst) pt pg r w4)
      as (evf & Etf & Esf & Hnf & Hof).
    exists (e1 :: e2 :: e3 :: evl ++ evf). split_and!.
    + rewrite Etf, Etl, Et3, <- !app_assoc. done.
    + intros Hb. rewrite Esf, (Hbl Hb), Hck, Hadd. do 2 f_equal.
      rewrite <- (app_nil_r evf), counted_neutral by done. cbn. lia.
    + destruct (copy_finish _ _ _ _ _ _ _) as [rc w5| |]; try done.
      destruct Hof as [?|(-> & H0 & nl & stamps & rsync & rc1 & rc2 & -> & Hnl & Hst)];
        [by left|right].
      split; [done|]. intros Hwf.
      apply Forall_app in Hnf as [Hnn _].
      destruct (neutral_rw nl Hnn) as (Hwn & Hdn & Hln).
      exists rin, rout, (Z.land mode 511), rst, (evl ++ nl), stamps, rsync, rc1, rc2.
      split_and!; try done.
      * by rewrite <- !app_assoc.
      * apply Forall_app. split; [apply Hok; lia|done].
      * rewrite written_app, delivered_app, Hwn, Hdn, Hwd; [done|].
        by do 3 apply Forall_cons in Hwf as [_ Hwf].
      * rewrite last_read_app, Hlr, Hln. f_equal. lia.
  - unfold mret, M_ret. cbn [final_world].
    exists (e1 :: e2 :: e3 :: evl).
    split_and!; [|intros Hb; by rewrite (Hbl Hb), Hck|by left].
    by rewrite Etl, Et3, <- !app_assoc.
  - exists (e1 :: e2 :: e3 :: evl).
    split_and!; [|intros Hb; by rewrite (Hbl Hb), Hck|done].
    by rewrite Etl, Et3, <- !app_assoc.
Qed.

(** ** The bytes-copied counter *)

(** C9 (amended).  The bytes-copied counter is incremented once per chunk,
    after the chunk has been written in full, and is never taken back:
    whatever the outcome of a copy, the counter has grown (modulo 2^64) by
    the total size of the chunks whose writes completed, [counted]; the
    other counters are untouched.  The bytes of a chunk whose write failed
    part-way are written but not counted. *)
Theorem bytes_copied_counts_full_chunks src dst mode pt pg w :
  0 <= bytes_copied (stats w) < ULONG_WRAP ->
  exists evs,
    trace (final_world (copy_file_rw src dst mode pt pg w)) = trace w ++ evs
    /\ bytes_copied (stats (final_world (copy_file_rw src dst mode pt pg w)))
       = (bytes_copied (stats w) + counted None evs) mod ULONG_WRAP
    /\ moved (stats (final_world (copy_file_rw src dst mode pt pg w))) = moved (stats w)
    /\ skipped (stats (final_world (copy_file_rw src dst mode pt pg w)))
       = skipped (stats w)
    /\ failed (stats (final_world (copy_file_rw src dst mode pt pg w)))
       = failed (stats w).
Proof.
  intros Hb.
  destruct (copy_file_rw_spec src dst mode pt pg w) as (evs & Et & Hbytes & _).
  exists evs. split_and!; [done|by apply Hbytes|..].
  - apply (performs_keeps U_copy (fun w => moved (stats w)) _
             (performs_copy_file_rw_copy src dst mode pt pg)).
    by intros [[] ?|? ?|[]| | | | | | | | | | | |] ?.
  - apply (performs_keeps U_copy (fun w => skipped (stats w)) _
             (performs_copy_file_rw_copy src dst mode pt pg)).
    by intros [[] ?|? ?|[]| | | | | | | | | | | |] ?.
  - apply (performs_keeps U_copy (fun w => failed (stats w)) _
             (performs_copy_file_rw_copy src dst mode pt pg)).
    by intros [[] ?|? ?|[]| | | | | | | | | | | |] ?.
Qed.

(** A copy that fails after two full chunks: both stay counted. *)
Lemma bytes_copied_counts_full_chunks_witness :
  0 <= bytes_copied (stats (world_init script_second_chunk_fails)) < ULONG_WRAP
  /\ exists evs,
      trace (final_world (copy_file_rw "a" "b" 420 false false
                            (world_init script_second_chunk_fails)))
      = trace (world_init script_second_chunk_fails) ++ evs
      /\ bytes_copied (stats (final_world (copy_file_rw "a" "b" 420 false false
                                            (world_init script_second_chunk_fails))))
         = (bytes_copied (stats (world_init script_second_chunk_fails))
            + counted None evs) mod ULONG_WRAP
      /\ moved (stats (final_world (copy_file_rw "a" "b" 420 false false
                                     (world_init script_second_chunk_fails))))
         = moved (stats (world_init script_second_chunk_fails))
      /\ skipped (stats (final_world (copy_file_rw "a" "b" 420 false false
                                       (world_init script_second_chunk_fails))))
         = skipped (stats (world_init script_second_chunk_fails))
      /\ failed (stats (final_world (copy_file_rw "a" "b" 420 false false
                                      (world_init script_second_chunk_fails))))
         = failed (stats (world_init script_second_chunk_fails)).
Proof.
  split; [vm_compute; split; congruence|].
  apply (bytes_copied_counts_full_chunks "a" "b" 420 false false
           (world_init script_second_chunk_fails)).
  vm_compute; split; congruence.
Defined.

(** The claim as first stated fails: when the disk fills up in the middle of
    a chunk, the two bytes already written are not in the counter. *)
Lemma partial_chunk_counterexample :
  ~ (forall src dst mode pt pg w rc w' evs,
        copy_file_rw src dst mode pt pg w = Ret rc w' ->
        rc = -1 ->
        trace w' = trace w ++ evs ->
        bytes_copied (stats w')
        = (bytes_copied (stats w) + Z.of_nat (length (written evs))) mod ULONG_WRAP).
Proof.
  intros H.
  specialize (H "a" "b" 420 false false (world_init script_disk_full) (-1)
                (final_world (copy_file_rw "a" "b" 420 false false
                                (world_init script_disk_full)))
                (trace (final_world (copy_file_rw "a" "b" 420 false false
                                       (world_init script_disk_full))))
                eq_refl eq_refl eq_refl).
  vm_compute in H. discriminate H.
Qed.

(** ** Relocating a regular file *)

Lemma syscall_Ret_inv c w r w1 :
  syscall_ c w = Ret r w1 -> exists rest, script w = r :: rest /\ w1 = answer c r rest w.
Proof.
  unfold syscall_. destruct (script w) as [|r' rest]; [done|].
  intros [= <- <-]. by exists rest.
Qed.

Lemma copy_file_rw_no_removal src dst mode pt pg w evs :
  trace (final_world (copy_file_rw src dst mode pt pg w)) = trace w ++ evs ->
  Forall (fun e => is_removal e = false) evs.
Proof.
  intros Et.
  destruct (performs_trace U_copy (fun e => is_removal e = false)
              (copy_file_rw src dst mode pt pg)
              (performs_copy_file_rw_copy src dst mode pt pg)) with (w := w)
    as (evs' & Et' & Hno).
  - intros u w0 e Hu He.
    destruct u as [[] ?|? ?|[]| | | | | | | | | | | |]; try done; by injection He as <-.
  - rewrite Et in Et'. by apply app_inv_head in Et' as ->.
Qed.

(** C3 (amended).  A regular file is relocated by [rename], after the
    [unlink] of the target when overwriting.  If [rename] succeeds nothing
    else is done; if it fails for a reason other than EXDEV the relocation
    fails at once.  A relocation that succeeds without [rename] is a [stat]
    of the source, a copy that ran to its end ([copied]: both files opened,
    everything read up to the end of the input written, the times set when
    asked for, the destination flushed) and then the [unlink] of the source.
    A relocation that fails removes nothing: the only removal it may have
    tried is an [unlink] of the source that failed.  The results of
    [futimens], [fsync] and [close] are not looked at, so their failure
    does not stop the source from being removed. *)
Theorem relocation_order src dst ow pt pg w rc w' :
  Forall wf_answer (script w) ->
  move_file_with_modes src dst ow pt pg w = Ret rc w' ->
  exists pre rr tail,
    trace w' = trace w ++ pre ++ ev_sys (sys_rename src dst) rr :: tail
    /\ (if ow then exists r0, pre = [ev_sys (sys_unlink dst) r0] else pre = [])
    /\ (rc = 0 \/ rc = -1)
    /\ (ret rr = 0 -> rc = 0 /\ tail = [])
    /\ (ret rr < 0 -> err rr <> EXDEV -> rc = -1 /\ tail = [])
    /\ (rc = 0 -> ret rr <> 0 ->
        exists rs body ru,
          tail = ev_sys (sys_stat src) rs :: body ++ [ev_sys (sys_unlink src) ru]
          /\ 0 <= ret rs /\ 0 <= ret ru /\ copied src dst pt body)
    /\ (rc = -1 ->
        forall e, e ∈ tail -> is_removal e = true ->
                  exists ru, e = ev_sys (sys_unlink src) ru /\ ret ru < 0).
Proof.
  intros Hwf H. unfold move_file_with_modes in H.
  (* unlink(dst) when overwriting *)
  apply bind_Ret_inv in H as ([] & w1 & H1 & H).
  assert (exists pre,
             trace w1 = trace w ++ pre
             /\ (if ow then exists r0, pre = [ev_sys (sys_unlink dst) r0] else pre = [])
             /\ Forall wf_answer (script w1)) as (pre & Et1 & Hpre & Hwf1).
  { unfold when in H1. destruct ow.
    - apply bind_Ret_inv in H1 as (r0 & w0 & H0 & [= <-]).
      apply syscall_Ret_inv in H0 as (rest & Es & ->).
      exists [ev_sys (sys_unlink dst) r0]. split_and!; [done|by exists r0|].
      rewrite Es in Hwf. by apply Forall_cons in Hwf as [_ ?].
    - injection H1 as <-. exists []. by rewrite app_nil_r. }
  (* rename *)
  apply bind_Ret_inv in H as (rr & w2 & H2 & H).
  apply syscall_Ret_inv in H2 as (s2 & Es1 & ->).
  rewrite Es1 in Hwf1. apply Forall_cons in Hwf1 as [_ Hwf2].
  set (w2 := answer (sys_rename src dst) rr s2 w1) in *.
  assert (forall tail, trace w2 ++ tail
                       = trace w ++ pre ++ ev_sys (sys_rename src dst) rr :: tail) as Et2.
  { intros tail. cbn. by rewrite Et1, <- !app_assoc. }
  exists pre, rr.
  cbv beta in H. revert H. destruct (Z.eqb_spec (ret rr) 0) as [Hrr|Hrr]; intros H.
  { injection H as <- <-. exists []. rewrite <- Et2, app_nil_r.
    split_and!; try done; [by left|intros; lia]. }
  apply bind_Ret_inv in H as (e & w2' & He & H).
  unfold get_errno in He. injection He as <- <-.
  cbv beta in H. change (if ret rr <? 0 then err rr else errno w1) with (errno w2) in H.
  revert H. destruct (Z.eqb_spec (errno w2) EXDEV) as [Hdev|Hdev]; cbn [negb]; intros H.
  2:{ injection H as <- <-. exists []. rewrite <- Et2, app_nil_r.
      split_and!; try done; [by right|].
      intros _ e He. by apply elem_of_nil in He. }
  assert (ret rr < 0 -> err rr = EXDEV) as Hexdev.
  { intros Hneg. cbn in Hdev. by destruct (Z.ltb_spec (ret rr) 0); [|lia]. }
  (* stat *)
  apply bind_Ret_inv in H as (rs & w3 & H3 & H).
  apply syscall_Ret_inv in H3 as (s3 & Es2 & ->).
  assert (script w2 = s2) as Es2' by done. rewrite Es2' in Es2. subst s2.
  apply Forall_cons in Hwf2 as [_ Hwf3].
  set (w3 := answer (sys_stat src) rs s3 w2) in *.
  assert (forall body, trace w3 ++ body
                       = trace w ++ pre ++ ev_sys (sys_rename src dst) rr
                                    :: ev_sys (sys_stat src) rs :: body) as Et3.
  { intros body. rewrite <- Et2. cbn. by rewrite <- !app_assoc. }
  cbv beta in H. revert H. destruct (Z.ltb_spec (ret rs) 0) as [Hrs|Hrs]; intros H.
  { injection H as <- <-. exists [ev_sys (sys_stat src) rs].
    rewrite <- Et3, app_nil_r. split_and!; try done; [by right|lia|].
    intros _ e He. apply list_elem_of_singleton in He as ->. done. }
  (* the copy *)
  apply bind_Ret_inv in H as (rcc & w4 & H4 & H).
  destruct (copy_file_rw_spec src dst (st_perm (r_stat rs)) pt pg w3)
    as (body & Et4 & _ & Hcopy).
  pose proof (copy_file_rw_no_removal _ _ _ _ _ _ _ Et4) as Hnorm.
  rewrite H4 in Et4, Hcopy. cbn [final_world] in Et4.
  cbv beta in H. revert H. destruct (Z.ltb_spec rcc 0) as [Hrcc|Hrcc]; intros H.
  { injection H as <- <-. exists (ev_sys (sys_stat src) rs :: body).
    rewrite Et4, Et3. split_and!; try done; [by right|lia|].
    intros _ e He Hrem. apply elem_of_cons in He as [->|He]; [done|].
    rewrite Forall_forall in Hnorm. by rewrite (Hnorm e He) in Hrem. }
  destruct Hcopy as [->|[-> Hcopied]]; [lia|].
  (* unlink(src) *)
  apply bind_Ret_inv in H as (ru & w5 & H5 & H).
  apply syscall_Ret_inv in H5 as (s5 & Es4 & ->).
  exists (ev_sys (sys_stat src) rs :: body ++ [ev_sys (sys_unlink src) ru]).
  assert (trace (answer (sys_unlink src) ru s5 w4)
          = trace w ++ pre ++ ev_sys (sys_rename src dst) rr
                       :: ev_sys (sys_stat src) rs :: body
                          ++ [ev_sys (sys_unlink src) ru]) as Et5.
  { cbn. by rewrite Et4, <- app_assoc, Et3. }
  cbv beta in H. revert H.
  destruct (Z.ltb_spec (ret ru) 0) as [Hru|Hru]; intros H; injection H as <- <-.
  - split_and!; try done; [by right|lia|].
    intros _ e He Hrem. exists ru.
    apply elem_of_cons in He as [->|He]; [done|].
    apply elem_of_app in He as [He|He].
    + rewrite Forall_forall in Hnorm. by rewrite (Hnorm e He) in Hrem.
    + by apply list_elem_of_singleton in He as ->.
  - split_and!; try done; [by left|lia|].
    intros _ _. exists rs, body, ru. split_and!; try done. by apply Hcopied.
Qed.

(** A move across devices: [rename] fails with EXDEV, the file is copied
    and the source removed. *)
Lemma relocation_order_witness :
  Forall wf_answer (script (world_init script_cross_device))
  /\ move_file_with_modes "a" "b" false false false (world_init script_cross_device)
     = Ret 0 (final_world (move_file_with_modes "a" "b" false false false
                             (world_init script_cross_device)))
  /\ exists pre rr tail,
      trace (final_world (move_file_with_modes "a" "b" false false false
                            (world_init script_cross_device)))
      = trace (world_init script_cross_device)
        ++ pre ++ ev_sys (sys_rename "a" "b") rr :: tail
      /\ pre = []
      /\ (0 = 0 \/ 0 = -1)
      /\ (ret rr = 0 -> 0 = 0 /\ tail = [])
      /\ (ret rr < 0 -> err rr <> EXDEV -> 0 = -1 /\ tail = [])
      /\ (0 = 0 -> ret rr <> 0 ->
          exists rs body ru,
            tail = ev_sys (sys_stat "a") rs :: body ++ [ev_sys (sys_unlink "a") ru]
            /\ 0 <= ret rs /\ 0 <= ret ru /\ copied "a" "b" false body)
      /\ (0 = -1 ->
          forall e, e ∈ tail -> is_removal e = true ->
                    exists ru, e = ev_sys (sys_unlink "a") ru /\ ret ru < 0).
Proof.
  assert (Forall wf_answer (script (world_init script_cross_device))) as Hwf.
  { repeat constructor; unfold wf_answer; cbn; lia. }
  assert (move_file_with_modes "a" "b" false false false (world_init script_cross_device)
          = Ret 0 (final_world (move_file_with_modes "a" "b" false false false
                                  (world_init script_cross_device)))) as Hrun.
  { vm_compute. reflexivity. }
  split; [exact Hwf|]. split; [exact Hrun|].
  exact (relocation_order "a" "b" false false false (world_init script_cross_device) 0
           (final_world (move_file_with_modes "a" "b" false false false
                           (world_init script_cross_device)))
           Hwf Hrun).
Defined.

(** The claim as first stated fails: when [fsync] fails the relocation
    still succeeds and the source is removed. *)
Lemma failed_flush_counterexample :
  ~ (forall src dst ow pt pg w rc w' evs e,
        move_file_with_modes src dst ow pt pg w = Ret rc w' ->
        trace w' = trace w ++ evs ->
        e ∈ evs -> copy_failure e = true ->
        rc = -1 /\ forall ru, ev_sys (sys_unlink src) ru ∈ evs -> ret ru < 0).
Proof.
  intros H.
  assert (move_file_with_modes "a" "b" false false false (world_init script_flush_fails)
          = Ret 0 (final_world (move_file_with_modes "a" "b" false false false
                                  (world_init script_flush_fails)))) as Hrun.
  { vm_compute. reflexivity. }
  destruct (H "a" "b" false false false (world_init script_flush_fails) 0
              (final_world (move_file_with_modes "a" "b" false false false
                              (world_init script_flush_fails)))
              (trace (final_world (move_file_with_modes "a" "b" false false false
                                     (world_init script_flush_fails))))
              (ev_sys (sys_fsync 4) (fail EIO))
              Hrun eq_refl) as [Hrc _]; [|reflexivity|discriminate Hrc].
  apply list_elem_of_In. vm_compute. repeat first [left; reflexivity | right].
Qed.

(** * Further properties of the code *)

(** ** Names and paths *)

(** [basename_const]: the result is what follows the last separator; it
    holds no separator, and the path is the result behind a prefix that is
    empty or ends in a separator. *)
Theorem basename_const_spec path :
  mem "/" (basename_const path) = false
  /\ exists pre,
      path = pre +:+ basename_const path
      /\ (pre = EmptyString \/ exists d, pre = d +:+ "/").
Proof.
  unfold basename_const. destruct (strrchr path "/") as [i|] eqn:E.
  - apply strrchr_Some in E as (Hp & Hm & _). split; [done|].
    exists (str_take i path +:+ "/"). split; [|right; by eexists].
    by rewrite app_assoc_str.
  - apply strrchr_None in E. split; [done|]. exists EmptyString. by split; [|left].
Qed.

Lemma str_drop_past s c t : str_drop (S (String.length s)) (s +:+ String c t) = t.
Proof. induction s as [|a s IH]; [done|]. exact IH. Qed.

(** [ext_of]: a name has the extension [e] exactly when it is a non-empty
    stem, a dot, and [e] without a dot in it; no dot at all, or only a
    leading one, gives no extension, and a trailing dot the empty one. *)
Theorem ext_of_spec name e :
  ext_of name = Some e <->
  exists stem, stem <> EmptyString /\ name = stem +:+ String "." e /\ mem "." e = false.
Proof.
  unfold ext_of. split.
  - destruct (strrchr name ".") as [[|i]|] eqn:E; try done. intros [= <-].
    apply strrchr_Some in E as (Hp & Hm & Hl).
    exists (str_take (S i) name). split_and!; [|done|done].
    intros H0. by rewrite H0 in Hl.
  - intros (stem & Hne & -> & Hm). rewrite (strrchr_app stem e "." Hm).
    destruct stem as [|a stem]; [done|]. cbn [String.length]. f_equal.
    apply (str_drop_past (String a stem)).
Qed.


(** [is_under]: a path lies under a prefix when it is the prefix itself or
    continues it behind a separator; a path that merely begins with the
    same characters does not. *)
Theorem is_under_iff path prefix :
  is_under path prefix = true <->
  path = prefix \/ exists rest, path = prefix +:+ "/" +:+ rest.
Proof. apply is_under_spec. Qed.

(** [split_name]: for a name that fits the buffers, stem and extension put
    together give the name back; the extension is empty or a dot followed
    by a part without a dot, and the stem of a non-empty name is not empty. *)
Theorem split_name_roundtrip name :
  strlen name < PATH_MAX ->
  (split_name name PATH_MAX PATH_MAX).1 +:+ (split_name name PATH_MAX PATH_MAX).2 = name
  /\ ((split_name name PATH_MAX PATH_MAX).2 = EmptyString
      \/ exists x, (split_name name PATH_MAX PATH_MAX).2 = String "." x
                   /\ mem "." x = false)
  /\ (name <> EmptyString -> (split_name name PATH_MAX PATH_MAX).1 <> EmptyString).
Proof.
  intros Hlen. destruct (spec_split_total name) as (stem & ext & Hs).
  rewrite (split_name_spec name stem ext Hs Hlen). cbn [fst snd].
  destruct Hs as [rest -> Hm | stem e -> Hm Hne | Hm].
  - split_and!; [by rewrite app_nil_r_str|by left|done].
  - split_and!; [done|right; by exists e|done].
  - split_and!; [by rewrite app_nil_r_str|by left|done].
Qed.

Lemma split_name_roundtrip_witness :
  strlen "archive.tar.gz" < PATH_MAX
  /\ (split_name "archive.tar.gz" PATH_MAX PATH_MAX).1
     +:+ (split_name "archive.tar.gz" PATH_MAX PATH_MAX).2 = "archive.tar.gz".
Proof.
  split; [reflexivity|].
  apply (split_name_roundtrip "archive.tar.gz"). reflexivity.
Defined.

(** [path_join] and [str_copy_checked] never overrun the buffer: a result
    is the joined (copied) path and fits [dstsz] with its terminator; what
    does not fit ends the process with [EXIT_FAILURE] and a line on
    [stderr], nothing else having been done. *)
Theorem checked_paths_fit dstsz a b w :
  match path_join dstsz a b w with
  | Ret p w' => p = a +:+ "/" +:+ b /\ strlen p + 1 <= dstsz /\ w' = w
  | Exit s w' =>
      s = EXIT_FAILURE /\ dstsz < strlen a + 1 + strlen b + 1
      /\ w' = emit (ev_stderr "Path too long: '%s' + '%s'" [a_str a; a_str b]) w
  | Stuck _ => False
  end
  /\ match str_copy_checked dstsz a w with
     | Ret p w' => p = a /\ strlen p + 1 <= dstsz /\ w' = w
     | Exit s w' =>
         s = EXIT_FAILURE /\ dstsz < strlen a + 1
         /\ w' = emit (ev_stderr "Path too long: '%s'" [a_str a]) w
     | Stuck _ => False
     end.
Proof.
  unfold path_join, str_copy_checked. cbv zeta. split.
  - destruct (Z.gtb_spec (strlen a + 1 + strlen b + 1) dstsz); cbn.
    + done.
    + split_and!; [done| |done]. rewrite !strlen_app. change (strlen "/") with 1. lia.
  - destruct (Z.gtb_spec (strlen a + 1) dstsz); cbn; [done|]. by split_and!; [|lia|].
Qed.

(** ** Comma lists *)

Lemma rev_app_eq s t : String.rev_app s t = String.rev s +:+ t.
Proof.
  revert t. induction s as [|a s IH]; intros t; [done|].
  unfold String.rev. cbn [String.rev_app]. rewrite (IH (String a t)), (IH (String a "")).
  by rewrite app_assoc_str.
Qed.

Lemma rev_cons a s : String.rev (String a s) = String.rev s +:+ String a "".
Proof. unfold String.rev at 1. cbn [String.rev_app]. apply rev_app_eq. Qed.

Lemma rev_app_distr_str s t : String.rev (s +:+ t) = String.rev t +:+ String.rev s.
Proof.
  induction s as [|a s IH]; [by rewrite app_nil_l_str, app_nil_r_str|].
  by rewrite app_cons, !rev_cons, IH, app_assoc_str.
Qed.

Lemma rev_involutive_str s : String.rev (String.rev s) = s.
Proof.
  induction s as [|a s IH]; [done|]. by rewrite rev_cons, rev_app_distr_str, IH.
Qed.

Lemma mem_rev c s : mem c (String.rev s) = mem c s.
Proof.
  induction s as [|a s IH]; [done|].
  rewrite rev_cons, mem_app, IH. cbn [mem]. rewrite orb_false_r. apply orb_comm.
Qed.


Lemma tokens_no_comma s :
  forall cur, mem "," cur = false ->
              Forall (fun t => t <> EmptyString /\ mem "," t = false) (tokens cur s).
Proof.
  assert (forall cur, mem "," cur = false ->
            Forall (fun t => t <> EmptyString /\ mem "," t = false)
                   (if String.eqb cur "" then [] else [String.rev cur])) as Hcur.
  { intros cur Hm. destruct (String.eqb_spec cur ""); constructor; [|done].
    split; [|by rewrite mem_rev].
    intros H0. apply (f_equal String.rev) in H0. by rewrite rev_involutive_str in H0. }
  induction s as [|c s IH]; intros cur Hm; cbn [tokens]; [by apply Hcur|].
  destruct (Ascii.eqb c ",") eqn:Ec.
  - apply Forall_app. split; [by apply Hcur|by apply IH].
  - apply IH. cbn [mem]. by rewrite Ec.
Qed.

Lemma skip_blank_suffix s : exists p, s = p +:+ skip_blank s.
Proof.
  induction s as [|c s [p IH]]; [by exists EmptyString|]. cbn [skip_blank].
  destruct (Ascii.eqb c " " || Ascii.eqb c "009").
  - exists (String c p). by rewrite app_cons, <- IH.
  - by exists EmptyString.
Qed.

Lemma skip_blank_nl_suffix s : exists p, s = p +:+ skip_blank_nl s.
Proof.
  induction s as [|c s [p IH]]; [by exists EmptyString|]. cbn [skip_blank_nl].
  destruct (Ascii.eqb c " " || Ascii.eqb c "009" || Ascii.eqb c "010").
  - exists (String c p). by rewrite app_cons, <- IH.
  - by exists EmptyString.
Qed.

Lemma skip_blank_head s c s' :
  skip_blank s = String c s' -> c <> " "%char /\ c <> "009"%char.
Proof.
  induction s as [|a s IH]; [done|]. cbn [skip_blank].
  destruct (Ascii.eqb a " " || Ascii.eqb a "009") eqn:E; [done|].
  intros [= -> ->]. apply orb_false_iff in E as [E1 E2].
  by rewrite !Ascii.eqb_neq in E1, E2.
Qed.

Lemma skip_blank_nl_head s c s' :
  skip_blank_nl s = String c s' ->
  c <> " "%char /\ c <> "009"%char /\ c <> "010"%char.
Proof.
  induction s as [|a s IH]; [done|]. cbn [skip_blank_nl].
  destruct (Ascii.eqb a " " || Ascii.eqb a "009" || Ascii.eqb a "010") eqn:E; [done|].
  intros [= -> ->]. apply orb_false_iff in E as [E E3]. apply orb_false_iff in E as [E1 E2].
  by rewrite !Ascii.eqb_neq in E1, E2, E3.
Qed.

Lemma trim_facts tok :
  (forall c, mem c tok = false -> mem c (trim tok) = false)
  /\ (forall c t', trim tok = String c t' -> c <> " "%char /\ c <> "009"%char)
  /\ (forall t' c, trim tok = t' +:+ String c "" ->
                   c <> " "%char /\ c <> "009"%char /\ c <> "010"%char).
Proof.
  unfold trim.
  destruct (skip_blank_suffix tok) as [p1 H1].
  destruct (skip_blank_nl_suffix (String.rev (skip_blank tok))) as [p2 H2].
  set (u := skip_blank tok) in *.
  set (v := skip_blank_nl (String.rev u)) in *.
  assert (u = String.rev v +:+ String.rev p2) as Hu.
  { rewrite <- (rev_involutive_str u), H2. apply rev_app_distr_str. }
  split_and!.
  - intros c Hc. rewrite H1, mem_app in Hc. apply orb_false_iff in Hc as [_ Hc].
    rewrite Hu, mem_app in Hc. by apply orb_false_iff in Hc as [Hc _].
  - intros c t' Hr. rewrite Hr, app_cons in Hu. by apply skip_blank_head in Hu.
  - intros t' c Hr. apply (f_equal String.rev) in Hr.
    rewrite rev_involutive_str, rev_app_distr_str in Hr.
    change (String.rev (String c "")) with (String c "") in Hr.
    by apply skip_blank_nl_head in Hr.
Qed.

(** [split_csv]: every entry of the result is non-empty, holds no comma,
    does not begin with a blank or a tab and does not end with a blank, a
    tab or a newline. *)
Theorem split_csv_entries csv :
  Forall (fun t =>
            t <> EmptyString /\ mem "," t = false
            /\ (forall c t', t = String c t' -> c <> " "%char /\ c <> "009"%char)
            /\ (forall t' c, t = t' +:+ String c "" ->
                             c <> " "%char /\ c <> "009"%char /\ c <> "010"%char))
         (split_csv csv).
Proof.
  unfold split_csv. apply Forall_forall. intros t Ht.
  apply list_elem_of_filter in Ht as [Hne Ht].
  apply list_elem_of_fmap in Ht as (tok & -> & Htok).
  pose proof (tokens_no_comma csv EmptyString eq_refl) as Hall.
  rewrite Forall_forall in Hall. destruct (Hall tok Htok) as [_ Hc].
  destruct (trim_facts tok) as (Hm & Hh & Hl).
  split_and!; [|by apply Hm|exact Hh|exact Hl].
  intros H0. rewrite H0 in Hne. done.
Qed.


(** ** Options *)

Section OptionFacts.

Variable atoi : string -> Z.
Variable parse_size parse_time_spec : string -> option Z.

Lemma parse_option_inv prog c optarg o w o' w' :
  parse_option atoi parse_size parse_time_spec prog c optarg o w = Ret o' w' ->
  1 <= threads o -> 0 <= min_depth o ->
  1 <= threads o' /\ 0 <= min_depth o'
  /\ trace w' = trace w /\ script w' = script w /\ stats w' = stats w /\ q w' = q w.
Proof.
  unfold parse_option. intros H Ht Hd.
  repeat match type of H with
         | (if ?b then _ else _) _ = _ => destruct b
         | match ?x with _ => _ end _ = _ => destruct x
         end;
    try discriminate H; try (injection H as <- <-; cbn; by split_and!).
  - injection H as <- <-. cbn. split_and!; try done.
    destruct (Z.ltb_spec (atoi optarg) 1); lia.
  - injection H as <- <-. cbn. split_and!; try done.
    destruct (Z.ltb_spec (atoi optarg) 0); lia.
Qed.

Lemma parse_loop_inv prog l :
  forall o w o' w',
    parse_loop atoi parse_size parse_time_spec prog l o w = Ret o' w' ->
    1 <= threads o -> 0 <= min_depth o ->
    1 <= threads o' /\ 0 <= min_depth o'
    /\ trace w' = trace w /\ script w' = script w /\ stats w' = stats w /\ q w' = q w.
Proof.
  induction l as [|[c optarg] l IH]; intros o w o' w' H Ht Hd.
  - injection H as <- <-. by split_and!.
  - cbn [parse_loop] in H. apply bind_Ret_inv in H as (o1 & w1 & H1 & H).
    apply parse_option_inv in H1 as (Ht1 & Hd1 & E1 & E2 & E3 & E4); [|done|done].
    apply IH in H as (? & ? & F1 & F2 & F3 & F4); [|done|done].
    split_and!; try done; congruence.
Qed.

End OptionFacts.

(** [parse_options]: options that are handed to the rest of the program
    have at least one thread and a minimum depth that is not negative,
    whatever [atoi] made of the arguments, and their source and destination
    are the two operands; nothing has been printed and no system call made
    on that way. *)
Theorem parse_options_invariants
    (atoi : string -> Z) (parse_size parse_time_spec : string -> option Z)
    (cl : cmdline) (w : world) (opt : options_t) (w' : world) :
  parse_options atoi parse_size parse_time_spec cl w = Ret opt w' ->
  1 <= threads opt /\ 0 <= min_depth opt
  /\ operands cl = [src opt; dst opt]
  /\ trace w' = trace w /\ script w' = script w /\ stats w' = stats w /\ q w' = q w.
Proof.
  unfold parse_options. intros H. apply bind_Ret_inv in H as (o & w1 & H1 & H).
  apply parse_loop_inv in H1 as (Ht & Hd & E1 & E2 & E3 & E4); [|done..].
  destruct (operands cl) as [|s [|d [|? ?]]]; try discriminate H.
  injection H as <- <-. cbn. by split_and!.
Qed.

Lemma parse_options_invariants_witness :
  exists opt w',
    parse_options (fun _ => -5) parse_none parse_none
      {| prog := "mnf"; getopt_seq := [(116, "x"); (1005, "y")]; operands := ["a"; "d"] |}
      (world_init []) = Ret opt w'
    /\ 1 <= threads opt /\ 0 <= min_depth opt.
Proof.
  eexists _, _. split; [vm_compute; reflexivity|].
  pose proof (parse_options_invariants (fun _ => -5) parse_none parse_none
                {| prog := "mnf"; getopt_seq := [(116, "x"); (1005, "y")];
                   operands := ["a"; "d"] |}
                (world_init []) _ _ ltac:(vm_compute; reflexivity)) as H.
  split; [exact (proj1 H)|exact (proj1 (proj2 H))].
Defined.

(** ** Symbolic links *)

(** [move_symlink]: the link is read first; a failure there ends the move
    with nothing changed.  Otherwise the target is unlinked when
    overwriting, the link is created anew with the text that was read, and
    only when that succeeded is the source unlinked; the move succeeds
    exactly when that last [unlink] does. *)
Theorem move_symlink_order src dst ow w rc w' :
  move_symlink src dst ow w = Ret rc w' ->
  exists rl tail,
    trace w' = trace w ++ ev_sys (sys_readlink src (PATH_MAX - 1)) rl :: tail
    /\ (rc = 0 \/ rc = -1)
    /\ (ret rl < 0 -> rc = -1 /\ tail = [])
    /\ (0 <= ret rl ->
        exists pre rs post,
          tail = pre ++ ev_sys (sys_symlink (r_str rl) dst) rs :: post
          /\ (if ow then exists r0, pre = [ev_sys (sys_unlink dst) r0] else pre = [])
          /\ (ret rs <> 0 -> rc = -1 /\ post = [])
          /\ (ret rs = 0 ->
              exists ru, post = [ev_sys (sys_unlink src) ru] /\ (rc = 0 <-> ret ru = 0))).
Proof.
  unfold move_symlink. intros H.
  apply bind_Ret_inv in H as (rl & w1 & H1 & H).
  apply syscall_Ret_inv in H1 as (s1 & Es & ->). cbv beta zeta in H.
  exists rl. revert H. destruct (Z.ltb_spec (ret rl) 0) as [Hrl|Hrl]; intros H.
  { injection H as <- <-. exists []. split_and!; [done|by right|done|lia]. }
  apply bind_Ret_inv in H as ([] & w2 & H2 & H).
  assert (exists pre,
             trace w2 = trace w ++ ev_sys (sys_readlink src (PATH_MAX - 1)) rl :: pre
             /\ (if ow then exists r0, pre = [ev_sys (sys_unlink dst) r0] else pre = []))
    as (pre & Et2 & Hpre).
  { unfold when in H2. destruct ow.
    - apply bind_Ret_inv in H2 as (r0 & w0 & H0 & [= <-]).
      apply syscall_Ret_inv in H0 as (rest & _ & ->).
      exists [ev_sys (sys_unlink dst) r0]. split; [|by exists r0].
      cbn. by rewrite <- app_assoc.
    - injection H2 as <-. by exists []. }
  apply bind_Ret_inv in H as (rs & w3 & H3 & H).
  apply syscall_Ret_inv in H3 as (s3 & _ & ->). cbv beta in H.
  revert H. destruct (Z.eqb_spec (ret rs) 0) as [Hrs|Hrs]; cbn [negb]; intros H.
  2:{ injection H as <- <-. exists (pre ++ [ev_sys (sys_symlink (r_str rl) dst) rs]).
      split_and!; [|by right|lia|].
      - cbn. rewrite Et2. by rewrite <- app_assoc.
      - intros _. exists pre, rs, []. by split_and!. }
  apply bind_Ret_inv in H as (ru & w4 & H4 & H).
  apply syscall_Ret_inv in H4 as (s4 & _ & ->). cbv beta in H.
  exists (pre ++ [ev_sys (sys_symlink (r_str rl) dst) rs; ev_sys (sys_unlink src) ru]).
  assert (forall rc, (rc = 0 \/ rc = -1) -> (rc = 0 <-> ret ru = 0) ->
            trace (answer (sys_unlink src) ru s4
                     (answer (sys_symlink (r_str rl) dst) rs s3 w2))
            = trace w ++ ev_sys (sys_readlink src (PATH_MAX - 1)) rl
                :: pre ++ [ev_sys (sys_symlink (r_str rl) dst) rs;
                           ev_sys (sys_unlink src) ru]
            /\ (rc = 0 \/ rc = -1)
            /\ (ret rl < 0 -> rc = -1 /\
                  pre ++ [ev_sys (sys_symlink (r_str rl) dst) rs;
                          ev_sys (sys_unlink src) ru] = [])
            /\ (0 <= ret rl ->
                exists pre0 rs0 post,
                  pre ++ [ev_sys (sys_symlink (r_str rl) dst) rs;
                          ev_sys (sys_unlink src) ru]
                  = pre0 ++ ev_sys (sys_symlink (r_str rl) dst) rs0 :: post
                  /\ (if ow then exists r0, pre0 = [ev_sys (sys_unlink dst) r0]
                      else pre0 = [])
                  /\ (ret rs0 <> 0 -> rc = -1 /\ post = [])
                  /\ (ret rs0 = 0 ->
                      exists ru0, post = [ev_sys (sys_unlink src) ru0]
                                  /\ (rc = 0 <-> ret ru0 = 0)))) as Hend.
  { intros rc0 Hrc Hiff. split_and!; [|done|lia|].
    - cbn. rewrite Et2. by rewrite <- !app_assoc.
    - intros _. exists pre, rs, [ev_sys (sys_unlink src) ru].
      split_and!; [done|done|done|]. intros _. by exists ru. }
  revert H. destruct (Z.eqb_spec (ret ru) 0) as [Hru|Hru]; cbn [negb]; intros H;
    injection H as <- <-; apply Hend; [by left|done|by right|].
  split; [done|]. intros ?. done.
Qed.

Lemma move_symlink_order_witness :
  exists rl tail,
    trace (final_world (move_symlink "a/l" "d/l" false
                          (world_init [ok_str "target"; ok 0; ok 0])))
    = trace (world_init [ok_str "target"; ok 0; ok 0])
      ++ ev_sys (sys_readlink "a/l" (PATH_MAX - 1)) rl :: tail
    /\ (0 = 0 \/ 0 = -1).
Proof.
  destruct (move_symlink_order "a/l" "d/l" false
              (world_init [ok_str "target"; ok 0; ok 0]) 0
              (final_world (move_symlink "a/l" "d/l" false
                              (world_init [ok_str "target"; ok 0; ok 0]))))
    as (rl & tail & Ht & Hrc & _).
  - vm_compute. reflexivity.
  - exists rl, tail. by split.
Defined.

(** ** The worker *)

Lemma path_join_Ret_inv dstsz a b w p w' :
  path_join dstsz a b w = Ret p w' -> p = a +:+ "/" +:+ b /\ w' = w.
Proof.
  unfold path_join. cbv zeta. destruct (_ >? _); [done|]. by intros [= <- <-].
Qed.

Lemma reloc_keeps_counters {A} (m : M A) w :
  performs U_reloc m ->
  moved (stats (final_world (m w))) = moved (stats w)
  /\ skipped (stats (final_world (m w))) = skipped (stats w)
  /\ failed (stats (final_world (m w))) = failed (stats w).
Proof.
  intros Hm. split_and!.
  - apply (performs_keeps U_reloc (fun w => moved (stats w)) m Hm).
    by intros [[] ?|? ?|[]| | | | | | | | | | | |] ?.
  - apply (performs_keeps U_reloc (fun w => skipped (stats w)) m Hm).
    by intros [[] ?|? ?|[]| | | | | | | | | | | |] ?.
  - apply (performs_keeps U_reloc (fun w => failed (stats w)) m Hm).
    by intros [[] ?|? ?|[]| | | | | | | | | | | |] ?.
Qed.

(** The target of a job is found without touching the counters. *)
Lemma worker_target_keeps_stats (o : options_t) (name dstc : string) w x w1 :
  match mode o with
  | MODE_SKIP =>
      target ← path_join PATH_MAX dstc name;
      r ← syscall_ (sys_access target F_OK);
      mret (target, ret r =? 0, false)
  | MODE_OVERWRITE =>
      target ← path_join PATH_MAX dstc name;
      mret (target, false, true)
  | MODE_RENAME =>
      target ← unique_path PATH_MAX dstc name;
      mret (target, false, false)
  end w = Ret x w1 ->
  stats w1 = stats w.
Proof.
  destruct (mode o); intros H.
  - apply bind_Ret_inv in H as (t & w2 & H2 & [= <- <-]).
    pose proof (performs_keeps U_unique stats _ (performs_unique_path PATH_MAX dstc name)
                  ltac:(by intros [[] ?|? ?|[]| | | | | | | | | | | |] ?) w) as Hk.
    by rewrite H2 in Hk.
  - apply bind_Ret_inv in H as (t & w2 & H2 & H).
    apply path_join_Ret_inv in H2 as [_ ->].
    apply bind_Ret_inv in H as (r & w3 & H3 & [= <- <-]).
    by apply syscall_Ret_inv in H3 as (rest & _ & ->).
  - apply bind_Ret_inv in H as (t & w2 & H2 & [= <- <-]).
    by apply path_join_Ret_inv in H2 as [_ ->].
Qed.

Lemma worker_job_counters o j w w' :
  worker_job o j w = Ret tt w' ->
  let s := stats w in
  let s' := stats w' in
  ((moved s' = (moved s + 1) mod ULONG_WRAP
    /\ skipped s' = skipped s /\ failed s' = failed s /\ dry_run o = false)
   \/ (skipped s' = (skipped s + 1) mod ULONG_WRAP
       /\ moved s' = moved s /\ failed s' = failed s)
   \/ (failed s' = (failed s + 1) mod ULONG_WRAP
       /\ moved s' = moved s /\ skipped s' = skipped s /\ dry_run o = false)).
Proof.
  unfold worker_job. cbv zeta. intros H.
  apply bind_Ret_inv in H as (dstc & w0 & H0 & H).
  assert (w0 = w) as ->.
  { unfold fmap, M_fmap, get_world in H0. by injection H0 as _ <-. }
  apply bind_Ret_inv in H as ([[target skip] ow] & w1 & H1 & H).
  apply worker_target_keeps_stats in H1. rewrite <- H1.
  destruct skip.
  { injection H as <-. right; left. by split_and!. }
  destruct (dry_run o) eqn:Edry.
  { injection H as <-. right; left. by split_and!. }
  apply bind_Ret_inv in H as (rc & w2 & H2 & H).
  assert (moved (stats w2) = moved (stats w1)
          /\ skipped (stats w2) = skipped (stats w1)
          /\ failed (stats w2) = failed (stats w1)) as (Em & Es & Ef).
  { destruct (is_symlink j).
    - pose proof (reloc_keeps_counters _ w1
                    (performs_move_symlink (src_path j) target ow)) as Hk.
      by rewrite H2 in Hk.
    - pose proof (reloc_keeps_counters _ w1
                    (performs_move_file_with_modes (src_path j) target ow
                       (preserve_times o) (progress o))) as Hk.
      by rewrite H2 in Hk. }
  rewrite <- Em, <- Es, <- Ef. cbv beta in H.
  destruct (rc =? 0).
  - injection H as <-. left. by split_and!.
  - injection H as <-. right; right. by split_and!.
Qed.

(** [worker_main]: every job that has been worked on is counted exactly
    once, as moved, as skipped or as failed; under [--dry-run] it is counted
    as skipped. *)
Theorem worker_job_counts_once o j w w' :
  worker_job o j w = Ret tt w' ->
  let s := stats w in
  let s' := stats w' in
  ((moved s' = (moved s + 1) mod ULONG_WRAP
    /\ skipped s' = skipped s /\ failed s' = failed s /\ dry_run o = false)
   \/ (skipped s' = (skipped s + 1) mod ULONG_WRAP
       /\ moved s' = moved s /\ failed s' = failed s)
   \/ (failed s' = (failed s + 1) mod ULONG_WRAP
       /\ moved s' = moved s /\ skipped s' = skipped s /\ dry_run o = false)).
Proof. apply worker_job_counters. Qed.

Lemma worker_job_counts_once_witness :
  exists w',
    worker_job (set_mode MODE_OVERWRITE options_default)
      (new_job "/a/b/f.txt" "b/f.txt" 1 false)
      (set_dst_canon "/d" (world_init [ok 0; ok 0])) = Ret tt w'
    /\ moved (stats w') = 1.
Proof.
  eexists. split; [vm_compute; reflexivity|].
  destruct (worker_job_counts_once (set_mode MODE_OVERWRITE options_default)
              (new_job "/a/b/f.txt" "b/f.txt" 1 false)
              (set_dst_canon "/d" (world_init [ok 0; ok 0])) _
              ltac:(vm_compute; reflexivity)) as [(H & _)|[(H & _)|(H & _)]];
    vm_compute in H |- *; congruence.
Defined.

(** Skip mode: a job whose target exists is counted as skipped after the
    one [access] that found the target; nothing is moved or removed. *)
Theorem skip_mode_keeps_existing o j w r rest :
  mode o = MODE_SKIP ->
  strlen (DST_CANON w) + 1 + strlen (basename_const (rel_path j)) + 1 <= PATH_MAX ->
  script w = r :: rest -> ret r = 0 ->
  exists w',
    worker_job o j w = Ret tt w'
    /\ trace w'
       = trace w
         ++ [ev_sys (sys_access (DST_CANON w +:+ "/" +:+ basename_const (rel_path j)) F_OK) r;
             ev_log 2 (negb (2 >? g_verbose w)) "Skip (exists): %s"
               [a_str (basename_const (rel_path j))]]
    /\ script w' = rest
    /\ skipped (stats w') = (skipped (stats w) + 1) mod ULONG_WRAP
    /\ moved (stats w') = moved (stats w) /\ failed (stats w') = failed (stats w).
Proof.
  intros Hmode Hfit Hs Hr. unfold worker_job. cbv zeta. rewrite Hmode.
  unfold fmap, M_fmap, get_world. rewrite bind_eq. cbv beta iota.
  rewrite bind_eq, bind_eq. rewrite (path_join_fits _ _ _ _ Hfit).
  rewrite bind_eq, (syscall_cons _ _ _ _ Hs). cbv beta iota.
  unfold mret at 1, M_ret at 1. cbv beta iota. rewrite Hr. cbn [Z.eqb].
  eexists. split; [reflexivity|]. cbn. rewrite <- app_assoc. by split_and!.
Qed.

Lemma skip_mode_keeps_existing_witness :
  exists w',
    worker_job (set_mode MODE_SKIP options_default)
      (new_job "/a/b/f.txt" "b/f.txt" 1 false)
      (set_dst_canon "/d" (world_init [ok 0])) = Ret tt w'
    /\ script w' = [].
Proof.
  destruct (skip_mode_keeps_existing (set_mode MODE_SKIP options_default)
              (new_job "/a/b/f.txt" "b/f.txt" 1 false)
              (set_dst_canon "/d" (world_init [ok 0])) (ok 0) [])
    as (w' & H & _ & Hs & _); [reflexivity|vm_compute; congruence|reflexivity..|].
  by exists w'.
Defined.

(** ** Dry run *)

Lemma U_traverse_dryrun o d u : U_traverse o d u -> U_dryrun u.
Proof. by destruct u as [? ?|? ?|[]| | | | | | | | | | | |]. Qed.

Lemma U_dry_dryrun u : U_dry u -> U_dryrun u.
Proof. by destruct u as [[] ?|? ?|[]| | | | | | | | | | | |]. Qed.

Lemma performs_worker_loop_dry fuel o :
  dry_run o = true -> performs U_dryrun (worker_loop fuel o).
Proof.
  intros Hdry. induction fuel as [|fuel IH]; cbn [worker_loop].
  - apply performs_stuck.
  - performs_go; try done; try apply IH.
    eapply performs_weaken; [apply U_dry_dryrun|by apply performs_worker_job_dry].
Qed.

Lemma parse_option_dry atoi parse_size parse_time_spec prog c optarg o w o' w' :
  parse_option atoi parse_size parse_time_spec prog c optarg o w = Ret o' w' ->
  dry_run o = true \/ c = 110 -> dry_run o' = true.
Proof.
  unfold parse_option. intros H Hd.
  destruct (Z.eqb_spec c 110) as [->|Hc].
  { cbn in H. by injection H as <- <-. }
  destruct Hd as [Hd|?]; [|done].
  repeat match type of H with
         | (if ?b then _ else _) _ = _ => destruct b
         | match ?x with _ => _ end _ = _ => destruct x
         end;
    try discriminate H; by injection H as <- <-.
Qed.

Lemma parse_loop_dry atoi parse_size parse_time_spec prog l :
  forall o w o' w',
    parse_loop atoi parse_size parse_time_spec prog l o w = Ret o' w' ->
    dry_run o = true \/ (exists a, (110, a) ∈ l) -> dry_run o' = true.
Proof.
  induction l as [|[c optarg] l IH]; intros o w o' w' H Hd.
  - injection H as <- <-. destruct Hd as [?|[a Ha]]; [done|]. by apply elem_of_nil in Ha.
  - cbn [parse_loop] in H. apply bind_Ret_inv in H as (o1 & w1 & H1 & H).
    apply (IH _ _ _ _ H).
    destruct Hd as [Hd|[a Ha]].
    + left. eapply parse_option_dry; eauto.
    + apply elem_of_cons in Ha as [[= <- <-]|Ha]; [|right; eauto].
      left. eapply parse_option_dry; eauto.
Qed.

(** The options [setup] hands on are those [parse_options] returned. *)
Lemma setup_options atoi parse_size parse_time_spec cl w opt w1 :
  setup atoi parse_size parse_time_spec cl w = Ret opt w1 ->
  exists w0, parse_options atoi parse_size parse_time_spec cl w = Ret opt w0.
Proof.
  unfold setup. intros H. apply bind_Ret_inv in H as (o & w0 & H0 & H).
  exists w0. rewrite H0. f_equal.
  repeat (apply bind_Ret_inv in H as (? & ? & _ & H)).
  by injection H as <- _.
Qed.

(** A run with [-n] (or [--dry-run]), from the point where the two roots
    are set up: nothing in the file system is changed any more.  The
    directory is walked, targets are looked for, and every job is counted
    as skipped; nothing is counted as moved or failed, no byte is copied
    and the pruner is not run. *)
Theorem dry_run_after_setup
    (fnmatch : string -> string -> Z) (atoi : string -> Z)
    (parse_size parse_time_spec : string -> option Z)
    (cl : cmdline) (seen left : dirview) (a : string) (w : world)
    (opt : options_t) (w1 : world) :
  (110, a) ∈ getopt_seq cl ->
  setup atoi parse_size parse_time_spec cl w = Ret opt w1 ->
  let w' := final_world (main fnmatch atoi parse_size parse_time_spec cl seen left w) in
  dry_run opt = true
  /\ tr_rel (fun e => is_mutation e = false) w1 w'
  /\ moved (stats w') = moved (stats w1)
  /\ failed (stats w') = failed (stats w1)
  /\ bytes_copied (stats w') = bytes_copied (stats w1).
Proof.
  intros Hn Hsetup w'.
  assert (dry_run opt = true) as Hdry.
  { destruct (setup_options _ _ _ _ _ _ _ Hsetup) as (w0 & Hp).
    unfold parse_options in Hp. apply bind_Ret_inv in Hp as (o & w2 & Hl & Hp).
    apply parse_loop_dry in Hl; [|right; eauto].
    destruct (operands cl) as [|s [|d [|? ?]]]; try discriminate Hp.
    by injection Hp as <- _. }
  split; [done|]. subst w'. unfold main. rewrite (bind_Ret _ _ _ _ _ Hsetup).
  match goal with
  | |- context [final_world (?m w1)] =>
      assert (performs U_dryrun m) as Hm
  end.
  { apply performs_bind; [apply performs_get_world|]. intros w2. cbv zeta.
    apply performs_bind.
    { eapply performs_weaken; [apply U_traverse_dryrun|].
      apply performs_traverse_and_queue. }
    intros _. apply performs_bind; [by apply performs_finish_jobs|]. intros _.
    apply performs_bind.
    { apply performs_repeat_M. intros w3. by apply performs_worker_loop_dry. }
    intros _. rewrite Hdry, andb_false_r. performs_go; done. }
  split_and!.
  - apply (performs_trace U_dryrun _ _ Hm).
    intros u w0 e Hu He.
    destruct u as [[] ?|[] ?|[]| | | | | | | | | | | |]; try done;
      cbn in He; try (by injection He as <-).
    destruct (pop_node (q w0)) as [[] ?]; try done; by injection He as <-.
  - apply (performs_keeps U_dryrun (fun w => moved (stats w)) _ Hm).
    intros [[] ?|? ?|[]| | | | | | | | | | | |] w0 Hu; try done.
    cbn. by destruct (pop_node (q w0)) as [[] ?].
  - apply (performs_keeps U_dryrun (fun w => failed (stats w)) _ Hm).
    intros [[] ?|? ?|[]| | | | | | | | | | | |] w0 Hu; try done.
    cbn. by destruct (pop_node (q w0)) as [[] ?].
  - apply (performs_keeps U_dryrun (fun w => bytes_copied (stats w)) _ Hm).
    intros [[] ?|? ?|[]| | | | | | | | | | | |] w0 Hu; try done.
    cbn. by destruct (pop_node (q w0)) as [[] ?].
Qed.

Lemma dry_run_after_setup_witness :
  exists opt w1,
    setup atoi_none parse_none parse_none cmd_dry
      (world_init [ok_str "/a"; fail ENOENT; ok 0; ok_str "/d"; ok 0; fail ENOENT])
    = Ret opt w1
    /\ dry_run opt = true
    /\ tr_rel (fun e => is_mutation e = false) w1
         (final_world
            (main fnmatch_literal atoi_none parse_none parse_none cmd_dry tree_ab tree_ab
               (world_init [ok_str "/a"; fail ENOENT; ok 0; ok_str "/d"; ok 0;
                            fail ENOENT]))).
Proof.
  eexists _, _.
  assert (setup atoi_none parse_none parse_none cmd_dry
            (world_init [ok_str "/a"; fail ENOENT; ok 0; ok_str "/d"; ok 0; fail ENOENT])
          = Ret _ _) as Hsetup by (vm_compute; reflexivity).
  split; [exact Hsetup|].
  destruct (dry_run_after_setup fnmatch_literal atoi_none parse_none parse_none
              cmd_dry tree_ab tree_ab EmptyString _ _ _
              ltac:(apply list_elem_of_In; left; reflexivity) Hsetup)
    as (Hd & Ht & _).
  by split.
Defined.

(** ** Pruning *)

Lemma starts_with_app p r : starts_with p (p +:+ r) = true.
Proof. apply starts_with_spec. by exists r. Qed.

Lemma starts_with_trans p q s :
  starts_with p q = true -> starts_with q s = true -> starts_with p s = true.
Proof.
  rewrite !starts_with_spec. intros [r1 ->] [r2 ->]. exists (r1 +:+ r2).
  by rewrite app_assoc_str.
Qed.

Lemma U_prune_in_deeper dir name u :
  U_prune_in (dir +:+ "/" +:+ name) u -> U_prune_in dir u.
Proof.
  assert (starts_with dir (dir +:+ "/" +:+ name) = true) as H1
    by apply starts_with_app.
  assert (starts_with (dir +:+ "/") ((dir +:+ "/" +:+ name) +:+ "/") = true) as H2.
  { apply starts_with_spec. exists (name +:+ "/"). by rewrite !app_assoc_str. }
  unfold U_prune_in.
  destruct u as [? ?|[] ?|[]| | | | | | | | | | | |]; try done;
    rewrite !Is_true_true; intros H; eapply starts_with_trans; eauto.
Qed.

(** [path_join] in front of the rest of a function: the rest runs on the
    joined path, or the process ends. *)
Lemma performs_bind_path_join {B} U dstsz a b (f : string -> M B) :
  U (u_emit (ev_stderr "Path too long: '%s' + '%s'" [a_str a; a_str b])) ->
  U (u_exit EXIT_FAILURE) ->
  performs U (f (a +:+ "/" +:+ b)) ->
  performs U (path_join dstsz a b ≫= f).
Proof.
  intros H1 H2 Hf. unfold path_join. cbv zeta. destruct (_ >? _).
  - intros w.
    destruct (performs_die (A:=B) U "Path too long: '%s' + '%s'" [a_str a; a_str b]
                H1 H2 w) as (us & E & HU & X).
    exists us. split_and!; [exact E|exact HU|]. intros s w' Hx. by apply (X s w').
  - intros w. destruct (Hf w) as (us & E & HU & X). by exists us.
Qed.

Lemma performs_prune_entry_in e :
  forall dir, performs (U_prune_in dir) (prune_entry dir e).
Proof.
  induction e as [name lst rp od ents rm IH] using dirent_ind'.
  intros dir. cbn [prune_entry]. unfold path_is_empty_dir.
  assert (Is_true (starts_with (dir +:+ "/") (dir +:+ "/" +:+ name))) as Hp.
  { apply Is_true_true, starts_with_spec. exists name. by rewrite app_assoc_str. }
  assert (Is_true (starts_with dir (dir +:+ "/" +:+ name))) as Hd.
  { apply Is_true_true, starts_with_app. }
  destruct (is_dot_or_dotdot name); [apply performs_ret|].
  apply performs_bind_path_join; [done|done|].
  performs_go; try done.
  apply (performs_weaken (U_prune_in (dir +:+ "/" +:+ name)));
    [apply U_prune_in_deeper|].
  clear -IH. induction IH as [|e' l' He' _ IHl]; [apply performs_ret|].
  apply performs_bind; [apply He' | intros k].
  apply performs_bind; [apply IHl | intros rest; apply performs_ret].
Qed.

(** [prune_empty]: the pruner makes no system call but [opendir], [lstat],
    [realpath] and [rmdir], and every [rmdir] is for a path below the
    directory it was started on: neither that directory itself nor a file
    is ever removed. *)
Theorem prune_stays_below dir od ents w :
  tr_rel (prune_event dir) w (final_world (prune_empty dir od ents w)).
Proof.
  apply (performs_trace (U_prune_in dir)).
  - unfold prune_empty.
    assert (Is_true (starts_with dir dir)) as Hd.
    { apply Is_true_true, starts_with_spec. exists EmptyString.
      by rewrite app_nil_r_str. }
    performs_go; try done.
    induction ents as [|e l IH]; cbn [prune_loop]; [apply performs_ret|].
    apply performs_bind; [apply performs_prune_entry_in | intros k].
    apply performs_bind; [apply IH | intros rest; apply performs_ret].
  - intros u w0 e Hu He.
    destruct u as [? ?|[] ?|[]| | | | | | | | | | | |]; try done;
      cbn in He; injection He as <-; try done.
    cbn. apply Is_true_true, starts_with_spec in Hu as [rest Hr].
    exists rest. by rewrite Hr, app_assoc_str.
Qed.

(** [path_is_empty_dir]: a directory counts as empty exactly when it could
    be opened and lists nothing but [.] and [..]; one that cannot be opened
    is not empty, so it is never removed. *)
Theorem path_is_empty_dir_spec dir od ents w :
  exists b,
    path_is_empty_dir dir od ents w = Ret b (answer (sys_opendir dir) od (script w) w)
    /\ (b = true <->
        0 <= ret od /\ Forall (fun e => d_name e = "." \/ d_name e = "..") ents).
Proof.
  unfold path_is_empty_dir, observe, modify, mbind, M_bind, mret, M_ret.
  destruct (Z.ltb_spec (ret od) 0) as [Hod|Hod].
  { exists false. split; [done|]. split; [done|]. intros [? _]. lia. }
  exists (count_entries ents =? 0). split; [done|].
  rewrite Z.eqb_eq. unfold count_entries.
  assert (Z.of_nat (length (filter (fun e => negb (is_dot_or_dotdot (d_name e))) ents)) = 0
          <-> Forall (fun e => d_name e = "." \/ d_name e = "..") ents) as ->;
    [|tauto].
  induction ents as [|e l IH]; [by split; [constructor|]|].
  rewrite Forall_cons, <- IH.
  assert (is_dot_or_dotdot (d_name e) = true <-> d_name e = "." \/ d_name e = "..") as Hdot.
  { unfold is_dot_or_dotdot. rewrite orb_true_iff, !String.eqb_eq. tauto. }
  destruct (is_dot_or_dotdot (d_name e)) eqn:E.
  - rewrite filter_cons_False by (rewrite E; cbn; tauto). tauto.
  - rewrite filter_cons_True by (by rewrite E). cbn [length]. split; [lia|].
    intros [H _]. apply Hdot in H. done.
Qed.

(** ** Traversal *)




Section WalkFacts.

Variable fnmatch : string -> string -> Z.



End WalkFacts.



(** ** Copying *)

(** The inner loop of [copy_file_rw]: however the kernel splits the writes
    and however often it interrupts them, a chunk that is reported written
    has been written in full, to the descriptor of the destination, and
    the counters are untouched. *)
Theorem write_loop_writes_all fuel in_ out buf w w' :
  (length (script w) < fuel)%nat -> buf <> [] ->
  write_loop fuel in_ out buf (Z.of_nat (length buf)) 0 w = Ret true w' ->
  exists evs,
    trace w' = trace w ++ evs
    /\ written evs = buf
    /\ Forall (stream_ok in_ out) evs
    /\ stats w' = stats w.
Proof.
  intros Hfuel Hne Hrun.
  assert (0 < Z.of_nat (length buf)) as Hpos by (destruct buf; [done|cbn; lia]).
  destruct (write_loop_spec fuel in_ out buf (Z.of_nat (length buf)) 0 w Hfuel Hpos)
    as (evs & Et & Es & _ & _ & Ho).
  rewrite Hrun in Et, Es, Ho. cbn [final_world] in Et, Es.
  destruct Ho as (_ & Hw & Hok). exists evs. split_and!; [done| |done|done].
  by rewrite Hw.
Qed.

Lemma write_loop_writes_all_witness :
  exists evs,
    trace (final_world (write_loop 5 3 4 four_bytes 4 0
                          (world_init [ok 1; fail EINTR; ok 3])))
    = trace (world_init [ok 1; fail EINTR; ok 3]) ++ evs
    /\ written evs = four_bytes.
Proof.
  destruct (write_loop_writes_all 5 3 4 four_bytes
              (world_init [ok 1; fail EINTR; ok 3])
              (final_world (write_loop 5 3 4 four_bytes 4 0
                              (world_init [ok 1; fail EINTR; ok 3]))))
    as (evs & Et & Hw & _).
  - cbn. lia.
  - done.
  - vm_compute. reflexivity.
  - by exists evs.
Defined.

Lemma performs_write_loop_paths src dst mode fuel in_ out buf r w :
  performs (U_copy_paths src dst mode) (write_loop fuel in_ out buf r w).
Proof.
  revert w. induction fuel as [|fuel IH]; intros w; cbn [write_loop].
  - apply performs_stuck.
  - performs_go; try done; apply IH.
Qed.

Lemma performs_read_loop_paths src dst mode fuel in_ out size pg total :
  performs (U_copy_paths src dst mode) (read_loop fuel in_ out size pg total).
Proof.
  revert total. induction fuel as [|fuel IH]; intros total; cbn [read_loop].
  - apply performs_stuck.
  - cbv zeta. performs_go; try done; try apply IH. apply performs_write_loop_paths.
Qed.

(** [copy_file_rw]: the copy names two files only: it opens the source
    for reading and creates or truncates the destination with the
    permission bits of the given mode; everything else goes through the two
    descriptors.  It removes and renames nothing. *)
Theorem copy_names_two_files src dst mode pt pg w :
  tr_rel (copy_event src dst mode) w (final_world (copy_file_rw src dst mode pt pg w)).
Proof.
  apply (performs_trace (U_copy_paths src dst mode)).
  - unfold copy_file_rw. cbv zeta. performs_go; try done.
    apply performs_read_loop_paths.
  - intros u w0 e Hu He.
    destruct u as [[] ?|? ?|[]| | | | | | | | | | | |]; try done;
      cbn in He; by injection He as <-.
Qed.

(** ** The nodes of the queue *)

Lemma push_node_dom n j qu :
  dom (q_heap (push_node n j qu)) = {[n]} ∪ dom (q_heap qu).
Proof.
  unfold push_node. destruct (q_tail qu); cbn [q_heap].
  - by rewrite dom_alter_L, dom_insert_L.
  - by rewrite dom_insert_L.
Qed.

Lemma pop_node_dom qu a j cells :
  queue_inv qu ((a, j) :: cells) ->
  dom (q_heap (pop_node qu).2) = dom (q_heap qu) ∖ {[a]}.
Proof.
  intros (Hc & _ & _). inversion Hc as [|? ? nxt ? Ha Hrest Hh]; subst.
  unfold pop_node. rewrite <- Hh, Ha. cbn [snd q_heap]. by rewrite dom_delete_L.
Qed.

Lemma run_ops_heap ops :
  forall qu cells,
    queue_inv qu cells -> dom (q_heap qu) = list_to_set cells.*1 ->
    fresh_ops ops qu ->
    exists cells',
      queue_inv (run_ops ops qu).2 cells'
      /\ dom (q_heap (run_ops ops qu).2) = list_to_set cells'.*1
      /\ (length cells + length (pushed_jobs ops)
          = length (popped_jobs (run_ops ops qu).1) + length cells')%nat.
Proof.
  induction ops as [|[n j| |] ops IH]; intros qu cells Hinv Hdom Hfresh; cbn [run_ops].
  - exists cells. split_and!; [done|done|]. cbn. lia.
  - destruct Hfresh as [Hn Hfresh].
    destruct (IH _ (cells ++ [(n, j)]) (push_node_inv _ _ _ j Hinv Hn)) as (cells' & H1 & H2 & H3).
    + rewrite push_node_dom, Hdom, fmap_app, list_to_set_app_L. cbn. set_solver.
    + done.
    + exists cells'. split_and!; [done|done|]. rewrite length_app in H3.
      change (pushed_jobs (op_push n j :: ops)) with (j :: pushed_jobs ops).
      cbn [length] in H3 |- *. lia.
  - cbn [fresh_ops] in Hfresh. destruct cells as [|[a j] cells].
    + rewrite (pop_node_empty _ Hinv) in Hfresh |- *. cbn [snd] in Hfresh.
      destruct (IH _ _ Hinv Hdom Hfresh) as (cells' & H1 & H2 & H3).
      destruct (run_ops ops qu) as [rs qu'] eqn:E. cbn [fst snd] in *.
      exists cells'. split_and!; [done|done|].
      destruct (q_done qu); cbn in *; exact H3.
    + pose proof (pop_node_dom _ _ _ _ Hinv) as Hd.
      destruct (pop_node_inv _ _ _ _ Hinv) as (qu1 & E1 & Hinv1 & _).
      rewrite E1 in Hfresh, Hd |- *. cbn [snd] in Hfresh, Hd.
      destruct Hinv as (_ & Hnd & _). cbn in Hnd. apply NoDup_cons in Hnd as [Ha _].
      destruct (IH _ _ Hinv1) as (cells' & H1 & H2 & H3).
      * rewrite Hd, Hdom. cbn. set_solver.
      * done.
      * destruct (run_ops ops qu1) as [rs qu'] eqn:E. cbn [fst snd] in *.
        exists cells'. split_and!; [done|done|].
        change (pushed_jobs (op_pop :: ops)) with (pushed_jobs ops).
        change (popped_jobs (popped j :: rs)) with (j :: popped_jobs rs).
        cbn [length]. lia.
  - cbn [fresh_ops] in Hfresh.
    destruct (IH _ _ (finish_queue_inv _ _ Hinv) Hdom Hfresh) as (cells' & H1 & H2 & H3).
    exists cells'. by split_and!.
Qed.

(** The job queue frees what it allocates: after any sequence of pushes,
    pops and the done signal, the heap holds exactly one node for each job
    that was pushed and not yet popped; a queue that has handed out all its
    jobs has no node left. *)
Theorem queue_frees_nodes (ops : list qop) :
  fresh_ops ops q_init ->
  (size (q_heap (run_ops ops q_init).2)
   + length (popped_jobs (run_ops ops q_init).1)
   = length (pushed_jobs ops))%nat.
Proof.
  intros Hfresh.
  destruct (run_ops_heap ops q_init [] queue_inv_init) as (cells & Hinv & Hdom & Hlen);
    [cbn; apply dom_empty_L|done|].
  destruct Hinv as (_ & Hnd & _).
  rewrite <- size_dom, Hdom, size_list_to_set by done.
  rewrite length_fmap. cbn in Hlen. lia.
Qed.

Lemma queue_frees_nodes_witness :
  (size (q_heap (run_ops [op_push 1%positive (new_job "a" "a" 1 false); op_pop] q_init).2)
   + length (popped_jobs
               (run_ops [op_push 1%positive (new_job "a" "a" 1 false); op_pop] q_init).1)
   = length (pushed_jobs [op_push 1%positive (new_job "a" "a" 1 false); op_pop]))%nat.
Proof.
  apply (queue_frees_nodes [op_push 1%positive (new_job "a" "a" 1 false); op_pop]).
  cbn. split; [done|]. exact I.
Defined.

(** ** Setting up the two roots *)

(** [main] up to the start of the workers: the source is resolved first,
    then the destination is looked for and created with mode 0775 only when
    it is missing, then resolved, then checked for write permission; a run
    goes on only if the source resolved, a missing destination could be
    created, the destination resolved and is writable or the run is a dry
    run.  The canonical roots are what [realpath] returned. *)
Theorem setup_order
    (atoi : string -> Z) (parse_size parse_time_spec : string -> option Z)
    (cl : cmdline) (w : world) (opt : options_t) (w1 : world) :
  setup atoi parse_size parse_time_spec cl w = Ret opt w1 ->
  exists r1 r2 mk r3 r4 logs,
    trace w1
    = trace w
      ++ [ev_sys (sys_realpath (src opt)) r1; ev_sys (sys_access (dst opt) F_OK) r2]
      ++ mk
      ++ [ev_sys (sys_realpath (dst opt)) r3; ev_sys (sys_access (r_str r3) W_OK) r4]
      ++ logs
    /\ 0 <= ret r1 /\ SRC_CANON w1 = r_str r1
    /\ (if ret r2 =? 0 then mk = []
        else exists rm, mk = [ev_sys (sys_mkdir (dst opt) 509) rm] /\ ret rm = 0)
    /\ 0 <= ret r3 /\ DST_CANON w1 = r_str r3
    /\ (ret r4 = 0 \/ dry_run opt = true)
    /\ Forall (fun e => is_mutation e = false) logs
    /\ stats w1 = stats w.
Proof.
  unfold setup. intros H.
  apply bind_Ret_inv in H as (o & w0 & H0 & H).
  assert (trace w0 = trace w /\ stats w0 = stats w) as [Et0 Es0].
  { unfold parse_options in H0. apply bind_Ret_inv in H0 as (o' & w' & Hl & Hp).
    apply parse_loop_inv in Hl as (_ & _ & E1 & _ & E3 & _); [|done..].
    destruct (operands cl) as [|s [|d [|? ?]]]; try discriminate Hp.
    by injection Hp as _ <-. }
  (* realpath (src) *)
  apply bind_Ret_inv in H as (r1 & wa & Ha & H).
  apply syscall_Ret_inv in Ha as (sa & _ & ->).
  apply bind_Ret_inv in H as ([] & wb & Hb & H).
  revert Hb. destruct (Z.ltb_spec (ret r1) 0) as [?|Hr1]; [done|]. intros [= <-].
  (* access (dst) and mkdir *)
  apply bind_Ret_inv in H as (r2 & wc & Hc & H).
  apply syscall_Ret_inv in Hc as (sc & _ & ->).
  apply bind_Ret_inv in H as ([] & wd & Hd & H).
  set (wc := answer (sys_access (dst o) F_OK) r2 sc _) in *.
  assert (exists mk,
             trace wd = trace wc ++ mk /\ stats wd = stats wc
             /\ SRC_CANON wd = SRC_CANON wc
             /\ (if ret r2 =? 0 then mk = []
                 else exists rm, mk = [ev_sys (sys_mkdir (dst o) 509) rm] /\ ret rm = 0))
    as (mk & Etd & Esd & Esrc & Hmk).
  { revert Hd. destruct (Z.eqb_spec (ret r2) 0) as [?|?]; cbn [negb]; intros Hd.
    - injection Hd as <-. exists []. by rewrite app_nil_r.
    - apply bind_Ret_inv in Hd as (rm & we & He & Hd).
      apply syscall_Ret_inv in He as (se & _ & ->).
      revert Hd. destruct (Z.eqb_spec (ret rm) 0) as [?|?]; cbn [negb]; [|done].
      intros [= <-]. exists [ev_sys (sys_mkdir (dst o) 509) rm].
      split_and!; [done|done|done|by exists rm]. }
  (* realpath (dst) *)
  apply bind_Ret_inv in H as (r3 & wf & Hf & H).
  apply syscall_Ret_inv in Hf as (sf & _ & ->).
  apply bind_Ret_inv in H as ([] & wg & Hg & H).
  revert Hg. destruct (Z.ltb_spec (ret r3) 0) as [?|Hr3]; [done|]. intros [= <-].
  (* access (DST_CANON, W_OK) *)
  apply bind_Ret_inv in H as (wh & wh' & Hh & H).
  unfold get_world in Hh. injection Hh as <- <-.
  apply bind_Ret_inv in H as (r4 & wi & Hi & H).
  apply syscall_Ret_inv in Hi as (si & _ & ->).
  apply bind_Ret_inv in H as ([] & wj & Hj & H).
  assert (wj = answer (sys_access (r_str r3) W_OK) r4 si
                 (set_dst_canon (r_str r3) (answer (sys_realpath (dst o)) r3 sf wd))
          /\ (ret r4 = 0 \/ dry_run o = true)) as [-> Hperm].
  { revert Hj. cbn [DST_CANON set_dst_canon].
    destruct (Z.eqb_spec (ret r4) 0) as [?|?]; cbn [negb andb].
    - intros [= <-]. split; [done|by left].
    - destruct (dry_run o); cbn [negb]; [|done]. intros [= <-]. split; [done|by right]. }
  (* the log lines *)
  apply bind_Ret_inv in H as ([] & wk & Hk & H).
  apply bind_Ret_inv in H as ([] & wl & Hl & H).
  apply bind_Ret_inv in H as ([] & wm & Hm & H).
  injection H as <- <-.
  unfold log_msg, vlog_msg, modify in Hk, Hl. injection Hk as <-. injection Hl as <-.
  exists r1, r2, mk, r3, r4.
  unfold when in Hm.
  destruct (is_under _ _).
  - unfold log_msg, vlog_msg, modify in Hm. injection Hm as <-.
    eexists. split.
    { cbn. rewrite Etd. cbn. rewrite Et0, <- !app_assoc. cbn [app]. reflexivity. }
    split_and!; try done; [by repeat constructor|].
    cbn. by rewrite Esd.
  - injection Hm as <-.
    eexists. split.
    { cbn. rewrite Etd. cbn. rewrite Et0, <- !app_assoc. cbn [app]. reflexivity. }
    split_and!; try done; [by repeat constructor|].
    cbn. by rewrite Esd.
Qed.

Lemma setup_order_witness :
  exists opt w1 r1,
    setup atoi_none parse_none parse_none cmd_plain
      (world_init [ok_str "/a"; fail ENOENT; ok 0; ok_str "/d"; ok 0]) = Ret opt w1
    /\ 0 <= ret r1 /\ SRC_CANON w1 = r_str r1.
Proof.
  assert (setup atoi_none parse_none parse_none cmd_plain
            (world_init [ok_str "/a"; fail ENOENT; ok 0; ok_str "/d"; ok 0])
          = Ret _ _) as Hsetup by (vm_compute; reflexivity).
  destruct (setup_order _ _ _ _ _ _ _ Hsetup)
    as (r1 & r2 & mk & r3 & r4 & logs & _ & H1 & H2 & _).
  eexists _, _, r1. split; [exact Hsetup|]. by split.
Defined.

(** ** The end of a worker *)

Lemma worker_loop_drained fuel o :
  forall w w',
    worker_loop fuel o w = Ret tt w' ->
    q_head (q w') = None /\ q_done (q w') = true.
Proof.
  induction fuel as [|fuel IH]; intros w w' H; [done|].
  cbn [worker_loop] in H. apply bind_Ret_inv in H as (j & w1 & Hpop & H).
  destruct j as [j|].
  - apply bind_Ret_inv in H as ([] & w2 & _ & H). by apply IH in H.
  - injection H as <-. unfold pop_job in Hpop.
    apply bind_Ret_inv in Hpop as (w0 & w0' & Hg & Hpop).
    unfold get_world in Hg. injection Hg as <- <-.
    unfold pop_node in Hpop.
    destruct (q_head (q w)) as [h|] eqn:Eh.
    + destruct (q_heap (q w) !! h); [|done].
      apply bind_Ret_inv in Hpop as ([] & ? & _ & Hpop). done.
    + destruct (q_done (q w)) eqn:Ed; [|done]. by injection Hpop as <-.
Qed.

(** [worker_main]: a worker comes to its end only when the queue is empty
    and the done signal has been given. *)
Theorem worker_ends_when_drained o w w' :
  worker_main o w = Ret tt w' ->
  q_head (q w') = None /\ q_done (q w') = true
  /\ pop_node (q w') = (pop_end, q w').
Proof.
  unfold worker_main. intros H. apply worker_loop_drained in H as [Hh Hd].
  split_and!; [done|done|]. unfold pop_node. by rewrite Hh, Hd.
Qed.

Lemma worker_ends_when_drained_witness :
  q_done (q (final_world (worker_main options_default
                            (set_q (finish_queue q_init) (world_init []))))) = true.
Proof.
  destruct (worker_ends_when_drained options_default
              (set_q (finish_queue q_init) (world_init []))
              (final_world (worker_main options_default
                              (set_q (finish_queue q_init) (world_init [])))))
    as (_ & Hd & _); [vm_compute; reflexivity|exact Hd].
Defined.

(** A target path that does not fit [PATH_MAX] is fatal, in every mode:
    the worker ends the whole process with [EXIT_FAILURE] and the line
    "Path too long" on [stderr]; the job is not counted as failed, and no
    system call is made for it. *)
Theorem worker_job_path_too_long o j w :
  PATH_MAX < strlen (DST_CANON w) + 1 + strlen (basename_const (rel_path j)) + 1 ->
  worker_job o j w
  = Exit EXIT_FAILURE
      (emit (ev_stderr "Path too long: '%s' + '%s'"
               [a_str (DST_CANON w); a_str (basename_const (rel_path j))]) w).
Proof.
  intros Hlong. unfold worker_job. cbv zeta.
  unfold fmap, M_fmap, get_world. rewrite bind_eq. cbv beta iota.
  rewrite bind_eq.
  assert (forall B (f : string -> M B),
             (path_join PATH_MAX (DST_CANON w) (basename_const (rel_path j)) ≫= f) w
             = Exit EXIT_FAILURE
                 (emit (ev_stderr "Path too long: '%s' + '%s'"
                          [a_str (DST_CANON w); a_str (basename_const (rel_path j))]) w))
    as Hjoin.
  { intros B f. rewrite bind_eq. unfold path_join. cbv zeta.
    destruct (Z.gtb_spec (strlen (DST_CANON w) + 1
                          + strlen (basename_const (rel_path j)) + 1) PATH_MAX); [done|lia]. }
  destruct (mode o).
  - unfold unique_path. destruct (split_name _ _ _) as [base ext].
    rewrite bind_eq, Hjoin. done.
  - by rewrite Hjoin.
  - by rewrite Hjoin.
Qed.

Lemma worker_job_path_too_long_witness :
  exists w',
    worker_job options_default (new_job "/a/b/f" "b/f" 1 false)
      (set_dst_canon (string_of_list_ascii (repeat "x"%char 4096)) (world_init []))
    = Exit EXIT_FAILURE w'.
Proof.
  eexists.
  apply (worker_job_path_too_long options_default (new_job "/a/b/f" "b/f" 1 false)
           (set_dst_canon (string_of_list_ascii (repeat "x"%char 4096)) (world_init []))).
  vm_compute. reflexivity.
Defined.

(** ** The summary *)


















Lemma idle_tally w w' : idle w w' -> tally w' = tally w.
Proof. intros [E _]. unfold tally. by rewrite E. Qed.



(** ** Removing directories *)

Lemma performs_write_loop_calls fuel in_ out buf r w :
  performs U_calls (write_loop fuel in_ out buf r w).
Proof.
  revert w. induction fuel as [|fuel IH]; intros w; cbn [write_loop].
  - apply performs_stuck.
  - performs_go; try done; apply IH.
Qed.

Lemma performs_read_loop_calls fuel in_ out size pg total :
  performs U_calls (read_loop fuel in_ out size pg total).
Proof.
  revert total. induction fuel as [|fuel IH]; intros total; cbn [read_loop].
  - apply performs_stuck.
  - cbv zeta. performs_go; try done; try apply IH. apply performs_write_loop_calls.
Qed.

Lemma performs_move_file_calls src dst ow pt pg :
  performs U_calls (move_file_with_modes src dst ow pt pg).
Proof.
  unfold move_file_with_modes, copy_file_rw. cbv zeta. performs_go; try done.
  apply performs_read_loop_calls.
Qed.

Lemma performs_move_symlink_calls src dst ow :
  performs U_calls (move_symlink src dst ow).
Proof. unfold move_symlink. cbv zeta. performs_go; done. Qed.

Lemma U_unique_calls u : U_unique u -> U_calls u.
Proof. destruct u as [[] ?|? ?|[]| | | | | | | | | | | |]; done. Qed.

Lemma performs_worker_loop_calls fuel o : performs U_calls (worker_loop fuel o).
Proof.
  induction fuel as [|fuel IH]; cbn [worker_loop]; [apply performs_stuck|].
  performs_go; try done; try apply IH.
  unfold worker_job. cbv zeta.
  apply performs_bind; [performs_go|intros dstc].
  apply performs_bind.
  - destruct (mode o); performs_go; try done.
    eapply performs_weaken; [apply U_unique_calls | apply performs_unique_path].
  - intros [[target skip] ow]. performs_go; try done.
    + apply performs_move_symlink_calls.
    + apply performs_move_file_calls.
Qed.

Lemma performs_worker_main_calls o : performs U_calls (worker_main o).
Proof. intros w. apply performs_worker_loop_calls. Qed.

Lemma parse_option_prune atoi parse_size parse_time_spec prog c optarg o w o' w' :
  parse_option atoi parse_size parse_time_spec prog c optarg o w = Ret o' w' ->
  c <> 1004 -> prune_empty_dirs o' = prune_empty_dirs o.
Proof.
  unfold parse_option. intros H Hc. apply Z.eqb_neq in Hc. rewrite Hc in H.
  repeat match type of H with
         | (if ?b then _ else _) _ = _ => destruct b
         | match ?x with _ => _ end _ = _ => destruct x
         end;
    try discriminate H; by injection H as <- <-.
Qed.

Lemma parse_loop_prune atoi parse_size parse_time_spec prog l :
  forall o w o' w',
    parse_loop atoi parse_size parse_time_spec prog l o w = Ret o' w' ->
    (forall a, (1004, a) ∉ l) -> prune_empty_dirs o' = prune_empty_dirs o.
Proof.
  induction l as [|[c optarg] l IH]; intros o w o' w' H Hno.
  - by injection H as <- <-.
  - cbn [parse_loop] in H. apply bind_Ret_inv in H as (o1 & w1 & H1 & H).
    rewrite (IH _ _ _ _ H).
    + apply (parse_option_prune _ _ _ _ _ _ _ _ _ _ H1).
      intros ->. apply (Hno optarg). apply elem_of_cons. by left.
    + intros a Ha. apply (Hno a). apply elem_of_cons. by right.
Qed.

Lemma final_world_bind {A B} (m : M A) (k : A -> M B) w :
  final_world ((m ≫= k) w)
  = match m w with
    | Ret a w1 => final_world (k a w1)
    | Exit _ w1 | Stuck w1 => w1
    end.
Proof. rewrite bind_eq. by destruct (m w). Qed.

(** Directories are removed only on request: in a run without
    [--prune-empty-dirs] no [rmdir] is ever called, whatever the outcome of
    the run. *)
Theorem rmdir_only_on_request
    (fnmatch : string -> string -> Z) (atoi : string -> Z)
    (parse_size parse_time_spec : string -> option Z)
    (cl : cmdline) (seen left : dirview) (w : world) :
  (forall a, (1004, a) ∉ getopt_seq cl) ->
  tr_rel (fun e => is_rmdir e = false) w
         (final_world (main fnmatch atoi parse_size parse_time_spec cl seen left w)).
Proof.
  intros Hno. unfold main. rewrite final_world_bind.
  assert (tr_rel (fun e => is_rmdir e = false) w
            (final_world (setup atoi parse_size parse_time_spec cl w))) as Hsetup.
  { apply (performs_trace U_setup _ _ (performs_setup atoi parse_size parse_time_spec cl)).
    intros u w0 e Hu He.
    destruct u as [[] ?|? ?|[]| | | | | | | | | | | |]; try done;
      cbn in He; by injection He as <-. }
  destruct (setup atoi parse_size parse_time_spec cl w) as [opt w1|s w1|w1] eqn:Es;
    cbn [final_world] in Hsetup; [|done|done].
  assert (prune_empty_dirs opt = false) as Hprune.
  { destruct (setup_options _ _ _ _ _ _ _ Es) as (w0 & Hp).
    unfold parse_options in Hp. apply bind_Ret_inv in Hp as (o & w2 & Hl & Hp).
    apply parse_loop_prune in Hl; [|done].
    destruct (operands cl) as [|s [|d [|? ?]]]; try discriminate Hp.
    injection Hp as <- _. cbn. by rewrite Hl. }
  etrans; [exact Hsetup|].
  apply (performs_trace (fun u => (exists o d, U_traverse o d u) \/ u = u_done \/ U_calls u)).
  - apply performs_bind; [apply performs_get_world|]. intros w2. cbv zeta.
    apply performs_bind.
    { eapply performs_weaken; [|apply performs_traverse_and_queue].
      intros u Hu. left. eauto. }
    intros _. apply performs_bind; [apply performs_finish_jobs; right; by left|].
    intros _. apply performs_bind.
    { apply performs_repeat_M.
      eapply performs_weaken; [|apply performs_worker_main_calls].
      intros u Hu. by right; right. }
    intros _. rewrite Hprune. cbn [andb].
    apply (performs_weaken U_calls); [intros u Hu; by right; right|].
    performs_go; done.
  - intros u w0 e [(o & d & Hu)|[->|Hu]] He.
    + destruct u as [? ?|[] ?|[]| | | | | | | | | | | |]; try done;
        cbn in He; by injection He as <-.
    + cbn in He. by injection He as <-.
    + destruct u as [[] ?|? ?|[]| | | | | | | | | | | |]; try done;
        cbn in He; try (by injection He as <-).
      destruct (pop_node (q w0)) as [[] ?]; try done; by injection He as <-.
Qed.

Lemma rmdir_only_on_request_witness :
  tr_rel (fun e => is_rmdir e = false)
    (world_init [ok_str "/a"; ok 0; ok_str "/d"; ok 0; fail ENOENT; ok 0])
    (final_world
       (main fnmatch_literal atoi_none parse_none parse_none cmd_plain tree_ab tree_ab
          (world_init [ok_str "/a"; ok 0; ok_str "/d"; ok 0; fail ENOENT; ok 0]))).
Proof.
  apply (rmdir_only_on_request fnmatch_literal atoi_none parse_none parse_none
           cmd_plain tree_ab tree_ab).
  intros a Ha. by apply elem_of_nil in Ha.
Defined.
